(** * ThermoCool landing page: the form-validation rule engine

    A shallow embedding of [js/form-validation.js]: the pattern and rule
    tables, [validateField], [validateAndDisplayError] and [validateForm],
    together with the parts of the ECMAScript library the module calls
    ([String.prototype.trim], [RegExp.prototype.test], a global
    [String.prototype.replace]). *)

From Stdlib Require Import NArith ZArith String Ascii Bool Lia.
From stdpp Require Import gmap strings list fin_maps.

Local Open Scope string_scope.
Local Open Scope list_scope.

(** ** ECMAScript strings *)

(** A string value is a finite sequence of UTF-16 code units. *)
Abbreviation code_unit := N (only parsing).
Abbreviation jsstring := (list N) (only parsing).

(** The string literal [s] of the source, as a sequence of code units (the
    literals of the module are ASCII). *)
Definition str (s : string) : jsstring :=
  map N_of_ascii (list_ascii_of_string s).

(** Inclusive ranges of code units, as they appear between brackets. *)
Definition in_ranges (ranges : list (N * N)) (c : code_unit) : bool :=
  existsb (fun r => (fst r <=? c)%N && (c <=? snd r)%N) ranges.

(** WhiteSpace and LineTerminator code points: what [trim] strips and what
    [\s] matches. *)
Definition whitespace_ranges : list (N * N) :=
  [ (9, 13); (32, 32); (160, 160); (5760, 5760); (8192, 8202);
    (8232, 8233); (8239, 8239); (8287, 8287); (12288, 12288);
    (65279, 65279) ]%N.

Definition is_whitespace (c : code_unit) : bool := in_ranges whitespace_ranges c.

(** [\d] is [0-9]. *)
Definition digit_ranges : list (N * N) := [ (48, 57) ]%N.

Definition is_digit (c : code_unit) : bool := in_ranges digit_ranges c.

Fixpoint drop_while (p : code_unit -> bool) (s : jsstring) : jsstring :=
  match s with
  | [] => []
  | c :: s' => if p c then drop_while p s' else s
  end.

(** [String.prototype.trim]: leading and trailing white space removed. *)
Definition trim (s : jsstring) : jsstring :=
  rev (drop_while is_whitespace (rev (drop_while is_whitespace s))).

(** [value.replace(/\D/g, '')]: every code unit that is not a digit is
    replaced by the empty string. *)
Definition strip_non_digits (s : jsstring) : jsstring := filter (fun c => is_digit c = true) s.

(** ** Regular expressions *)

Module RegExp.

(** The pattern syntax the module's three patterns are written in: character
    classes, sequencing, alternatives, greedy quantifiers and the two
    assertions [^] and [$] (no [m] flag). A non-capturing group [(?:r)] is
    its body. *)
Inductive regex : Type :=
| Empty
| CharClass (negated : bool) (ranges : list (N * N))
| Seq (r1 r2 : regex)
| Disjunction (r1 r2 : regex)
| Quantified (r : regex) (min : nat) (max : option nat)
| AssertStart
| AssertEnd.

Definition class_matches (negated : bool) (ranges : list (N * N)) (c : code_unit) : bool :=
  xorb negated (in_ranges ranges c).

(** The backtracking matchers of the language specification, in
    continuation-passing style. The state is the end index [x] together with
    the input from [x] on; a continuation receives the state after a match
    and the result is the end index of the whole match, if any. *)
Definition Continuation : Type := nat -> list N -> option nat.
Definition Matcher : Type := nat -> list N -> Continuation -> option nat.

(** RepeatMatcher for a greedy quantifier over the matcher [m]: when the
    counter [max] is zero the continuation runs; an iteration that starts
    with [min] zero and consumes nothing is rejected; one more iteration is
    tried before the continuation is. *)
Fixpoint RepeatMatcher (m : Matcher) (c : Continuation) (max min : nat)
    (x : nat) (rest : jsstring) {struct max} : option nat :=
  match max with
  | O => c x rest
  | S max' =>
      let d : Continuation := fun y rest' =>
        if (min =? 0)%nat && (y =? x)%nat then None
        else RepeatMatcher m c max' (pred min) y rest' in
      if (min =? 0)%nat then
        match m x rest d with
        | Some e => Some e
        | None => c x rest
        end
      else m x rest d
  end.

(** A quantifier without an upper bound runs RepeatMatcher with the counter
    [min + length rest]: past [min] iterations every iteration consumes a
    code unit, so that many iterations exhaust the input, and at the end
    of the input one more iteration cannot succeed (lemma
    [RepeatMatcher_unbounded]: any larger counter gives the same result). *)
Fixpoint matcher (r : regex) (x : nat) (rest : jsstring) (c : Continuation)
    {struct r} : option nat :=
  match r with
  | Empty => c x rest
  | CharClass negated ranges =>
      match rest with
      | [] => None
      | ch :: rest' =>
          if class_matches negated ranges ch then c (S x) rest' else None
      end
  | Seq r1 r2 => matcher r1 x rest (fun y rest' => matcher r2 y rest' c)
  | Disjunction r1 r2 =>
      match matcher r1 x rest c with
      | Some e => Some e
      | None => matcher r2 x rest c
      end
  | Quantified r' min max =>
      RepeatMatcher (matcher r') c
        (match max with Some n => n | None => min + length rest end)%nat
        min x rest
  | AssertStart => if (x =? 0)%nat then c x rest else None
  | AssertEnd => match rest with [] => c x rest | _ :: _ => None end
  end.

(** One attempt at index [i] of [input]. *)
Definition match_at (r : regex) (input : jsstring) (i : nat) : option nat :=
  matcher r i (drop i input) (fun e _ => Some e).

(** A RegExp object: its pattern, the two flags that make [exec] read and
    write [lastIndex], and the mutable [lastIndex] property. *)
Record t : Type := mk {
  source : regex;
  global : bool;
  sticky : bool;
  lastIndex : nat
}.

Definition set_lastIndex (R : t) (i : nat) : t :=
  {| source := source R; global := global R; sticky := sticky R; lastIndex := i |}.

(** The search loop of RegExpBuiltinExec from index [i]; [n] bounds the
    number of start positions still to try. *)
Fixpoint search (r : regex) (is_sticky : bool) (input : jsstring) (n i : nat)
    : option nat :=
  match n with
  | O => None
  | S n' =>
      match match_at r input i with
      | Some e => Some e
      | None => if is_sticky then None else search r is_sticky input n' (S i)
      end
  end.

(** [R.test(S)]: the result and the object after the call. The search starts
    at [lastIndex] when the pattern is global or sticky and at 0 otherwise;
    only a global or sticky pattern has its [lastIndex] written. *)
Definition test (R : t) (S : jsstring) : bool * t :=
  let stateful := global R || sticky R in
  let start := if stateful then lastIndex R else 0%nat in
  match search (source R) (sticky R) S (Datatypes.S (length S) - start) start with
  | Some e => (true, if stateful then set_lastIndex R e else R)
  | None => (false, if stateful then set_lastIndex R 0 else R)
  end.

(** A pattern literal without flags. *)
Definition literal (r : regex) : t :=
  {| source := r; global := false; sticky := false; lastIndex := 0 |}.

(** Notations for writing the patterns as they are read. *)
Definition chars (s : string) : list (N * N) := map (fun c => (c, c)) (str s).
Definition range (lo hi : string) : list (N * N) :=
  match str lo, str hi with
  | [a], [b] => [(a, b)]
  | _, _ => []
  end.
Definition plus (r : regex) : regex := Quantified r 1 None.
Definition star (r : regex) : regex := Quantified r 0 None.
Definition opt (r : regex) : regex := Quantified r 0 (Some 1%nat).
Definition class (ranges : list (N * N)) : regex := CharClass false ranges.

End RegExp.

Import RegExp(regex).

(** ** The pattern, message and rule tables *)

Module VALIDATION_PATTERNS.
Import RegExp.

Definition alnum : list (N * N) := range "a" "z" ++ range "A" "Z" ++ range "0" "9".

(** [[a-zA-Z0-9](?:[a-zA-Z0-9-]{0,61}[a-zA-Z0-9])?] *)
Definition label : regex :=
  Seq (class alnum)
      (opt (Seq (Quantified (class (alnum ++ chars "-")) 0 (Some 61%nat))
                (class alnum))).

Definition EMAIL : RegExp.t :=
  literal
    (Seq AssertStart
    (Seq (plus (class (alnum ++ chars ".!#$%&'*+/=?^_`{|}~-")))
    (Seq (class (chars "@"))
    (Seq label
    (Seq (star (Seq (class (chars ".")) label))
         AssertEnd))))).

(** [/^[\d\s\-\(\)\+\.]+$/] *)
Definition PHONE : RegExp.t :=
  literal
    (Seq AssertStart
    (Seq (plus (class (digit_ranges ++ whitespace_ranges ++ chars "-()+.")))
         AssertEnd)).

(** [/^[a-zA-Z\s\-'\.]+$/] *)
Definition NAME : RegExp.t :=
  literal
    (Seq AssertStart
    (Seq (plus (class (range "a" "z" ++ range "A" "Z" ++ whitespace_ranges
                       ++ chars "-'.")))
         AssertEnd)).

End VALIDATION_PATTERNS.

Module ERROR_MESSAGES.

Definition REQUIRED := "This field is required".
Definition EMAIL_INVALID := "Please enter a valid email address".
Definition PHONE_INVALID := "Please enter a valid phone number".
Definition NAME_INVALID :=
  "Please enter a valid name (letters, spaces, hyphens, and apostrophes only)".
Definition MESSAGE_TOO_SHORT := "Message must be at least 10 characters long".
Definition PHONE_TOO_SHORT := "Phone number must be at least 10 digits".
Definition PHONE_TOO_LONG := "Phone number must not exceed 20 digits".

End ERROR_MESSAGES.

(** A rule set: an absent [pattern], [minLength] or [maxLength] property reads
    as [undefined]; [errorMessages] maps a violation kind to its message. *)
Record FieldRuleSet : Type := {
  required : bool;
  pattern : option RegExp.t;
  minLength : option Z;
  maxLength : option Z;
  errorMessages : gmap string string
}.

Definition name_rules : FieldRuleSet := {|
  required := true;
  pattern := Some VALIDATION_PATTERNS.NAME;
  minLength := Some 2%Z;
  maxLength := Some 100%Z;
  errorMessages :=
    <["required" := ERROR_MESSAGES.REQUIRED]>
    (<["pattern" := ERROR_MESSAGES.NAME_INVALID]>
    (<["minLength" := "Name must be at least 2 characters long"]>
    (<["maxLength" := "Name must not exceed 100 characters"]> ∅)))
|}.

Definition email_rules : FieldRuleSet := {|
  required := true;
  pattern := Some VALIDATION_PATTERNS.EMAIL;
  minLength := None;
  maxLength := Some 254%Z;
  errorMessages :=
    <["required" := ERROR_MESSAGES.REQUIRED]>
    (<["pattern" := ERROR_MESSAGES.EMAIL_INVALID]>
    (<["maxLength" := "Email must not exceed 254 characters"]> ∅))
|}.

Definition phone_rules : FieldRuleSet := {|
  required := true;
  pattern := Some VALIDATION_PATTERNS.PHONE;
  minLength := Some 10%Z;
  maxLength := Some 20%Z;
  errorMessages :=
    <["required" := ERROR_MESSAGES.REQUIRED]>
    (<["pattern" := ERROR_MESSAGES.PHONE_INVALID]>
    (<["minLength" := ERROR_MESSAGES.PHONE_TOO_SHORT]>
    (<["maxLength" := ERROR_MESSAGES.PHONE_TOO_LONG]> ∅)))
|}.

Definition service_rules : FieldRuleSet := {|
  required := true;
  pattern := None;
  minLength := None;
  maxLength := None;
  errorMessages := <["required" := ERROR_MESSAGES.REQUIRED]> ∅
|}.

Definition message_rules : FieldRuleSet := {|
  required := true;
  pattern := None;
  minLength := Some 10%Z;
  maxLength := Some 1000%Z;
  errorMessages :=
    <["required" := ERROR_MESSAGES.REQUIRED]>
    (<["minLength" := ERROR_MESSAGES.MESSAGE_TOO_SHORT]>
    (<["maxLength" := "Message must not exceed 1000 characters"]> ∅))
|}.

(** The table, keyed by field name. *)
Definition FIELD_RULES : gmap string FieldRuleSet :=
  <["name" := name_rules]>
  (<["email" := email_rules]>
  (<["phone" := phone_rules]>
  (<["service" := service_rules]>
  (<["message" := message_rules]> ∅)))).

(** ** validateField *)

(** The form field as [validateField] reads it. *)
Record Field : Type := {
  name : string;
  type : string;
  value : jsstring
}.

(** What the [error] property of a result can hold: [null], [undefined] (a
    message key that is not in [errorMessages]) or a message. *)
Inductive ErrorValue : Type :=
| Null
| Undefined
| Message (s : string).

Record ValidationResult : Type := {
  isValid : bool;
  error : ErrorValue
}.

(** [rules.errorMessages[kind]] *)
Definition get_message (rules : FieldRuleSet) (kind : string) : ErrorValue :=
  match errorMessages rules !! kind with
  | Some s => Message s
  | None => Undefined
  end.

Definition invalid (rules : FieldRuleSet) (kind : string) : ValidationResult :=
  {| isValid := false; error := get_message rules kind |}.

Definition valid : ValidationResult := {| isValid := true; error := Null |}.

(** The rule set after its pattern object has been through a call of [test]. *)
Definition with_pattern (rules : FieldRuleSet) (p : RegExp.t) : FieldRuleSet :=
  {| required := required rules; pattern := Some p;
     minLength := minLength rules; maxLength := maxLength rules;
     errorMessages := errorMessages rules |}.

(** [!value] on a string. *)
Definition is_empty (s : jsstring) : bool :=
  match s with [] => true | _ :: _ => false end.

(** [fieldType === 'tel' ? value.replace(/\D/g, '').length : value.length] *)
Definition effective_length (fieldType : string) (value : jsstring) : Z :=
  Z.of_nat (if String.eqb fieldType "tel" then length (strip_non_digits value)
            else length value).

(** [rules.pattern && !rules.pattern.test(value)]: whether the pattern check
    fails, and the rule set after the call of [test] if there was one (the
    pattern object may have had its [lastIndex] written). *)
Definition pattern_fails (rules : FieldRuleSet) (value : jsstring)
    : bool * FieldRuleSet :=
  match pattern rules with
  | Some p =>
      let (matched, p') := RegExp.test p value in
      (negb matched, with_pattern rules p')
  | None => (false, rules)
  end.

(** [rules.minLength !== undefined] and [length < rules.minLength] *)
Definition too_short (fieldType : string) (value : jsstring) (rules : FieldRuleSet) : bool :=
  match minLength rules with
  | Some min => (effective_length fieldType value <? min)%Z
  | None => false
  end.

(** [rules.maxLength !== undefined] and [length > rules.maxLength] *)
Definition too_long (fieldType : string) (value : jsstring) (rules : FieldRuleSet) : bool :=
  match maxLength rules with
  | Some max => (effective_length fieldType value >? max)%Z
  | None => false
  end.

(** [validateField(field, rules)]: the result, and the rule set after the
    call. *)
Definition validateField (field : Field) (rules : FieldRuleSet)
    : ValidationResult * FieldRuleSet :=
  let value := trim (value field) in
  let fieldType := type field in
  if required rules && is_empty value then (invalid rules "required", rules)
  else if is_empty value && negb (required rules) then (valid, rules)
  else
    let (mismatch, rules') := pattern_fails rules value in
    if mismatch then (invalid rules "pattern", rules')
    else if too_short fieldType value rules then (invalid rules "minLength", rules')
    else if too_long fieldType value rules then (invalid rules "maxLength", rules')
    else (valid, rules').

Definition field_of (n t v : string) : Field :=
  {| name := n; type := t; value := str v |}.

(** ** validateAndDisplayError and validateForm *)

(** The calls into the document that the two functions make, in order. A
    field is named by its index in [form.querySelectorAll('input, select,
    textarea')]. *)
Inductive DomCall : Type :=
| ShowError (field : nat) (errorMessage : ErrorValue)
| ClearError (field : nat)
| Focus (field : nat).

(** The property names every object literal inherits from
    [Object.prototype]. *)
Definition Object_prototype_names : list string :=
  [ "constructor"; "hasOwnProperty"; "isPrototypeOf"; "propertyIsEnumerable";
    "toLocaleString"; "toString"; "valueOf"; "__proto__";
    "__defineGetter__"; "__defineSetter__"; "__lookupGetter__";
    "__lookupSetter__" ].

(** A member of [Object.prototype] read as a rule set: it is an object, so it
    is truthy, and none of the properties [validateField] reads is defined
    on it. *)
Definition inherited_member : FieldRuleSet := {|
  required := false;
  pattern := None;
  minLength := None;
  maxLength := None;
  errorMessages := ∅
|}.

(** [FIELD_RULES[name]]: an own property of the table, or else what the
    prototype chain gives. *)
Definition FIELD_RULES_get (name : string) : option FieldRuleSet :=
  match FIELD_RULES !! name with
  | Some rules => Some rules
  | None =>
      if bool_decide (name ∈ Object_prototype_names) then Some inherited_member
      else None
  end.

(** [validateAndDisplayError(field)] for the field at index [i]. The patterns
    of the table carry no flag, so [validateField] leaves the table as it
    found it (lemma [FIELD_RULES_unchanged]) and the table is a constant
    here. *)
Definition validateAndDisplayError (i : nat) (field : Field) : bool * list DomCall :=
  match FIELD_RULES_get (name field) with
  | None => (true, [])
  | Some rules =>
      let result := fst (validateField field rules) in
      if negb (isValid result) then (false, [ShowError i (error result)])
      else (true, [ClearError i])
  end.

(** The callback that [validateForm] passes to [forEach], for the field at
    index [i]: it reads and writes the variable [isValid] of the enclosing
    call, and focuses the field when it is invalid and is [fields[0]]. *)
Definition validateForm_callback (i : nat) (field : Field) (isValid : bool)
    : bool * list DomCall :=
  if negb (String.eqb (name field) "")
     && bool_decide (is_Some (FIELD_RULES_get (name field)))
  then
    let (fieldValid, calls) := validateAndDisplayError i field in
    if negb fieldValid
    then (false, calls ++ (if (i =? 0)%nat then [Focus i] else []))
    else (isValid, calls)
  else (isValid, []).

(** [fields.forEach(callback)] from index [i] on. *)
Fixpoint forEach_field (i : nat) (fields : list Field) (isValid : bool)
    : bool * list DomCall :=
  match fields with
  | [] => (isValid, [])
  | field :: fields' =>
      let (isValid', calls) := validateForm_callback i field isValid in
      let (result, calls') := forEach_field (S i) fields' isValid' in
      (result, calls ++ calls')
  end.

(** [validateForm(form)], on the fields of the form in document order. *)
Definition validateForm (fields : list Field) : bool * list DomCall :=
  forEach_field 0 fields true.

(** ** What the properties are stated with *)

(** Empty, or white space only. *)
Definition whitespace_only (s : jsstring) : Prop :=
  Forall (fun c => is_whitespace c = true) s.

(** The number of digit characters of a string. *)
Fixpoint digit_count (s : jsstring) : nat :=
  match s with
  | [] => 0
  | c :: s' => if is_digit c then S (digit_count s') else digit_count s'
  end.

(** The verdict of the two length checks for an effective length [n]: too
    short first, then too long; an absent bound is no constraint. *)
Definition below_minimum (rules : FieldRuleSet) (n : Z) : bool :=
  match minLength rules with
  | Some min => (n <? min)%Z
  | None => false
  end.

Definition above_maximum (rules : FieldRuleSet) (n : Z) : bool :=
  match maxLength rules with
  | Some max => (max <? n)%Z
  | None => false
  end.

Definition verdict_for_length (rules : FieldRuleSet) (n : Z) : ValidationResult :=
  if below_minimum rules n then invalid rules "minLength"
  else if above_maximum rules n then invalid rules "maxLength"
  else valid.

(** The rule set has no pattern, or [test] accepts the value. *)
Definition pattern_accepts (rules : FieldRuleSet) (v : jsstring) : Prop :=
  match pattern rules with
  | Some p => fst (RegExp.test p v) = true
  | None => True
  end.

(** The data-model invariant on messages: a pattern, a minimum or a maximum
    that is present has its message. *)
Definition message_invariant (rules : FieldRuleSet) : Prop :=
  (is_Some (pattern rules) -> is_Some (errorMessages rules !! "pattern")) /\
  (is_Some (minLength rules) -> is_Some (errorMessages rules !! "minLength")) /\
  (is_Some (maxLength rules) -> is_Some (errorMessages rules !! "maxLength")).

(** The same for all four rules: a rule set that is required has the
    "required" message too. *)
Definition every_rule_has_message (rules : FieldRuleSet) : Prop :=
  (required rules = true -> is_Some (errorMessages rules !! "required")) /\
  message_invariant rules.

(** [e] is a message string held by [errorMessages]. *)
Definition is_message_of (rules : FieldRuleSet) (e : ErrorValue) : Prop :=
  exists kind msg, errorMessages rules !! kind = Some msg /\ e = Message msg.

(** The pattern of the rule set, if any, is neither global nor sticky. *)
Definition flagless_pattern (rules : FieldRuleSet) : Prop :=
  match pattern rules with
  | Some p => RegExp.global p = false /\ RegExp.sticky p = false
  | None => True
  end.

(** The optional rule set of the test suite, its pattern written with the
    [g] flag: [/^[a-z]+$/g]. *)
Definition global_pattern_rules : FieldRuleSet := {|
  required := false;
  pattern := Some {|
    RegExp.source :=
      RegExp.Seq RegExp.AssertStart
        (RegExp.Seq (RegExp.plus (RegExp.class (RegExp.range "a" "z")))
                    RegExp.AssertEnd);
    RegExp.global := true;
    RegExp.sticky := false;
    RegExp.lastIndex := 0 |};
  minLength := None;
  maxLength := None;
  errorMessages := <["pattern" := "Invalid format"]> ∅
|}.

(** A required rule set whose [errorMessages] is empty. *)
Definition required_without_message : FieldRuleSet := {|
  required := true;
  pattern := None;
  minLength := None;
  maxLength := None;
  errorMessages := ∅
|}.

(** What a result owes its rule set: it is valid exactly when its error is
    [null], and the error of an invalid result is a message of the rule
    set. *)
Definition result_well_formed (rules : FieldRuleSet) (result : ValidationResult) : Prop :=
  (isValid result = true <-> error result = Null) /\
  (isValid result = false -> is_message_of rules (error result)).

(** The violation kinds that are reported only when their rule is present. *)
Definition optional_kinds : list string := ["pattern"; "minLength"; "maxLength"].

(** The call that displays the verdict on the field at index [i]. *)
Definition display_call (i : nat) (result : ValidationResult) : DomCall :=
  if isValid result then ClearError i else ShowError i (error result).

(** The field passes validateField under its registered rule set, if it has
    one. *)
Definition field_passes (field : Field) : bool :=
  match FIELD_RULES !! name field with
  | Some rules => isValid (fst (validateField field rules))
  | None => true
  end.

(** A matcher is positional when it runs its continuation only on states
    reached by consuming a prefix of the input, and strict when it fails as
    soon as its continuation always fails. *)
Definition positional (m : RegExp.Matcher) : Prop :=
  forall (x : nat) (rest : list N) (c c' : RegExp.Continuation),
    (forall pre rest', rest = pre ++ rest' ->
       c (x + length pre)%nat rest' = c' (x + length pre)%nat rest') ->
    m x rest c = m x rest c'.

Definition strict (m : RegExp.Matcher) : Prop :=
  forall (x : nat) (rest : list N), m x rest (fun _ _ => None) = None.

(** ** What a pattern matches *)

(** [matches r x s post]: the pattern [r] matches the text [s] that starts
    at index [x] of the input and is followed by [post]. A quantifier stops
    when its minimum is reached or its maximum is used up, and past the
    minimum it takes no empty iteration, as RepeatMatcher has it. *)
Inductive matches : regex -> nat -> list N -> list N -> Prop :=
| matches_Empty x post :
    matches RegExp.Empty x [] post
| matches_CharClass negated ranges ch x post :
    RegExp.class_matches negated ranges ch = true ->
    matches (RegExp.CharClass negated ranges) x [ch] post
| matches_Seq r1 r2 x s1 s2 post :
    matches r1 x s1 (s2 ++ post) ->
    matches r2 (x + length s1) s2 post ->
    matches (RegExp.Seq r1 r2) x (s1 ++ s2) post
| matches_Disjunction_l r1 r2 x s post :
    matches r1 x s post ->
    matches (RegExp.Disjunction r1 r2) x s post
| matches_Disjunction_r r1 r2 x s post :
    matches r2 x s post ->
    matches (RegExp.Disjunction r1 r2) x s post
| matches_Quantified_done r min max x post :
    min = 0%nat \/ max = Some 0%nat ->
    matches (RegExp.Quantified r min max) x [] post
| matches_Quantified_more r min max x s1 s2 post :
    max <> Some 0%nat ->
    min <> 0%nat \/ s1 <> [] ->
    matches r x s1 (s2 ++ post) ->
    matches (RegExp.Quantified r (pred min) (pred <$> max)) (x + length s1) s2 post ->
    matches (RegExp.Quantified r min max) x (s1 ++ s2) post
| matches_AssertStart post :
    matches RegExp.AssertStart 0 [] post
| matches_AssertEnd x :
    matches RegExp.AssertEnd x [] [].

(** ** The character sets and shapes of the three patterns *)

Definition is_letter (c : code_unit) : bool :=
  ((97 <=? c) && (c <=? 122) || (65 <=? c) && (c <=? 90))%N.

(** [c] is one of the characters of the literal [s]. *)
Definition one_of (s : string) (c : code_unit) : bool := bool_decide (c ∈ str s).

(** A digit, white space, or one of [- ( ) + .] *)
Definition phone_char (c : code_unit) : bool :=
  is_digit c || is_whitespace c || one_of "-()+." c.

(** A letter of the basic Latin alphabet, white space, or one of [- ' .] *)
Definition name_char (c : code_unit) : bool :=
  is_letter c || is_whitespace c || one_of "-'." c.

Definition alnum_char (c : code_unit) : bool := is_letter c || is_digit c.

(** What the part of an address before the [@] is made of. *)
Definition local_char (c : code_unit) : bool :=
  alnum_char c || one_of ".!#$%&'*+/=?^_`{|}~-" c.

Definition label_char (c : code_unit) : bool := alnum_char c || one_of "-" c.

(** A domain label: 1 to 63 letters, digits and hyphens, the first and the
    last of which are not hyphens. *)
Definition is_label (l : list N) : Prop :=
  (1 <= length l <= 63)%nat /\
  Forall (fun c => label_char c = true) l /\
  (exists a, head l = Some a /\ alnum_char a = true) /\
  (exists b, last l = Some b /\ alnum_char b = true).

(** The labels of a domain, joined by dots. *)
Fixpoint join_dots (labels : list (list N)) : list N :=
  match labels with
  | [] => []
  | [l] => l
  | l :: labels' => l ++ str "." ++ join_dots labels'
  end.

(** A non-empty local part, an [@], and one or more labels joined by dots. *)
Definition email_shape (s : list N) : Prop :=
  exists (local : list N) (labels : list (list N)),
    s = local ++ str "@" ++ join_dots labels /\
    local <> [] /\ Forall (fun c => local_char c = true) local /\
    labels <> [] /\ Forall is_label labels.

(** ** The verdicts on the phone and name fields, read off the rules *)

Definition failure (msg : string) : ValidationResult :=
  {| isValid := false; error := Message msg |}.

Definition phone_verdict (v : list N) : ValidationResult :=
  if is_empty v then failure "This field is required"
  else if negb (forallb phone_char v) then failure "Please enter a valid phone number"
  else if (digit_count v <? 10)%nat then failure "Phone number must be at least 10 digits"
  else if (20 <? digit_count v)%nat then failure "Phone number must not exceed 20 digits"
  else valid.

Definition name_verdict (v : list N) : ValidationResult :=
  if is_empty v then failure "This field is required"
  else if negb (forallb name_char v)
  then failure "Please enter a valid name (letters, spaces, hyphens, and apostrophes only)"
  else if (length v <? 2)%nat then failure "Name must be at least 2 characters long"
  else if (100 <? length v)%nat then failure "Name must not exceed 100 characters"
  else valid.

(** ** debounce *)

Module Debounce.
Section Debounce.

(** What one call of the debounced function captures for [later]: its
    [this] and its [arguments]. *)
Variable A : Type.

(** The [wait] argument of [debounce], in milliseconds. *)
Variable wait : nat.

(** The host's timers and the closure of [debounce(func, wait)]: the clock,
    the next timer handle, the active timers (each with the time from which
    it may run and the call its [later] captured), the variable [timeout]
    ([None] when it is [undefined] or [null]), and the calls of [func] so
    far with the time of each. *)
Record state : Type := {
  now : nat;
  next_handle : nat;
  timers : gmap nat (nat * A);
  timeout : option nat;
  invoked : list (nat * A)
}.

(** [setTimeout(later, delay)] where [later] captured [a]. *)
Definition setTimeout (a : A) (delay : nat) (st : state) : nat * state :=
  (next_handle st,
   {| now := now st;
      next_handle := S (next_handle st);
      timers := <[next_handle st := ((now st + delay)%nat, a)]> (timers st);
      timeout := timeout st;
      invoked := invoked st |}).

(** [clearTimeout(handle)]: nothing happens for [undefined], [null] or a
    handle that is not active. *)
Definition clearTimeout (handle : option nat) (st : state) : state :=
  match handle with
  | Some h =>
      {| now := now st;
         next_handle := next_handle st;
         timers := delete h (timers st);
         timeout := timeout st;
         invoked := invoked st |}
  | None => st
  end.

(** [later]: [timeout = null; func.apply(context, args)]. *)
Definition later (a : A) (st : state) : state :=
  {| now := now st;
     next_handle := next_handle st;
     timers := timers st;
     timeout := None;
     invoked := invoked st ++ [(now st, a)] |}.

(** [executedFunction], the function that [debounce] returns. *)
Definition executedFunction (a : A) (st : state) : state :=
  let st1 := clearTimeout (timeout st) st in
  let (handle, st2) := setTimeout a wait st1 in
  {| now := now st2;
     next_handle := next_handle st2;
     timers := timers st2;
     timeout := Some handle;
     invoked := invoked st2 |}.

(** The host runs the timer [h]: it must be active and its time must have
    come; it leaves the list of active timers and its callback runs. *)
Definition fire (h : nat) (st : state) : state :=
  match timers st !! h with
  | Some (due, a) =>
      if (due <=? now st)%nat
      then later a {| now := now st;
                      next_handle := next_handle st;
                      timers := delete h (timers st);
                      timeout := timeout st;
                      invoked := invoked st |}
      else st
  | None => st
  end.

Definition advance (dt : nat) (st : state) : state :=
  {| now := (now st + dt)%nat;
     next_handle := next_handle st;
     timers := timers st;
     timeout := timeout st;
     invoked := invoked st |}.

(** What can happen to a debounced function: it is called, the host runs a
    timer, time passes. *)
Inductive event : Type :=
| Call (a : A)
| Fire (h : nat)
| Advance (dt : nat).

Definition step (st : state) (e : event) : state :=
  match e with
  | Call a => executedFunction a st
  | Fire h => fire h st
  | Advance dt => advance dt st
  end.

Definition run (st : state) (es : list event) : state := foldl step st es.

(** The state right after [debounce(func, wait)], at time [t0] with [h0] the
    next handle of the host. *)
Definition initial (t0 h0 : nat) : state :=
  {| now := t0; next_handle := h0; timers := ∅; timeout := None; invoked := [] |}.

Definition reachable (st : state) : Prop :=
  exists t0 h0 es, st = run (initial t0 h0) es.

Definition is_call (e : event) : bool :=
  match e with Call _ => true | _ => false end.

(** The timers of the closure are the one that [timeout] names, if any. *)
Definition one_timer (st : state) : Prop :=
  match timeout st with
  | Some h => exists due a, timers st = {[h := (due, a)]}
  | None => timers st = ∅
  end.

End Debounce.
End Debounce.

(** ** The document the form module works on *)

Module Dom.

(** The element with class [error-message] that shows a message. *)
Record ErrorElement : Type := {
  element_id : string;
  textContent : string;
  style_display : string;
  role : option string;
  aria_live : option string
}.

(** What [field.closest('.form-group') || field.parentElement] gives:
    whether its class list has [has-error], and the first descendant with
    class [error-message], which is what [querySelector] returns. *)
Record Container : Type := {
  has_error : bool;
  error_message : option ErrorElement
}.

(** An element of [form.querySelectorAll('input, select, textarea')]: what
    validateField reads, its [id] (empty without one), its container, the
    two ARIA attributes, whether its class list has [field-error], whether
    [focus()] can move the focus to it, whether initFormValidation attached
    its listeners to it, and the value [form.reset()] gives it back. *)
Record FieldElement : Type := {
  field : Field;
  field_id : string;
  container : nat;
  aria_invalid : option string;
  aria_describedby : option string;
  field_error : bool;
  focusable : bool;
  listening : bool;
  defaultValue : list N
}.

(** The element with class [success-message] beside the form. *)
Record SuccessElement : Type := {
  success_text : string;
  success_display : string
}.

(** The form and what surrounds it. The containers of the fields are taken
    to be separate subtrees of the document (two fields may share one), and
    [field-error] and [error-message] to be on no other element than the
    ones listed here. [activeElement] is the index of the field that has the
    focus, [None] when the focus is elsewhere; [reset_timers] counts the
    timers that displaySuccessMessage has armed. *)
Record Document : Type := {
  fields : list FieldElement;
  containers : gmap nat Container;
  activeElement : option nat;
  success_message : option SuccessElement;
  reset_timers : nat
}.

Definition get_container (doc : Document) (c : nat) : Container :=
  default {| has_error := false; error_message := None |} (containers doc !! c).

Definition set_field (i : nat) (f : FieldElement) (doc : Document) : Document :=
  {| fields := <[i := f]> (fields doc);
     containers := containers doc;
     activeElement := activeElement doc;
     success_message := success_message doc;
     reset_timers := reset_timers doc |}.

Definition set_container (c : nat) (box : Container) (doc : Document) : Document :=
  {| fields := fields doc;
     containers := <[c := box]> (containers doc);
     activeElement := activeElement doc;
     success_message := success_message doc;
     reset_timers := reset_timers doc |}.

Definition set_activeElement (a : option nat) (doc : Document) : Document :=
  {| fields := fields doc;
     containers := containers doc;
     activeElement := a;
     success_message := success_message doc;
     reset_timers := reset_timers doc |}.

(** The [span] that showError creates. *)
Definition created_span : ErrorElement :=
  {| element_id := ""; textContent := ""; style_display := "";
     role := Some "alert"; aria_live := Some "polite" |}.

(** What assigning [errorMessage] to [textContent] leaves as text: [null]
    and [undefined] give the empty string. *)
Definition text_of (errorMessage : ErrorValue) : string :=
  match errorMessage with
  | Message s => s
  | Null | Undefined => ""
  end.

(** [errorElement.id || `${field.id}-error`] *)
Definition error_id (f : FieldElement) (e : ErrorElement) : string :=
  if String.eqb (element_id e) "" then String.append (field_id f) "-error"
  else element_id e.

(** [showError(field, errorMessage)] for the field at index [i]. *)
Definition showError (i : nat) (errorMessage : ErrorValue) (doc : Document)
    : Document :=
  match fields doc !! i with
  | None => doc
  | Some f =>
      let fieldContainer := get_container doc (container f) in
      let errorElement :=
        match error_message fieldContainer with
        | Some e => e
        | None => created_span
        end in
      let shown :=
        {| element_id := error_id f errorElement;
           textContent := text_of errorMessage;
           style_display := "block";
           role := role errorElement;
           aria_live := aria_live errorElement |} in
      set_container (container f)
        {| has_error := true; error_message := Some shown |}
        (set_field i
           {| field := field f; field_id := field_id f; container := container f;
              aria_invalid := Some "true";
              aria_describedby := Some (error_id f errorElement);
              field_error := true;
              focusable := focusable f; listening := listening f;
              defaultValue := defaultValue f |}
           doc)
  end.

(** [clearError(field)] for the field at index [i]. *)
Definition clearError (i : nat) (doc : Document) : Document :=
  match fields doc !! i with
  | None => doc
  | Some f =>
      let fieldContainer := get_container doc (container f) in
      let cleared :=
        match error_message fieldContainer with
        | Some e =>
            Some {| element_id := element_id e; textContent := "";
                    style_display := "none";
                    role := role e; aria_live := aria_live e |}
        | None => None
        end in
      set_container (container f)
        {| has_error := false; error_message := cleared |}
        (set_field i
           {| field := field f; field_id := field_id f; container := container f;
              aria_invalid := Some "false";
              aria_describedby := None;
              field_error := false;
              focusable := focusable f; listening := listening f;
              defaultValue := defaultValue f |}
           doc)
  end.

(** [validateAndDisplayError(field)] on the document. *)
Definition validateAndDisplayError (i : nat) (doc : Document) : bool * Document :=
  match fields doc !! i with
  | None => (true, doc)
  | Some f =>
      match FIELD_RULES_get (name (field f)) with
      | None => (true, doc)
      | Some rules =>
          let result := fst (validateField (field f) rules) in
          if negb (isValid result) then (false, showError i (error result) doc)
          else (true, clearError i doc)
      end
  end.

(** The listeners of initFormValidation, on a field that has them: blur
    validates the field, focus clears its error when its value is empty. *)
Definition on_blur (i : nat) (doc : Document) : Document :=
  match fields doc !! i with
  | Some f => if listening f then snd (validateAndDisplayError i doc) else doc
  | None => doc
  end.

Definition on_focus (i : nat) (doc : Document) : Document :=
  match fields doc !! i with
  | Some f =>
      if listening f && is_empty (value (field f)) then clearError i doc else doc
  | None => doc
  end.

(** [field.focus()]: nothing happens when the field cannot take the focus
    or has it already; otherwise the field that had the focus gets its blur
    event, the focus moves, and the field gets its focus event. *)
Definition focus (i : nat) (doc : Document) : Document :=
  match fields doc !! i with
  | Some f =>
      if negb (focusable f) then doc
      else if bool_decide (activeElement doc = Some i) then doc
      else
        let doc1 :=
          match activeElement doc with
          | Some j => on_blur j doc
          | None => doc
          end in
        on_focus i (set_activeElement (Some i) doc1)
  | None => doc
  end.

(** The callback of validateForm for the field at index [i]. *)
Definition validateForm_callback (i : nat) (st : bool * Document) : bool * Document :=
  let (isValid, doc) := st in
  match fields doc !! i with
  | None => st
  | Some f =>
      if negb (String.eqb (name (field f)) "")
         && bool_decide (is_Some (FIELD_RULES_get (name (field f))))
      then
        let (fieldValid, doc') := validateAndDisplayError i doc in
        if negb fieldValid
        then (false, if (i =? 0)%nat then focus i doc' else doc')
        else (isValid, doc')
      else st
  end.

(** [validateForm(form)]: the callback on every index of the node list. *)
Definition validateForm (doc : Document) : bool * Document :=
  foldl (fun st i => validateForm_callback i st) (true, doc)
        (seq 0 (length (fields doc))).

(** [form.querySelector('.field-error')]: the first field with the class. *)
Fixpoint first_field_error (i : nat) (fs : list FieldElement) : option nat :=
  match fs with
  | [] => None
  | f :: fs' => if field_error f then Some i else first_field_error (S i) fs'
  end.

(** [displaySuccessMessage(form)]: the message element is created when
    there is none, filled and shown, and the reset timer is armed. *)
Definition displaySuccessMessage (doc : Document) : Document :=
  {| fields := fields doc;
     containers := containers doc;
     activeElement := activeElement doc;
     success_message :=
       Some {| success_text := "Thank you for your message! We will contact you soon.";
               success_display := "block" |};
     reset_timers := S (reset_timers doc) |}.

(** [handleFormSubmit(event)]: whether the event ends with its default
    prevented, the value returned, and the document. *)
Definition handleFormSubmit (doc : Document) : bool * bool * Document :=
  let (isValid, doc1) := validateForm doc in
  if negb isValid then
    match first_field_error 0 (fields doc1) with
    | Some i => (true, false, focus i doc1)
    | None => (true, false, doc1)
    end
  else (true, false, displaySuccessMessage doc1).

(** [form.reset()] on a field. *)
Definition reset_field (f : FieldElement) : FieldElement :=
  {| field := {| name := name (field f); type := type (field f);
                 value := defaultValue f |};
     field_id := field_id f; container := container f;
     aria_invalid := aria_invalid f; aria_describedby := aria_describedby f;
     field_error := field_error f;
     focusable := focusable f; listening := listening f;
     defaultValue := defaultValue f |}.

(** The callback of the timer that displaySuccessMessage arms: the form is
    reset, the message is hidden and clearError runs on every field. *)
Definition reset_timer_fires (doc : Document) : Document :=
  match reset_timers doc with
  | O => doc
  | S n =>
      let doc1 :=
        {| fields := map reset_field (fields doc);
           containers := containers doc;
           activeElement := activeElement doc;
           success_message :=
             match success_message doc with
             | Some m => Some {| success_text := success_text m;
                                 success_display := "none" |}
             | None => None
             end;
           reset_timers := n |} in
      foldl (fun d i => clearError i d) doc1 (seq 0 (length (fields doc1)))
  end.

(** A field of the page's contact form, in its own [form-group] [c], with
    the listeners attached. *)
Definition form_field (c : nat) (n t v : string) : FieldElement :=
  {| field := field_of n t v; field_id := n; container := c;
     aria_invalid := None; aria_describedby := None; field_error := false;
     focusable := true; listening := true; defaultValue := [] |}.

(** The contact form with the given values, the focus outside its fields. *)
Definition contact_form (vname vemail vphone vservice vmessage : string) : Document :=
  {| fields := [ form_field 0 "name" "text" vname;
                 form_field 1 "email" "email" vemail;
                 form_field 2 "phone" "tel" vphone;
                 form_field 3 "service" "select-one" vservice;
                 form_field 4 "message" "textarea" vmessage ];
     containers := ∅;
     activeElement := None;
     success_message := None;
     reset_timers := 0 |}.

(** The field that has the focus shows no error when it is empty and
    listens. *)
Definition focused_empty_field_is_clear (doc : Document) : Prop :=
  forall i f,
    activeElement doc = Some i -> fields doc !! i = Some f ->
    listening f = true -> value (field f) = [] -> field_error f = false.

(** The acknowledgement beside the form and its timers. *)
Definition acknowledgement (doc : Document) : option SuccessElement * nat :=
  (success_message doc, reset_timers doc).

(** The field and its container show no error. *)
Definition shows_no_error (doc : Document) (f : FieldElement) : Prop :=
  field_error f = false /\ aria_invalid f = Some "false" /\
  aria_describedby f = None /\
  has_error (get_container doc (container f)) = false /\
  forall e, error_message (get_container doc (container f)) = Some e ->
    textContent e = "" /\ style_display e = "none".

(** What no function of the module changes on a field. *)
Definition static (f : FieldElement) : Field * string * nat * bool * bool :=
  (field f, field_id f, container f, focusable f, listening f).

(** No field-error class on a field that is not validated. *)
Definition no_stale_error (doc : Document) : Prop :=
  forall i f, fields doc !! i = Some f ->
    FIELD_RULES !! name (field f) = None -> field_error f = false.

End Dom.

(** ** throttle *)

Module Throttle.
Section Throttle.

(** What one call of the throttled function passes on: its [this] and its
    arguments. *)
Variable A : Type.

(** The [delay] argument of [throttle], in milliseconds. *)
Variable delay : Z.

(** Two clocks: [wall] is what [Date.now()] reads, the time of day, which
    can be set; [ticks] is the clock of the host's timers, which only goes
    forward. Then the timers of the host with the tick at which each is
    due, the variables [lastCall] and [timeoutId] of the closure, and the
    calls of [func] so far, each with the tick at which it was made. *)
Record state : Type := {
  wall : Z;
  ticks : Z;
  next_handle : nat;
  timers : gmap nat (Z * A);
  lastCall : Z;
  timeoutId : option nat;
  invoked : list (Z * A)
}.

(** [lastCall = Date.now(); func.apply(this, args)] *)
Definition call_func (a : A) (st : state) : state :=
  {| wall := wall st;
     ticks := ticks st;
     next_handle := next_handle st;
     timers := timers st;
     lastCall := wall st;
     timeoutId := timeoutId st;
     invoked := invoked st ++ [(ticks st, a)] |}.

(** [throttled(...args)]: the call goes through when [delay] has passed on
    the wall clock since [lastCall]; otherwise the timer of the closure is
    cleared and a new one is set for what is left of the delay. *)
Definition throttled (a : A) (st : state) : state :=
  let now := wall st in
  let timeSinceLastCall := (now - lastCall st)%Z in
  if (delay <=? timeSinceLastCall)%Z then call_func a st
  else
    {| wall := wall st;
       ticks := ticks st;
       next_handle := S (next_handle st);
       timers :=
         <[next_handle st := ((ticks st + (delay - timeSinceLastCall))%Z, a)]>
           (match timeoutId st with
            | Some h => delete h (timers st)
            | None => timers st
            end);
       lastCall := lastCall st;
       timeoutId := Some (next_handle st);
       invoked := invoked st |}.

(** The host runs the timer [h], which must be active and due. *)
Definition fire (h : nat) (st : state) : state :=
  match timers st !! h with
  | Some (due, a) =>
      if (due <=? ticks st)%Z
      then call_func a {| wall := wall st;
                          ticks := ticks st;
                          next_handle := next_handle st;
                          timers := delete h (timers st);
                          lastCall := lastCall st;
                          timeoutId := timeoutId st;
                          invoked := invoked st |}
      else st
  | None => st
  end.

(** Time passes: both clocks go forward by [dt]. *)
Definition advance (dt : nat) (st : state) : state :=
  {| wall := (wall st + Z.of_nat dt)%Z;
     ticks := (ticks st + Z.of_nat dt)%Z;
     next_handle := next_handle st;
     timers := timers st;
     lastCall := lastCall st;
     timeoutId := timeoutId st;
     invoked := invoked st |}.

(** The time of day is set to [t], forward or back; the timers are not
    touched. *)
Definition adjust (t : Z) (st : state) : state :=
  {| wall := t;
     ticks := ticks st;
     next_handle := next_handle st;
     timers := timers st;
     lastCall := lastCall st;
     timeoutId := timeoutId st;
     invoked := invoked st |}.

Inductive event : Type :=
| Call (a : A)
| Fire (h : nat)
| Advance (dt : nat)
| Adjust (t : Z).

Definition step (st : state) (e : event) : state :=
  match e with
  | Call a => throttled a st
  | Fire h => fire h st
  | Advance dt => advance dt st
  | Adjust t => adjust t st
  end.

Definition run (st : state) (es : list event) : state := foldl step st es.

(** The state right after [throttle(func, delay)], the two clocks reading
    [wall0] and [ticks0]. *)
Definition initial (wall0 ticks0 : Z) (h0 : nat) : state :=
  {| wall := wall0; ticks := ticks0; next_handle := h0; timers := ∅;
     lastCall := 0; timeoutId := None; invoked := [] |}.

Definition is_call (e : event) : bool :=
  match e with Call _ => true | _ => false end.



(** No timer is overdue: none of the active timers could already run. *)
Definition no_overdue_timer (st : state) : Prop :=
  forall h due a, timers st !! h = Some (due, a) -> (ticks st < due)%Z.

(** Every call of the throttled function in the trace comes while no timer
    is overdue: the host runs its timers on time. *)
Fixpoint punctual (st : state) (es : list event) : Prop :=
  match es with
  | [] => True
  | e :: es' =>
      (if is_call e then no_overdue_timer st else True) /\
      punctual (step st e) es'
  end.



End Throttle.
End Throttle.

(** ** The navigation module: the active link *)

Module ActiveLink.

(** A link of [elements.navLinks]: its [href] and its [aria-current]
    attribute, [None] when the link has none. *)
Record Link : Type := {
  href : string;
  aria_current : option string
}.

Definition setAttribute_aria_current (v : string) (l : Link) : Link :=
  {| href := href l; aria_current := Some v |}.

Definition removeAttribute_aria_current (l : Link) : Link :=
  {| href := href l; aria_current := None |}.

(** [state.activeSection] and the links. *)
Record state : Type := {
  activeSection : string;
  navLinks : list Link
}.

(** [s.substring(1)] *)
Definition substring_1 (s : string) : string :=
  match s with
  | EmptyString => EmptyString
  | String _ rest => rest
  end.

(** [updateActiveLink(activeLink)], for the link [i] of [navLinks] *)
Definition updateActiveLink (i : nat) (st : state) : state :=
  match navLinks st !! i with
  | None => st
  | Some activeLink =>
      let links :=
        <[i := setAttribute_aria_current "page" activeLink]>
          (map removeAttribute_aria_current (navLinks st)) in
      let targetId := substring_1 (href activeLink) in
      {| activeSection :=
           if bool_decide (targetId = "") then activeSection st else targetId;
         navLinks := links |}
  end.

Section Layout.

(** The numbers of the layout, with the operations of the host on them. *)
Variable number : Type.
Variable add : number -> number -> number.
Variable ge lt : number -> number -> bool.
Variable of_int : Z -> number.

(** A section of [elements.sections] *)
Record PageSection : Type := {
  id : string;
  offsetTop : number;
  offsetHeight : number
}.

(** [config.scrollOffset] *)
Definition scrollOffset : number := of_int 80.

(** The [forEach] of [updateActiveNavigation]: the last section that holds
    the scroll position gives [currentSection]. *)
Definition currentSection_of (scrollPosition : number)
    (sections : list PageSection) : option string :=
  foldl (fun currentSection section =>
           let sectionTop := offsetTop section in
           let sectionHeight := offsetHeight section in
           let sectionBottom := add sectionTop sectionHeight in
           if ge scrollPosition sectionTop && lt scrollPosition sectionBottom
           then Some (id section)
           else currentSection)
        None sections.

(** [updateActiveNavigation], with [elements.sections] and
    [window.pageYOffset] *)
Definition updateActiveNavigation (sections : list PageSection)
    (pageYOffset : number) (st : state) : state :=
  match sections with
  | [] => st
  | _ =>
      let scrollPosition := add (add pageYOffset scrollOffset) (of_int 100) in
      match currentSection_of scrollPosition sections with
      | Some currentSection =>
          if negb (bool_decide (currentSection = "")) &&
             negb (bool_decide (currentSection = activeSection st))
          then
            {| activeSection := currentSection;
               navLinks :=
                 map (fun link =>
                        let isActive :=
                          bool_decide
                            (href link = ("#" ++ currentSection)%string) in
                        if isActive
                        then setAttribute_aria_current "page" link
                        else removeAttribute_aria_current link)
                     (navLinks st) |}
          else st
      | None => st
      end
  end.

(** What changes the marks: the page settles after a scroll, or the timer
    of a click on the link [i] runs. *)
Inductive event : Type :=
| scrolled (sections : list PageSection) (pageYOffset : number)
| link_timer (i : nat).

Definition step (st : state) (e : event) : state :=
  match e with
  | scrolled sections pageYOffset =>
      updateActiveNavigation sections pageYOffset st
  | link_timer i => updateActiveLink i st
  end.

Definition run (st : state) (es : list event) : state := foldl step st es.

End Layout.

(** Every link that is marked as the current one points at the active
    section. *)
Definition marked_links_are_active (st : state) : Prop :=
  forall link, link ∈ navLinks st -> aria_current link <> None ->
    href link = ("#" ++ activeSection st)%string.

(** Every link has a fragment after its [#]: [handleNavLinkClick] goes on
    to [updateActiveLink] for no other. *)
Definition links_have_fragments (st : state) : Prop :=
  forall link, link ∈ navLinks st ->
    exists fragment, href link = String "#" fragment /\ fragment <> "".

End ActiveLink.

(** ** The navigation module: the mobile menu *)

Module Navigation.

(** [config.mobileBreakpoint] *)
Definition mobileBreakpoint : Z := 768.

(** The elements that are given the focus: the menu button, the focusable
    elements of the menu in document order, and the element that
    [document.querySelector] found for the href of a link of
    [elements.navLinks]. *)
Inductive Element : Type :=
| mobileMenuButton
| menu_item (i : nat)
| target_of (link : nat)
| elsewhere.

#[global] Instance Element_eq_dec : EqDecision Element.
Proof. solve_decision. Defined.

(** What the handlers read and write, once [createMobileMenuButton] has
    found the list of the navigation and made the button:
    [state.isMenuOpen], the attribute [aria-expanded] of the button, the
    class list of [elements.navMenu], [document.body.style.overflow], the
    calls of [focus()] so far, the links with [state.activeSection], and
    the timers that clicks on links have set and that have not run yet,
    each with its link. *)
Record state : Type := {
  isMenuOpen : bool;
  aria_expanded : string;
  classList : list string;
  overflow : string;
  focus_calls : list Element;
  links : ActiveLink.state;
  link_timers : list nat
}.

(** [String(b)] for a boolean *)
Definition String_of_bool (b : bool) : string :=
  if b then "true" else "false".

(** [classList.add(c)] *)
Definition classList_add (c : string) (l : list string) : list string :=
  if bool_decide (c ∈ l) then l else l ++ [c].

(** [classList.remove(c)] *)
Definition classList_remove (c : string) (l : list string) : list string :=
  filter (fun c' => c' <> c) l.

Definition focus (e : Element) (st : state) : state :=
  {| isMenuOpen := isMenuOpen st;
     aria_expanded := aria_expanded st;
     classList := classList st;
     overflow := overflow st;
     focus_calls := focus_calls st ++ [e];
     links := links st;
     link_timers := link_timers st |}.

Definition set_classList (l : list string) (st : state) : state :=
  {| isMenuOpen := isMenuOpen st;
     aria_expanded := aria_expanded st;
     classList := l;
     overflow := overflow st;
     focus_calls := focus_calls st;
     links := links st;
     link_timers := link_timers st |}.

Definition set_overflow (o : string) (st : state) : state :=
  {| isMenuOpen := isMenuOpen st;
     aria_expanded := aria_expanded st;
     classList := classList st;
     overflow := o;
     focus_calls := focus_calls st;
     links := links st;
     link_timers := link_timers st |}.

(** [trapFocus(element, event)] on the menu, which has [focusable]
    focusable elements: [event] is [None] when the function is called
    without one, and else the [shiftKey] of the event with
    [document.activeElement]. *)
Definition trapFocus (focusable : nat) (event : option (bool * Element))
    (st : state) : state :=
  if (focusable =? 0)%nat then st
  else
    let firstElement := menu_item 0 in
    let lastElement := menu_item (focusable - 1) in
    match event with
    | None => focus firstElement st
    | Some (shiftKey, activeElement) =>
        if shiftKey && bool_decide (activeElement = firstElement)
        then focus lastElement st
        else if negb shiftKey && bool_decide (activeElement = lastElement)
        then focus firstElement st
        else st
    end.

Definition handleMobileMenuToggle (focusable : nat) (st : state) : state :=
  let isMenuOpen' := negb (isMenuOpen st) in
  let st1 :=
    {| isMenuOpen := isMenuOpen';
       aria_expanded := String_of_bool isMenuOpen';
       classList := classList st;
       overflow := overflow st;
       focus_calls := focus_calls st;
       links := links st;
       link_timers := link_timers st |} in
  let st2 :=
    if isMenuOpen'
    then trapFocus focusable None
           (set_classList (classList_add "menu-open" (classList st1)) st1)
    else focus mobileMenuButton
           (set_classList (classList_remove "menu-open" (classList st1)) st1) in
  set_overflow (if isMenuOpen' then "hidden" else "") st2.

Definition closeMobileMenu (st : state) : state :=
  if negb (isMenuOpen st) then st
  else
    {| isMenuOpen := false;
       aria_expanded := "false";
       classList := classList_remove "menu-open" (classList st);
       overflow := "";
       focus_calls := focus_calls st;
       links := links st;
       link_timers := link_timers st |}.

(** [handleResize], with [window.innerWidth] *)
Definition handleResize (innerWidth : Z) (st : state) : state :=
  if (mobileBreakpoint <? innerWidth)%Z && isMenuOpen st
  then closeMobileMenu st
  else st.

(** [handleKeyboardNavigation], with [event.key], [event.shiftKey] and
    [document.activeElement] *)
Definition handleKeyboardNavigation (focusable : nat) (key : string)
    (shiftKey : bool) (activeElement : Element) (st : state) : state :=
  let st1 :=
    if bool_decide (key = "Escape") && isMenuOpen st
    then focus mobileMenuButton (closeMobileMenu st)
    else st in
  if bool_decide (key = "Tab") && isMenuOpen st1
  then trapFocus focusable (Some (shiftKey, activeElement)) st1
  else st1.

(** [handleOutsideClick]: [inside_menu] is
    [elements.navMenu.contains(event.target)], and [on_button] is
    [elements.mobileMenuButton.contains(event.target)]. *)
Definition handleOutsideClick (inside_menu on_button : bool) (st : state)
  : state :=
  if negb (isMenuOpen st) then st
  else if negb inside_menu && negb on_button then closeMobileMenu st
  else st.

(** [targetId.startsWith('#')], which is false of the empty string too *)
Definition startsWith_hash (s : string) : bool :=
  match s with
  | String c _ => bool_decide (c = "#"%char)
  | EmptyString => false
  end.

(** [setTimeout(() => { updateActiveLink(link); targetElement.focus(...) },
    config.scrollDuration)] *)
Definition setTimeout_link (link : nat) (st : state) : state :=
  {| isMenuOpen := isMenuOpen st;
     aria_expanded := aria_expanded st;
     classList := classList st;
     overflow := overflow st;
     focus_calls := focus_calls st;
     links := links st;
     link_timers := link_timers st ++ [link] |}.

(** [handleNavLinkClick] on the link [link] of [elements.navLinks]: [found]
    is whether [document.querySelector(targetId)] gave an element; when it
    gave none, or refused the selector, the handler ends there.
    [smoothScrollTo] moves the window, which is not followed here. *)
Definition handleNavLinkClick (link : nat) (found : bool) (st : state)
  : state :=
  match ActiveLink.navLinks (links st) !! link with
  | None => st
  | Some l =>
      let targetId := ActiveLink.href l in
      if negb (startsWith_hash targetId) then st
      else if negb found then st
      else setTimeout_link link (closeMobileMenu st)
  end.

(** The callback of the timer at position [k] of the pending ones:
    [updateActiveLink(link); targetElement.focus({ preventScroll: true })] *)
Definition link_timer_callback (k : nat) (st : state) : state :=
  match link_timers st !! k with
  | None => st
  | Some link =>
      focus (target_of link)
        {| isMenuOpen := isMenuOpen st;
           aria_expanded := aria_expanded st;
           classList := classList st;
           overflow := overflow st;
           focus_calls := focus_calls st;
           links := ActiveLink.updateActiveLink link (links st);
           link_timers := delete k (link_timers st) |}
  end.

(** The events the module listens to. A click on the button stops at the
    button ([event.stopPropagation()]); a click on a link of the navigation
    runs the listener of the link and then the one of the document. *)
Inductive event : Type :=
| click_button (focusable : nat)
| click_link (link : nat) (found inside_menu : bool)
| click (inside_menu on_button : bool)
| resize (innerWidth : Z)
| keydown (focusable : nat) (key : string) (shiftKey : bool)
    (activeElement : Element)
| link_timer (k : nat).

Definition step (st : state) (e : event) : state :=
  match e with
  | click_button focusable => handleMobileMenuToggle focusable st
  | click_link link found inside_menu =>
      handleOutsideClick inside_menu false (handleNavLinkClick link found st)
  | click inside_menu on_button => handleOutsideClick inside_menu on_button st
  | resize innerWidth => handleResize innerWidth st
  | keydown focusable key shiftKey activeElement =>
      handleKeyboardNavigation focusable key shiftKey activeElement st
  | link_timer k => link_timer_callback k st
  end.

Definition run (st : state) (es : list event) : state := foldl step st es.

(** The three displays of the menu say what [state.isMenuOpen] says. *)
Definition displays_agree (st : state) : Prop :=
  aria_expanded st = String_of_bool (isMenuOpen st) /\
  ("menu-open" ∈ classList st <-> isMenuOpen st = true) /\
  overflow st = (if isMenuOpen st then "hidden" else "").

Definition is_click_button (e : event) : bool :=
  match e with click_button _ => true | _ => false end.

End Navigation.

(** ** The performance module: lazy loading and [optimizeImages] *)

Module Performance.

(** An [img] element: its attributes, its class list, and whether
    [loadImage] has given it its [onload] and [onerror] handlers. *)
Record Image : Type := {
  attributes : gmap string string;
  classList : list string;
  onload : bool
}.

(** The images of the document in document order, [lazyLoadState], and the
    targets of [lazyLoadState.observer]. *)
Record state : Type := {
  images : list Image;
  loadedImages : gset nat;
  pendingImages : gset nat;
  observed : gset nat
}.

Definition set_images (imgs : list Image) (st : state) : state :=
  {| images := imgs;
     loadedImages := loadedImages st;
     pendingImages := pendingImages st;
     observed := observed st |}.

(** [!v] for the value of [getAttribute]: [null] and the empty string. *)
Definition falsy (v : option string) : bool :=
  match v with
  | None => true
  | Some s => bool_decide (s = "")
  end.

(** [if (v) { img[key] = v; }] *)
Definition assign_if (key : string) (v : option string)
    (attrs : gmap string string) : gmap string string :=
  match v with
  | Some s => if falsy v then attrs else <[key := s]> attrs
  | None => attrs
  end.

Definition classList_add (c : string) (l : list string) : list string :=
  if bool_decide (c ∈ l) then l else l ++ [c].

Definition loadImage (i : nat) (st : state) : state :=
  if bool_decide (i ∈ loadedImages st) then st
  else
    match images st !! i with
    | None => st
    | Some img =>
        let dataSrc := attributes img !! "data-src" in
        let dataSrcset := attributes img !! "data-srcset" in
        if falsy dataSrc && falsy dataSrcset then st
        else
          set_images
            (<[i := {| attributes :=
                         assign_if "src" dataSrc
                           (assign_if "srcset" dataSrcset (attributes img));
                       classList := classList img;
                       onload := true |}]> (images st))
            st
    end.

(** The [onload] handler that [loadImage] gives the image. *)
Definition img_onload (i : nat) (st : state) : state :=
  match images st !! i with
  | Some img =>
      if onload img
      then {| images :=
                <[i := {| attributes := attributes img;
                          classList := classList_add "loaded" (classList img);
                          onload := onload img |}]> (images st);
              loadedImages := {[i]} ∪ loadedImages st;
              pendingImages := pendingImages st;
              observed := observed st |}
      else st
  | None => st
  end.

(** The [onerror] handler that [loadImage] gives the image. *)
Definition img_onerror (i : nat) (st : state) : state :=
  match images st !! i with
  | Some img =>
      if onload img
      then set_images
             (<[i := {| attributes := attributes img;
                        classList := classList_add "load-error" (classList img);
                        onload := onload img |}]> (images st))
             st
      else st
  | None => st
  end.

(** [handleIntersection(entries, observer)]: an entry is its target and
    its [isIntersecting]. *)
Definition handleIntersection (entries : list (nat * bool)) (st : state)
  : state :=
  foldl (fun (st : state) (entry : nat * bool) =>
           if snd entry then
             let img := fst entry in
             let st1 := loadImage img st in
             {| images := images st1;
                loadedImages := loadedImages st1;
                pendingImages := pendingImages st1 ∖ {[img]};
                observed := observed st1 ∖ {[img]} |}
           else st)
        st entries.

(** [document.querySelectorAll('img[data-src], img[data-srcset]')] *)
Definition lazy_image (img : Image) : bool :=
  bool_decide (is_Some (attributes img !! "data-src")) ||
  bool_decide (is_Some (attributes img !! "data-srcset")).

Fixpoint select_from (p : Image -> bool) (i : nat) (imgs : list Image)
  : list nat :=
  match imgs with
  | [] => []
  | img :: rest =>
      if p img then i :: select_from p (S i) rest
      else select_from p (S i) rest
  end.

Definition select (p : Image -> bool) (imgs : list Image) : list nat :=
  select_from p 0 imgs.

(** [initializeLazyLoading]: [supported] says whether
    [initializeLazyLoadObserver] gave an observer. *)
Definition initializeLazyLoading (supported : bool) (st : state) : state :=
  match select lazy_image (images st) with
  | [] => st
  | selected =>
      if negb supported
      then foldl (fun st img => loadImage img st) st selected
      else foldl (fun (st : state) (img : nat) =>
                    {| images := images st;
                       loadedImages := loadedImages st;
                       pendingImages := {[img]} ∪ pendingImages st;
                       observed := {[img]} ∪ observed st |})
                 st selected
  end.

(** [document.querySelectorAll('img:not([data-optimized])')] *)
Definition not_optimized (img : Image) : bool :=
  negb (bool_decide (is_Some (attributes img !! "data-optimized"))).

(** The callback of the [forEach] of [optimizeImages]. *)
Definition optimize (img : Image) : Image :=
  let attrs1 :=
    if bool_decide (is_Some (attributes img !! "loading"))
    then attributes img
    else <["loading" := "lazy"]> (attributes img) in
  let attrs2 :=
    if bool_decide (is_Some (attrs1 !! "decoding"))
    then attrs1
    else <["decoding" := "async"]> attrs1 in
  {| attributes := <["data-optimized" := "true"]> attrs2;
     classList := classList img;
     onload := onload img |}.

Definition optimizeImages (st : state) : state :=
  set_images
    (map (fun img => if not_optimized img then optimize img else img)
         (images st))
    st.

(** The page as the module finds it: no image is loaded, pending or
    observed yet. *)
Definition page (imgs : list Image) : state :=
  {| images := imgs; loadedImages := ∅; pendingImages := ∅; observed := ∅ |}.

Inductive event : Type :=
| intersection (entries : list (nat * bool))
| loaded (i : nat)
| failed (i : nat)
| optimized.

Definition step (st : state) (e : event) : state :=
  match e with
  | intersection entries => handleIntersection entries st
  | loaded i => img_onload i st
  | failed i => img_onerror i st
  | optimized => optimizeImages st
  end.

Definition run (st : state) (es : list event) : state := foldl step st es.

(** [loadImage] has asked for the image [i]: the handlers are set, and
    [src] and [srcset] have the values of [data-src] and [data-srcset]
    that are not empty. *)
Definition requested (i : nat) (st : state) : Prop :=
  exists img,
    images st !! i = Some img /\
    onload img = true /\
    (falsy (attributes img !! "data-src") = false ->
     attributes img !! "src" = attributes img !! "data-src") /\
    (falsy (attributes img !! "data-srcset") = false ->
     attributes img !! "srcset" = attributes img !! "data-srcset").

(** What the handlers keep of the image [i], whose [data-src] and
    [data-srcset] are [dataSrc] and [dataSrcset]. *)
Definition tracked (i : nat) (dataSrc dataSrcset : option string)
    (st : state) : Prop :=
  exists img,
    images st !! i = Some img /\
    attributes img !! "data-src" = dataSrc /\
    attributes img !! "data-srcset" = dataSrcset /\
    (onload img = true ->
     (falsy dataSrc = false -> attributes img !! "src" = dataSrc) /\
     (falsy dataSrcset = false -> attributes img !! "srcset" = dataSrcset)) /\
    (i ∈ loadedImages st -> onload img = true).

Definition has_handlers (i : nat) (st : state) : Prop :=
  exists img, images st !! i = Some img /\ onload img = true.

Definition settled (i : nat) (dataSrc dataSrcset : option string)
    (st : state) : Prop :=
  i ∈ pendingImages st \/ has_handlers i st \/
  (falsy dataSrc = true /\ falsy dataSrcset = true).

End Performance.

(** ** The performance module: [getRating] *)

Module Rating.

(** A JavaScript number, as far as [<=] can tell: [NaN], the infinities, and
    the finite values, each of which is a rational number. *)
Inductive number : Type :=
| NaN
| neg_infinity
| finite (q : QArith_base.Q)
| pos_infinity.

(** [a <= b] *)
Definition le (a b : number) : bool :=
  match a, b with
  | NaN, _ | _, NaN => false
  | neg_infinity, _ => true
  | _, pos_infinity => true
  | finite x, finite y => QArith_base.Qle_bool x y
  | finite _, neg_infinity => false
  | pos_infinity, _ => false
  end.

Record Thresholds : Type := {
  good : number;
  needsImprovement : number
}.

Definition of_Z (z : Z) : number := finite (QArith_base.Qmake z 1).

(** [WEB_VITALS_THRESHOLDS]; the literal [0.1] is the double
    3602879701896397 / 2^55. *)
Module WEB_VITALS_THRESHOLDS.
Definition LCP : Thresholds :=
  {| good := of_Z 2500; needsImprovement := of_Z 4000 |}.
Definition FID : Thresholds :=
  {| good := of_Z 100; needsImprovement := of_Z 300 |}.
Definition CLS : Thresholds :=
  {| good := finite (QArith_base.Qmake 3602879701896397 36028797018963968);
     needsImprovement := finite (QArith_base.Qmake 1 4) |}.
Definition FCP : Thresholds :=
  {| good := of_Z 1800; needsImprovement := of_Z 3000 |}.
Definition TTFB : Thresholds :=
  {| good := of_Z 800; needsImprovement := of_Z 1800 |}.
End WEB_VITALS_THRESHOLDS.

Definition getRating (value : number) (thresholds : Thresholds) : string :=
  if le value (good thresholds) then "good"
  else if le value (needsImprovement thresholds) then "needs-improvement"
  else "poor".

(** How bad a rating is. *)
Definition severity (rating : string) : nat :=
  if bool_decide (rating = "good") then 0
  else if bool_decide (rating = "needs-improvement") then 1
  else 2.

End Rating.

(** ** validateField on any object *)

(** [validateField] is exported and checks nothing of what it is given. This
    is the function of the source on any object passed as [rules], with the
    exception of each read that can throw. The field is a form control: its
    [value] and its [type] are strings. *)
Module Raw.

Inductive Error : Type :=
| TypeError.

(** How a call ends: it returns a value, or it throws. *)
Inductive Completion (A : Type) : Type :=
| Normal (a : A)
| Throw (e : Error).

Arguments Normal {A} a.
Arguments Throw {A} e.

(** What a truthy [pattern] property can hold: a regular expression, or
    another value, which has no [test] method. *)
Inductive PatternValue : Type :=
| RegExpObject (p : RegExp.t)
| not_a_RegExp.

(** An object passed as [rules]. A [pattern] that is absent or falsy is
    [None]; an [errorMessages] that is [undefined] or [null] is [None]. *)
Record RulesObject : Type := {
  required : bool;
  pattern : option PatternValue;
  minLength : option Z;
  maxLength : option Z;
  errorMessages : option (gmap string string)
}.

(** [rules.errorMessages[kind]]: the read of a property of [undefined] or
    [null] throws. *)
Definition get_message (rules : RulesObject) (kind : string)
  : Completion ErrorValue :=
  match errorMessages rules with
  | Some messages =>
      Normal (match messages !! kind with
              | Some s => Message s
              | None => Undefined
              end)
  | None => Throw TypeError
  end.

(** [return { isValid: false, error: rules.errorMessages[kind] }] *)
Definition invalid (rules : RulesObject) (kind : string) (after : RulesObject)
  : Completion (ValidationResult * RulesObject) :=
  match get_message rules kind with
  | Normal e => Normal ({| isValid := false; error := e |}, after)
  | Throw e => Throw e
  end.

Definition with_pattern (rules : RulesObject) (p : RegExp.t) : RulesObject :=
  {| required := required rules; pattern := Some (RegExpObject p);
     minLength := minLength rules; maxLength := maxLength rules;
     errorMessages := errorMessages rules |}.

(** [rules.pattern && !rules.pattern.test(value)]: the call of a [test] that
    is not a function throws. *)
Definition pattern_fails (rules : RulesObject) (value : jsstring)
  : Completion (bool * RulesObject) :=
  match pattern rules with
  | Some (RegExpObject p) =>
      let (matched, p') := RegExp.test p value in
      Normal (negb matched, with_pattern rules p')
  | Some not_a_RegExp => Throw TypeError
  | None => Normal (false, rules)
  end.

Definition too_short (fieldType : string) (value : jsstring)
    (rules : RulesObject) : bool :=
  match minLength rules with
  | Some min => (effective_length fieldType value <? min)%Z
  | None => false
  end.

Definition too_long (fieldType : string) (value : jsstring)
    (rules : RulesObject) : bool :=
  match maxLength rules with
  | Some max => (effective_length fieldType value >? max)%Z
  | None => false
  end.

(** [validateField(field, rules)], where [rules] is [None] when the argument
    is [undefined] or [null]: the read of [rules.required] throws then. *)
Definition validateField (field : Field) (rules : option RulesObject)
  : Completion (ValidationResult * RulesObject) :=
  match rules with
  | None => Throw TypeError
  | Some rules =>
      let value := trim (value field) in
      let fieldType := type field in
      if required rules && is_empty value
      then invalid rules "required" rules
      else if is_empty value && negb (required rules)
      then Normal (valid, rules)
      else
        match pattern_fails rules value with
        | Throw e => Throw e
        | Normal (mismatch, rules') =>
            if mismatch then invalid rules "pattern" rules'
            else if too_short fieldType value rules
            then invalid rules "minLength" rules'
            else if too_long fieldType value rules
            then invalid rules "maxLength" rules'
            else Normal (valid, rules')
        end
  end.

End Raw.

(** A rule set of the data model, as the object that is passed: its
    [errorMessages] is a mapping and its pattern, if any, a regular
    expression. *)
Definition as_object (rules : FieldRuleSet) : Raw.RulesObject :=
  {| Raw.required := required rules;
     Raw.pattern := option_map Raw.RegExpObject (pattern rules);
     Raw.minLength := minLength rules;
     Raw.maxLength := maxLength rules;
     Raw.errorMessages := Some (errorMessages rules) |}.

(** A required object with no [errorMessages] at all: it has no pattern and
    no bound, so that nothing is missing of what the message invariant asks
    for, and it is no rule set of the data model. *)
Definition required_without_errorMessages : Raw.RulesObject :=
  {| Raw.required := true;
     Raw.pattern := None;
     Raw.minLength := None;
     Raw.maxLength := None;
     Raw.errorMessages := None |}.

(** The check [kind] fails on the field: the value is blank and required,
    or it is not blank and the pattern rejects it, or its length is under
    the minimum or over the maximum. *)
Definition violates (field : Field) (rules : FieldRuleSet) (kind : string)
  : Prop :=
  (kind = "required" /\ required rules = true /\ trim (value field) = []) \/
  (trim (value field) <> [] /\
   ((kind = "pattern" /\ ~ pattern_accepts rules (trim (value field))) \/
    (kind = "minLength" /\
     below_minimum rules
       (effective_length (type field) (trim (value field))) = true) \/
    (kind = "maxLength" /\
     above_maximum rules
       (effective_length (type field) (trim (value field))) = true))).

(** ** Library facts *)

Lemma drop_while_all (p : code_unit -> bool) (s : jsstring) :
  Forall (fun c => p c = true) s -> drop_while p s = [].
Proof.
  induction 1 as [|c s Hc _ IH]; simpl; [reflexivity|].
  rewrite Hc. exact IH.
Qed.

Lemma trim_whitespace_only (s : jsstring) : whitespace_only s -> trim s = [].
Proof.
  intros H. unfold trim.
  rewrite (drop_while_all _ _ H). reflexivity.
Qed.

Lemma strip_non_digits_length (s : jsstring) :
  length (strip_non_digits s) = digit_count s.
Proof.
  unfold strip_non_digits.
  induction s as [|c s IH]; [reflexivity|].
  rewrite filter_cons. simpl.
  destruct (is_digit c) eqn:Hc.
  - rewrite decide_True by reflexivity. simpl. now rewrite IH.
  - rewrite decide_False by discriminate. exact IH.
Qed.

(** *** The quantifier counter *)

Lemma RepeatMatcher_positional (m : RegExp.Matcher) :
  positional m ->
  forall max min : nat,
    positional (fun x rest c => RegExp.RepeatMatcher m c max min x rest).
Proof.
  intros Hm max.
  induction max as [|max IH]; intros min x rest c c' Hc; simpl.
  - specialize (Hc [] rest eq_refl). simpl in Hc.
    now rewrite Nat.add_0_r in Hc.
  - assert (Hhere : c x rest = c' x rest).
    { specialize (Hc [] rest eq_refl). simpl in Hc.
      now rewrite Nat.add_0_r in Hc. }
    match goal with
    | |- ?lhs = ?rhs =>
        match lhs with
        | context [m x rest ?d] =>
            match rhs with
            | context [m x rest ?d'] => assert (Hd : m x rest d = m x rest d')
            end
        end
    end.
    { apply Hm. intros pre rest' Hpre.
      destruct ((min =? 0)%nat && (x + length pre =? x)%nat); [reflexivity|].
      apply IH. intros pre2 rest'' Hpre2.
      specialize (Hc (pre ++ pre2) rest'').
      rewrite length_app, Nat.add_assoc in Hc. apply Hc.
      rewrite Hpre, Hpre2. now rewrite app_assoc. }
    rewrite Hd, Hhere. reflexivity.
Qed.

Lemma matcher_positional (r : regex) : positional (RegExp.matcher r).
Proof.
  induction r as [|negated ranges|r1 IH1 r2 IH2|r1 IH1 r2 IH2|r IH min max| |];
    intros x rest c c' Hc; simpl.
  - specialize (Hc [] rest eq_refl). simpl in Hc. now rewrite Nat.add_0_r in Hc.
  - destruct rest as [|ch rest']; [reflexivity|].
    destruct (RegExp.class_matches negated ranges ch); [|reflexivity].
    specialize (Hc [ch] rest' eq_refl). simpl in Hc.
    now rewrite Nat.add_1_r in Hc.
  - apply IH1. intros pre rest' Hpre. apply IH2. intros pre2 rest'' Hpre2.
    specialize (Hc (pre ++ pre2) rest'').
    rewrite length_app, Nat.add_assoc in Hc. apply Hc.
    rewrite Hpre, Hpre2. now rewrite app_assoc.
  - now rewrite (IH1 x rest c c' Hc), (IH2 x rest c c' Hc).
  - exact (RepeatMatcher_positional _ IH _ min x rest c c' Hc).
  - destruct (x =? 0)%nat; [|reflexivity].
    specialize (Hc [] rest eq_refl). simpl in Hc. now rewrite Nat.add_0_r in Hc.
  - destruct rest; [|reflexivity].
    specialize (Hc [] [] eq_refl). simpl in Hc. now rewrite Nat.add_0_r in Hc.
Qed.

Lemma RepeatMatcher_strict (m : RegExp.Matcher) :
  positional m -> strict m ->
  forall max min : nat,
    strict (fun x rest c => RegExp.RepeatMatcher m c max min x rest).
Proof.
  intros Hpos Hm max.
  induction max as [|max IH]; intros min x rest; simpl; [reflexivity|].
  match goal with
  | |- context [m x rest ?d] => assert (Hd : m x rest d = None)
  end.
  { transitivity (m x rest (fun _ _ => None)); [|apply Hm].
    apply Hpos. intros pre rest' _.
    destruct ((min =? 0)%nat && (x + length pre =? x)%nat); [reflexivity|].
    apply IH. }
  rewrite Hd. now destruct (min =? 0)%nat.
Qed.

Lemma matcher_strict (r : regex) : strict (RegExp.matcher r).
Proof.
  induction r as [|negated ranges|r1 IH1 r2 IH2|r1 IH1 r2 IH2|r IH min max| |];
    intros x rest; simpl.
  - reflexivity.
  - destruct rest as [|ch rest']; [reflexivity|].
    now destruct (RegExp.class_matches negated ranges ch).
  - transitivity (RegExp.matcher r1 x rest (fun _ _ => None)); [|apply IH1].
    apply matcher_positional. intros pre rest' _. apply IH2.
  - now rewrite IH1, IH2.
  - exact (RepeatMatcher_strict _ (matcher_positional r) IH _ min x rest).
  - now destruct (x =? 0)%nat.
  - now destruct rest.
Qed.

(** Once the counter covers [min + length rest], one more unit changes
    nothing. *)
Lemma RepeatMatcher_more (m : RegExp.Matcher) (c : RegExp.Continuation) :
  positional m -> strict m ->
  forall (max min x : nat) (rest : list N),
    (min + length rest <= max)%nat ->
    RegExp.RepeatMatcher m c (S max) min x rest
      = RegExp.RepeatMatcher m c max min x rest.
Proof.
  intros Hpos Hstrict max.
  induction max as [|max IH]; intros min x rest Hle.
  - assert (min = 0%nat) as -> by lia.
    destruct rest as [|ch rest]; [|simpl in Hle; lia].
    simpl.
    match goal with
    | |- context [m x [] ?d] => assert (Hd : m x [] d = None)
    end.
    { transitivity (m x [] (fun _ _ => None)); [|apply Hstrict].
      apply Hpos. intros pre rest' Hpre.
      destruct pre; [|discriminate Hpre].
      simpl. now rewrite Nat.add_0_r, Nat.eqb_refl. }
    now rewrite Hd.
  - change (RegExp.RepeatMatcher m c (S (S max)) min x rest) with
      (let d : RegExp.Continuation := fun y rest' =>
         if (min =? 0)%nat && (y =? x)%nat then None
         else RegExp.RepeatMatcher m c (S max) (pred min) y rest' in
       if (min =? 0)%nat then
         match m x rest d with Some e => Some e | None => c x rest end
       else m x rest d).
    change (RegExp.RepeatMatcher m c (S max) min x rest) with
      (let d : RegExp.Continuation := fun y rest' =>
         if (min =? 0)%nat && (y =? x)%nat then None
         else RegExp.RepeatMatcher m c max (pred min) y rest' in
       if (min =? 0)%nat then
         match m x rest d with Some e => Some e | None => c x rest end
       else m x rest d).
    cbv zeta.
    match goal with
    | |- ?lhs = ?rhs =>
        match lhs with
        | context [m x rest ?d] =>
            match rhs with
            | context [m x rest ?d'] => assert (Hd : m x rest d = m x rest d')
            end
        end
    end.
    { apply Hpos. intros pre rest' Hpre.
      destruct ((min =? 0)%nat && (x + length pre =? x)%nat) eqn:Hcond;
        [reflexivity|].
      apply IH. subst rest. rewrite length_app in Hle.
      apply andb_false_iff in Hcond. destruct Hcond as [Hmin|Hmove].
      - apply Nat.eqb_neq in Hmin. lia.
      - apply Nat.eqb_neq in Hmove. lia. }
    rewrite Hd. reflexivity.
Qed.

(** The counter of an unbounded quantifier never runs out: every counter
    from [min + length rest] on gives the result of [matcher]. *)
Lemma RepeatMatcher_unbounded (r : regex) (c : RegExp.Continuation)
    (min x : nat) (rest : list N) (extra : nat) :
  RegExp.RepeatMatcher (RegExp.matcher r) c (min + length rest + extra) min x rest
    = RegExp.matcher (RegExp.Quantified r min None) x rest c.
Proof.
  induction extra as [|extra IH]; simpl.
  - now rewrite Nat.add_0_r.
  - rewrite Nat.add_succ_r.
    rewrite (RepeatMatcher_more _ c (matcher_positional r) (matcher_strict r))
      by lia.
    exact IH.
Qed.

Lemma test_flagless (R : RegExp.t) (s : jsstring) :
  RegExp.global R = false -> RegExp.sticky R = false ->
  snd (RegExp.test R s) = R.
Proof.
  intros Hg Hy. unfold RegExp.test. rewrite Hg, Hy. cbn [orb].
  destruct (RegExp.search _ _ _ _ _); reflexivity.
Qed.

Lemma with_pattern_same (rules : FieldRuleSet) (p : RegExp.t) :
  pattern rules = Some p -> with_pattern rules p = rules.
Proof.
  destruct rules as [req pat lo hi msgs]. simpl. intros ->. reflexivity.
Qed.

(** ** The three paths of validateField *)

Lemma validateField_required_empty (field : Field) (rules : FieldRuleSet) :
  required rules = true -> trim (value field) = [] ->
  validateField field rules = (invalid rules "required", rules).
Proof.
  intros Hreq Hv. unfold validateField. rewrite Hreq, Hv. reflexivity.
Qed.

Lemma validateField_optional_empty (field : Field) (rules : FieldRuleSet) :
  required rules = false -> trim (value field) = [] ->
  validateField field rules = (valid, rules).
Proof.
  intros Hreq Hv. unfold validateField. rewrite Hreq, Hv. reflexivity.
Qed.

Lemma validateField_nonempty (field : Field) (rules : FieldRuleSet) :
  trim (value field) <> [] ->
  validateField field rules =
    (if fst (pattern_fails rules (trim (value field)))
     then invalid rules "pattern"
     else verdict_for_length rules
            (effective_length (type field) (trim (value field))),
     snd (pattern_fails rules (trim (value field)))).
Proof.
  intros Hv. unfold validateField.
  destruct (trim (value field)) as [|c v] eqn:E; [congruence|].
  simpl is_empty. rewrite andb_false_r. simpl andb. cbv iota.
  destruct (pattern_fails rules (c :: v)) as [[|] rules']; [reflexivity|].
  unfold verdict_for_length, below_minimum, above_maximum, too_short, too_long.
  simpl fst. simpl snd. cbv iota.
  destruct (minLength rules) as [lo|], (maxLength rules) as [hi|];
    rewrite ?Z.gtb_ltb;
    repeat match goal with
           | |- context [(?a <? ?b)%Z] => destruct (a <? b)%Z
           end;
    reflexivity.
Qed.

Lemma pattern_fails_rejected (rules : FieldRuleSet) (p : RegExp.t) (v : jsstring) :
  pattern rules = Some p -> fst (RegExp.test p v) = false ->
  fst (pattern_fails rules v) = true.
Proof.
  intros Hp Hrej. unfold pattern_fails. rewrite Hp.
  destruct (RegExp.test p v) as [matched p']. simpl in *. now subst.
Qed.

Lemma pattern_fails_accepted (rules : FieldRuleSet) (v : jsstring) :
  pattern_accepts rules v -> fst (pattern_fails rules v) = false.
Proof.
  unfold pattern_accepts, pattern_fails.
  destruct (pattern rules) as [p|]; [|reflexivity].
  destruct (RegExp.test p v) as [matched p']. simpl. now intros ->.
Qed.

Lemma pattern_fails_flagless (rules : FieldRuleSet) (v : jsstring) :
  flagless_pattern rules -> snd (pattern_fails rules v) = rules.
Proof.
  unfold flagless_pattern, pattern_fails.
  destruct (pattern rules) as [p|] eqn:Hp; [|reflexivity].
  intros [Hg Hy].
  pose proof (test_flagless p v Hg Hy) as Hsame.
  destruct (RegExp.test p v) as [matched p']. simpl in *. subst p'.
  now apply with_pattern_same.
Qed.

(** ** Properties of validateField *)

(** C1: the scenario says that the value "user@example" in an email field
    fails with "Please enter a valid email address". The EMAIL pattern makes
    every dot-separated label after the first optional, so the value matches,
    its 12 characters are within the maximum of 254, and the result is the
    valid one. *)
Theorem email_without_tld_is_accepted :
  fst (RegExp.test VALIDATION_PATTERNS.EMAIL (str "user@example")) = true /\
  validateField (field_of "email" "email" "user@example") email_rules
    = (valid, email_rules) /\
  fst (validateField (field_of "email" "email" "user@example") email_rules)
    <> {| isValid := false; error := Message ERROR_MESSAGES.EMAIL_INVALID |}.
Proof.
  split; [vm_compute; reflexivity|].
  split; [vm_compute; reflexivity|].
  vm_compute. discriminate.
Qed.

(** C3: for a rule set with required = true and a value that is empty or
    white space only, validateField returns the invalid result that carries
    the rule set's "required" message, whatever the pattern, minLength and
    maxLength rules are. *)
Theorem required_violation_on_blank_value (field : Field) (rules : FieldRuleSet) :
  required rules = true ->
  whitespace_only (value field) ->
  validateField field rules = (invalid rules "required", rules) /\
  isValid (fst (validateField field rules)) = false /\
  forall msg, errorMessages rules !! "required" = Some msg ->
    error (fst (validateField field rules)) = Message msg.
Proof.
  intros Hreq Hws.
  rewrite (validateField_required_empty field rules Hreq (trim_whitespace_only _ Hws)).
  split; [reflexivity|]. split; [reflexivity|].
  intros msg Hmsg. simpl. unfold get_message. rewrite Hmsg. reflexivity.
Qed.

Lemma required_violation_on_blank_value_witness :
  required name_rules = true /\
  whitespace_only (value (field_of "name" "text" "   ")) /\
  error (fst (validateField (field_of "name" "text" "   ") name_rules))
    = Message "This field is required".
Proof.
  split; [reflexivity|].
  assert (Hws : whitespace_only (value (field_of "name" "text" "   "))).
  { repeat constructor. }
  split; [exact Hws|].
  apply (required_violation_on_blank_value (field_of "name" "text" "   ")
           name_rules eq_refl Hws).
  vm_compute. reflexivity.
Defined.

(** C6: for a rule set with required = false and a value whose trimmed form
    is empty, validateField returns the valid result with no error, whatever
    the pattern, minLength and maxLength rules are. *)
Theorem optional_empty_value_passes (field : Field) (rules : FieldRuleSet) :
  required rules = false ->
  trim (value field) = [] ->
  validateField field rules = ({| isValid := true; error := Null |}, rules).
Proof.
  intros Hreq Hv. exact (validateField_optional_empty field rules Hreq Hv).
Qed.

Lemma optional_empty_value_passes_witness :
  required global_pattern_rules = false /\
  trim (value (field_of "optional" "text" "  ")) = [] /\
  validateField (field_of "optional" "text" "  ") global_pattern_rules
    = ({| isValid := true; error := Null |}, global_pattern_rules).
Proof.
  split; [reflexivity|]. split; [reflexivity|].
  apply optional_empty_value_passes; reflexivity.
Defined.

(** C2: for a rule set with a pattern and both length bounds, and a value
    whose trimmed form is not empty and is rejected by the pattern,
    validateField returns the invalid result with the "pattern" entry of
    errorMessages, which is the pattern message when the rule set has one.
    The length checks are not reached: the result is the same for every rule
    set that differs only in its bounds, whether or not the effective length
    violates them. *)
Theorem pattern_violation_comes_before_length
    (field : Field) (rules : FieldRuleSet) (p : RegExp.t) (min max : Z) :
  pattern rules = Some p ->
  minLength rules = Some min ->
  maxLength rules = Some max ->
  trim (value field) <> [] ->
  fst (RegExp.test p (trim (value field))) = false ->
  fst (validateField field rules) = invalid rules "pattern" /\
  (forall msg, errorMessages rules !! "pattern" = Some msg ->
     fst (validateField field rules) = {| isValid := false; error := Message msg |}) /\
  (forall rules' : FieldRuleSet,
     required rules' = required rules ->
     pattern rules' = pattern rules ->
     errorMessages rules' = errorMessages rules ->
     fst (validateField field rules') = fst (validateField field rules)).
Proof.
  intros Hp _ _ Hv Hrej.
  assert (Hres : forall r, pattern r = Some p ->
            fst (validateField field r) = invalid r "pattern").
  { intros r Hr. rewrite (validateField_nonempty field r Hv). simpl.
    now rewrite (pattern_fails_rejected r p _ Hr Hrej). }
  split; [exact (Hres rules Hp)|]. split.
  { intros msg Hmsg. rewrite (Hres rules Hp).
    unfold invalid, get_message. now rewrite Hmsg. }
  intros rules' _ Hp' Hmsgs.
  rewrite (Hres rules Hp), (Hres rules') by congruence.
  unfold invalid, get_message. rewrite Hmsgs. reflexivity.
Qed.

Lemma pattern_violation_comes_before_length_witness :
  (effective_length "text" (str "7") < 2)%Z /\
  fst (validateField (field_of "name" "text" "7") name_rules)
    = {| isValid := false; error := Message ERROR_MESSAGES.NAME_INVALID |}.
Proof.
  split; [vm_compute; reflexivity|].
  refine (eq_trans (proj1 (pattern_violation_comes_before_length
            (field_of "name" "text" "7") name_rules VALIDATION_PATTERNS.NAME
            2 100 eq_refl eq_refl eq_refl _ _)) _).
  - vm_compute. discriminate.
  - vm_compute. reflexivity.
  - vm_compute. reflexivity.
Defined.

Lemma effective_length_tel (v : jsstring) :
  effective_length "tel" v = Z.of_nat (digit_count v).
Proof.
  unfold effective_length. simpl. now rewrite strip_non_digits_length.
Qed.

(** C4: for a field of type 'tel' the minLength and maxLength checks compare
    the number of digit characters of the trimmed value, not its length in
    characters; "+1 (234) 567-8900" (11 digits, 17 characters) is valid for
    the phone rule set, whose bounds are 10 and 20. The last part shows a
    value on which the two measures disagree: "123-456-789" has 11
    characters and 9 digits and is too short. *)
Theorem tel_length_is_digit_count :
  (forall (field : Field) (rules : FieldRuleSet),
     type field = "tel" ->
     trim (value field) <> [] ->
     pattern_accepts rules (trim (value field)) ->
     fst (validateField field rules)
       = verdict_for_length rules (Z.of_nat (digit_count (trim (value field))))) /\
  (digit_count (str "+1 (234) 567-8900") = 11%nat /\
   length (str "+1 (234) 567-8900") = 17%nat /\
   minLength phone_rules = Some 10%Z /\ maxLength phone_rules = Some 20%Z /\
   fst (validateField (field_of "phone" "tel" "+1 (234) 567-8900") phone_rules)
     = {| isValid := true; error := Null |}) /\
  (digit_count (str "123-456-789") = 9%nat /\
   length (str "123-456-789") = 11%nat /\
   fst (validateField (field_of "phone" "tel" "123-456-789") phone_rules)
     = {| isValid := false; error := Message ERROR_MESSAGES.PHONE_TOO_SHORT |}).
Proof.
  split.
  - intros field rules Htel Hv Hacc.
    rewrite (validateField_nonempty field rules Hv). simpl.
    now rewrite (pattern_fails_accepted _ _ Hacc), Htel, effective_length_tel.
  - split; repeat split; vm_compute; reflexivity.
Qed.

Lemma tel_length_is_digit_count_witness :
  type (field_of "phone" "tel" "(555) 123-4567") = "tel" /\
  trim (value (field_of "phone" "tel" "(555) 123-4567")) <> [] /\
  pattern_accepts phone_rules (trim (value (field_of "phone" "tel" "(555) 123-4567"))) /\
  fst (validateField (field_of "phone" "tel" "(555) 123-4567") phone_rules)
    = verdict_for_length phone_rules 10.
Proof.
  split; [reflexivity|].
  assert (Hv : trim (value (field_of "phone" "tel" "(555) 123-4567")) <> []).
  { vm_compute. discriminate. }
  assert (Hacc : pattern_accepts phone_rules
                   (trim (value (field_of "phone" "tel" "(555) 123-4567")))).
  { vm_compute. reflexivity. }
  split; [exact Hv|]. split; [exact Hacc|].
  exact (proj1 tel_length_is_digit_count
           (field_of "phone" "tel" "(555) 123-4567") phone_rules eq_refl Hv Hacc).
Defined.

(** ** Hidden state *)

Lemma validateField_flagless (field : Field) (rules : FieldRuleSet) :
  flagless_pattern rules -> snd (validateField field rules) = rules.
Proof.
  intros Hflag.
  destruct (trim (value field)) as [|c v] eqn:Ev.
  - unfold validateField. rewrite Ev. simpl.
    now destruct (required rules).
  - rewrite validateField_nonempty by (rewrite Ev; discriminate).
    simpl. now apply pattern_fails_flagless.
Qed.

(** C7, as stated, fails: [test] on a global pattern reads and writes the
    [lastIndex] of the pattern object. With the pattern [/^[a-z]+$/g] the
    value "abc" is valid on the first call, which leaves [lastIndex] at 3,
    and invalid on the second, which searches from index 3. *)
Lemma global_pattern_second_call_differs :
  ~ (forall (field : Field) (rules : FieldRuleSet),
       fst (validateField field (snd (validateField field rules)))
         = fst (validateField field rules)).
Proof.
  intros H.
  specialize (H (field_of "optional" "text" "abc") global_pattern_rules).
  vm_compute in H. discriminate H.
Qed.

(** C7, amended: for a rule set whose pattern, if any, is neither global nor
    sticky, validateField leaves the rule set as it found it, and a second
    call on the same field and rule set returns the same isValid and the
    same error. *)
Theorem validateField_repeatable (field : Field) (rules : FieldRuleSet) :
  flagless_pattern rules ->
  snd (validateField field rules) = rules /\
  fst (validateField field (snd (validateField field rules)))
    = fst (validateField field rules).
Proof.
  intros Hflag.
  pose proof (validateField_flagless field rules Hflag) as Hsame.
  split; [exact Hsame|]. rewrite Hsame. reflexivity.
Qed.

Lemma validateField_repeatable_witness :
  flagless_pattern email_rules /\
  snd (validateField (field_of "email" "email" "a@b.c") email_rules) = email_rules.
Proof.
  assert (Hflag : flagless_pattern email_rules) by (split; reflexivity).
  split; [exact Hflag|].
  exact (proj1 (validateField_repeatable (field_of "email" "email" "a@b.c")
                  email_rules Hflag)).
Defined.

(** ** The static table *)

Lemma FIELD_RULES_entries (name : string) (rules : FieldRuleSet) :
  FIELD_RULES !! name = Some rules ->
  (name = "name" /\ rules = name_rules) \/
  (name = "email" /\ rules = email_rules) \/
  (name = "phone" /\ rules = phone_rules) \/
  (name = "service" /\ rules = service_rules) \/
  (name = "message" /\ rules = message_rules).
Proof.
  unfold FIELD_RULES. intros H.
  repeat (rewrite lookup_insert in H; case_decide;
          [injection H as <-; subst name; tauto|]).
  rewrite lookup_empty in H. discriminate H.
Qed.

Lemma FIELD_RULES_flagless (name : string) (rules : FieldRuleSet) :
  FIELD_RULES !! name = Some rules -> flagless_pattern rules.
Proof.
  intros H.
  destruct (FIELD_RULES_entries name rules H)
    as [[_ ->]|[[_ ->]|[[_ ->]|[[_ ->]|[_ ->]]]]];
    unfold flagless_pattern; simpl; auto.
Qed.

(** No call of validateField changes a rule set of the table. *)
Lemma FIELD_RULES_unchanged (field : Field) (name : string) (rules : FieldRuleSet) :
  FIELD_RULES !! name = Some rules -> snd (validateField field rules) = rules.
Proof.
  intros H. apply validateField_flagless. exact (FIELD_RULES_flagless name rules H).
Qed.

(** C8: every rule set of the FIELD_RULES table satisfies the message
    invariant: a pattern, minLength or maxLength rule that is present has its
    key in the rule set's errorMessages. *)
Theorem FIELD_RULES_message_invariant (name : string) (rules : FieldRuleSet) :
  FIELD_RULES !! name = Some rules -> message_invariant rules.
Proof.
  intros H.
  destruct (FIELD_RULES_entries name rules H)
    as [[_ ->]|[[_ ->]|[[_ ->]|[[_ ->]|[_ ->]]]]];
    unfold message_invariant; simpl;
    repeat split; intros [x Hx]; try discriminate Hx;
    vm_compute; eauto.
Qed.

Lemma FIELD_RULES_message_invariant_witness :
  FIELD_RULES !! "phone" = Some phone_rules /\ message_invariant phone_rules.
Proof.
  assert (H : FIELD_RULES !! "phone" = Some phone_rules) by (vm_compute; reflexivity).
  split; [exact H|].
  exact (FIELD_RULES_message_invariant "phone" phone_rules H).
Defined.

(** ** Shape of the result *)

Local Ltac in_kinds := unfold optional_kinds; repeat constructor.

Lemma verdict_for_length_cases (rules : FieldRuleSet) (n : Z) :
  message_invariant rules ->
  verdict_for_length rules n = valid \/
  exists kind msg,
    kind ∈ optional_kinds /\
    errorMessages rules !! kind = Some msg /\
    verdict_for_length rules n = {| isValid := false; error := Message msg |}.
Proof.
  intros (_ & Hmin & Hmax). unfold verdict_for_length.
  destruct (below_minimum rules n) eqn:Hlo.
  - right. destruct Hmin as [msg Hmsg].
    { unfold below_minimum in Hlo. destruct (minLength rules); [eauto | discriminate]. }
    exists "minLength", msg. unfold invalid, get_message.
    rewrite Hmsg. repeat split. in_kinds.
  - destruct (above_maximum rules n) eqn:Hhi; [|now left].
    right. destruct Hmax as [msg Hmsg].
    { unfold above_maximum in Hhi. destruct (maxLength rules); [eauto | discriminate]. }
    exists "maxLength", msg. unfold invalid, get_message.
    rewrite Hmsg. repeat split. in_kinds.
Qed.

(** The three shapes a result can have. *)
Lemma validateField_cases (field : Field) (rules : FieldRuleSet) :
  message_invariant rules ->
  fst (validateField field rules) = valid \/
  (required rules = true /\ trim (value field) = [] /\
   fst (validateField field rules) = invalid rules "required") \/
  exists kind msg,
    kind ∈ optional_kinds /\
    errorMessages rules !! kind = Some msg /\
    fst (validateField field rules) = {| isValid := false; error := Message msg |}.
Proof.
  intros Hinv.
  destruct (trim (value field)) as [|c v] eqn:Ev.
  - destruct (required rules) eqn:Hreq.
    + right; left. now rewrite validateField_required_empty.
    + left. now rewrite validateField_optional_empty.
  - assert (Hne : trim (value field) <> []) by (rewrite Ev; discriminate).
    rewrite (validateField_nonempty field rules Hne), Ev. simpl fst.
    destruct (fst (pattern_fails rules (c :: v))) eqn:Hfail.
    + right; right. destruct Hinv as (Hpat & _).
      destruct Hpat as [msg Hmsg].
      { unfold pattern_fails in Hfail.
        destruct (pattern rules); [eauto | discriminate]. }
      exists "pattern", msg. unfold invalid, get_message.
      rewrite Hmsg. repeat split. in_kinds.
    + destruct (verdict_for_length_cases rules
                  (effective_length (type field) (c :: v)) Hinv) as [Hok|Hbad];
        [now left | now right; right].
Qed.

(** On a rule set of the data model the call completes, with the result and
    the rule set that [validateField] gives above. *)
Lemma validateField_as_object (field : Field) (rules : FieldRuleSet) :
  Raw.validateField field (Some (as_object rules))
  = Raw.Normal (fst (validateField field rules),
                as_object (snd (validateField field rules))).
Proof.
  unfold Raw.validateField, validateField.
  cbn [as_object Raw.required].
  destruct (required rules && is_empty (trim (value field))); [reflexivity|].
  destruct (is_empty (trim (value field)) && negb (required rules));
    [reflexivity|].
  unfold Raw.pattern_fails, pattern_fails. cbn [as_object Raw.pattern].
  destruct (pattern rules) as [p|]; cbn [option_map].
  - destruct (RegExp.test p (trim (value field))) as [matched p'].
    destruct (negb matched); [reflexivity|].
    unfold Raw.too_short, Raw.too_long, too_short, too_long.
    cbn [as_object Raw.minLength Raw.maxLength].
    destruct (match minLength rules with Some _ => _ | None => _ end);
      [reflexivity|].
    destruct (match maxLength rules with Some _ => _ | None => _ end);
      reflexivity.
  - unfold Raw.too_short, Raw.too_long, too_short, too_long.
    cbn [as_object Raw.minLength Raw.maxLength].
    destruct (match minLength rules with Some _ => _ | None => _ end);
      [reflexivity|].
    destruct (match maxLength rules with Some _ => _ | None => _ end);
      reflexivity.
Qed.

(** Outside the data model the call can throw: the object has no
    [errorMessages], and the blank value of a required field makes the
    function read [rules.errorMessages.required]. *)
Lemma validateField_throws_without_errorMessages :
  Raw.validateField (field_of "service" "select-one" "")
    (Some required_without_errorMessages)
  = Raw.Throw Raw.TypeError.
Proof. reflexivity. Qed.

Lemma validateField_throws_without_rules (field : Field) :
  Raw.validateField field None = Raw.Throw Raw.TypeError.
Proof. reflexivity. Qed.

(** The result says which check failed, and it is valid only when none
    did. *)
Lemma validateField_reports_violation (field : Field) (rules : FieldRuleSet) :
  message_invariant rules ->
  (isValid (fst (validateField field rules)) = true <->
   forall kind, ~ violates field rules kind) /\
  (isValid (fst (validateField field rules)) = true ->
   error (fst (validateField field rules)) = Null) /\
  (isValid (fst (validateField field rules)) = false ->
   exists kind,
     violates field rules kind /\
     error (fst (validateField field rules)) = get_message rules kind /\
     (kind <> "required" ->
      exists msg, errorMessages rules !! kind = Some msg /\
                  error (fst (validateField field rules)) = Message msg)).
Proof.
  intros (Hpat & Hmin & Hmax).
  destruct (trim (value field)) as [|c v] eqn:Ev.
  - destruct (required rules) eqn:Hreq.
    + rewrite validateField_required_empty by assumption. cbn [fst invalid isValid error].
      split; [|split].
      * split; [discriminate|]. intros H. exfalso. apply (H "required").
        left. now rewrite Ev.
      * discriminate.
      * intros _. exists "required". split; [left; now rewrite Ev|].
        split; [reflexivity|]. intros Hk. now contradiction Hk.
    + rewrite validateField_optional_empty by assumption. cbn [fst valid isValid error].
      split; [|split].
      * split; [|reflexivity]. intros _ kind [(_ & Hr & _)|(Hne & _)].
        -- congruence.
        -- rewrite Ev in Hne. now apply Hne.
      * reflexivity.
      * discriminate.
  - assert (Hne : trim (value field) <> []) by (rewrite Ev; discriminate).
    rewrite (validateField_nonempty field rules Hne).
    set (w := trim (value field)) in *. cbn [fst].
    unfold pattern_fails, violates, pattern_accepts. fold w.
    destruct (pattern rules) as [p|] eqn:Hp.
    + destruct (RegExp.test p w) as [matched p'] eqn:Ht. cbn [fst].
      destruct matched; cbn [negb].
      * clear Hpat.
        unfold verdict_for_length.
        destruct (below_minimum rules (effective_length (type field) w)) eqn:Hlo;
          [|destruct (above_maximum rules (effective_length (type field) w)) eqn:Hhi].
        -- destruct Hmin as [msg Hmsg].
           { unfold below_minimum in Hlo.
             destruct (minLength rules); [eauto | discriminate]. }
           cbn [invalid isValid error]. split; [|split].
           ++ split; [discriminate|]. intros H. exfalso.
              apply (H "minLength"). right. split; [exact Hne|].
              right. left. now split.
           ++ discriminate.
           ++ intros _. exists "minLength".
              split; [right; split; [exact Hne|]; right; left; now split|].
              split; [reflexivity|]. intros _. exists msg.
              split; [exact Hmsg|]. unfold get_message. now rewrite Hmsg.
        -- destruct Hmax as [msg Hmsg].
           { unfold above_maximum in Hhi.
             destruct (maxLength rules); [eauto | discriminate]. }
           cbn [invalid isValid error]. split; [|split].
           ++ split; [discriminate|]. intros H. exfalso.
              apply (H "maxLength"). right. split; [exact Hne|].
              right. right. now split.
           ++ discriminate.
           ++ intros _. exists "maxLength".
              split; [right; split; [exact Hne|]; right; right; now split|].
              split; [reflexivity|]. intros _. exists msg.
              split; [exact Hmsg|]. unfold get_message. now rewrite Hmsg.
        -- cbn [valid isValid error]. split; [|split].
           ++ split; [|reflexivity].
              intros _ kind [(_ & _ & He)|(_ & [(_ & Hn)|[(_ & Hn)|(_ & Hn)]])].
              ** now apply Hne.
              ** apply Hn. reflexivity.
              ** congruence.
              ** congruence.
           ++ reflexivity.
           ++ discriminate.
      * destruct Hpat as [msg Hmsg]; [eauto|].
        cbn [invalid isValid error]. split; [|split].
        -- split; [discriminate|]. intros H. exfalso.
           apply (H "pattern"). right. split; [exact Hne|].
           left. split; [reflexivity | discriminate].
        -- discriminate.
        -- intros _. exists "pattern".
           split; [right; split; [exact Hne|]; left;
                   split; [reflexivity | discriminate]|].
           split; [reflexivity|]. intros _. exists msg.
           split; [exact Hmsg|]. unfold get_message. now rewrite Hmsg.
    + clear Hpat. cbn [fst].
      unfold verdict_for_length.
      destruct (below_minimum rules (effective_length (type field) w)) eqn:Hlo;
        [|destruct (above_maximum rules (effective_length (type field) w)) eqn:Hhi].
      * destruct Hmin as [msg Hmsg].
        { unfold below_minimum in Hlo.
          destruct (minLength rules); [eauto | discriminate]. }
        cbn [invalid isValid error]. split; [|split].
        -- split; [discriminate|]. intros H. exfalso.
           apply (H "minLength"). right. split; [exact Hne|].
           right. left. now split.
        -- discriminate.
        -- intros _. exists "minLength".
           split; [right; split; [exact Hne|]; right; left; now split|].
           split; [reflexivity|]. intros _. exists msg.
           split; [exact Hmsg|]. unfold get_message. now rewrite Hmsg.
      * destruct Hmax as [msg Hmsg].
        { unfold above_maximum in Hhi.
          destruct (maxLength rules); [eauto | discriminate]. }
        cbn [invalid isValid error]. split; [|split].
        -- split; [discriminate|]. intros H. exfalso.
           apply (H "maxLength"). right. split; [exact Hne|].
           right. right. now split.
        -- discriminate.
        -- intros _. exists "maxLength".
           split; [right; split; [exact Hne|]; right; right; now split|].
           split; [reflexivity|]. intros _. exists msg.
           split; [exact Hmsg|]. unfold get_message. now rewrite Hmsg.
      * cbn [valid isValid error]. split; [|split].
        -- split; [|reflexivity].
           intros _ kind [(_ & _ & He)|(_ & [(_ & Hn)|[(_ & Hn)|(_ & Hn)]])].
           ++ now apply Hne.
           ++ now apply Hn.
           ++ congruence.
           ++ congruence.
        -- reflexivity.
        -- discriminate.
Qed.

(** C9: for every value, field type and rule set of the data model that
    satisfies the message invariant, the call of validateField does not
    throw: it completes with a result object of the two properties isValid
    and error. Every failure is in that object: the result is valid exactly
    when no check fails on the field, with the error null; when a check
    fails, isValid is false and the error is the entry of errorMessages for
    a check that failed, which for the pattern and the two bounds is a
    message string. *)
Theorem validateField_returns_structured_result (field : Field) (rules : FieldRuleSet) :
  message_invariant rules ->
  exists (result : ValidationResult) (rules' : FieldRuleSet),
    Raw.validateField field (Some (as_object rules))
      = Raw.Normal (result, as_object rules') /\
    (isValid result = true <-> forall kind, ~ violates field rules kind) /\
    (isValid result = true -> error result = Null) /\
    (isValid result = false ->
     exists kind,
       violates field rules kind /\
       error result = get_message rules kind /\
       (kind <> "required" ->
        exists msg, errorMessages rules !! kind = Some msg /\
                    error result = Message msg)).
Proof.
  intros Hinv.
  exists (fst (validateField field rules)), (snd (validateField field rules)).
  split; [apply validateField_as_object|].
  now apply validateField_reports_violation.
Qed.

Lemma validateField_returns_structured_result_witness :
  message_invariant phone_rules /\
  exists (result : ValidationResult) (rules' : FieldRuleSet),
    Raw.validateField (field_of "phone" "tel" "123-456")
      (Some (as_object phone_rules))
      = Raw.Normal (result, as_object rules') /\
    isValid result = false /\
    error result = Message ERROR_MESSAGES.PHONE_TOO_SHORT.
Proof.
  assert (Hinv : message_invariant phone_rules).
  { repeat split; intros _; vm_compute; eauto. }
  split; [exact Hinv|].
  destruct (validateField_returns_structured_result
              (field_of "phone" "tel" "123-456") phone_rules Hinv)
    as (result & rules' & Hcall & _).
  exists result, rules'. split; [exact Hcall|].
  rewrite validateField_as_object in Hcall. injection Hcall as <- _.
  split; reflexivity.
Defined.

(** C10, as stated, fails: the message of a violated rule is read from
    errorMessages whether or not the key is there. A required rule set with
    no "required" message turns a blank value into an invalid result whose
    error is undefined, which is not a message of the rule set. *)
Lemma missing_message_gives_undefined_error :
  ~ (forall (field : Field) (rules : FieldRuleSet),
       result_well_formed rules (fst (validateField field rules))).
Proof.
  intros H.
  destruct (H (field_of "service" "select-one" "") required_without_message)
    as [_ Hmsg].
  destruct (Hmsg eq_refl) as (kind & msg & Hlookup & _).
  unfold required_without_message in Hlookup. simpl in Hlookup.
  rewrite lookup_empty in Hlookup. discriminate Hlookup.
Qed.

(** C10, amended: for a rule set in which every rule that is present has its
    message (the "required" key when required is true, and the message
    invariant for pattern, minLength and maxLength), the result of
    validateField is valid exactly when its error is null, and the error of
    an invalid result is one of the message strings of errorMessages. *)
Theorem validateField_result_well_formed (field : Field) (rules : FieldRuleSet) :
  every_rule_has_message rules ->
  result_well_formed rules (fst (validateField field rules)).
Proof.
  intros [Hreq Hinv]. unfold result_well_formed, is_message_of.
  destruct (validateField_cases field rules Hinv)
    as [->|[(Hr & _ & ->)|(kind & msg & _ & Hmsg & ->)]]; simpl.
  - split; [tauto | discriminate].
  - destruct (Hreq Hr) as [msg Hmsg].
    unfold get_message. rewrite Hmsg.
    split; [split; discriminate | eauto].
  - split; [split; discriminate | eauto].
Qed.

Lemma validateField_result_well_formed_witness :
  every_rule_has_message name_rules /\
  result_well_formed name_rules
    (fst (validateField (field_of "name" "text" "J") name_rules)).
Proof.
  assert (Hall : every_rule_has_message name_rules).
  { repeat split; intros _; vm_compute; eauto. }
  split; [exact Hall|].
  exact (validateField_result_well_formed (field_of "name" "text" "J") name_rules Hall).
Defined.

(** ** The form *)

Lemma FIELD_RULES_get_own (n : string) (rules : FieldRuleSet) :
  FIELD_RULES !! n = Some rules ->
  String.eqb n "" = false /\ FIELD_RULES_get n = Some rules.
Proof.
  intros H. split.
  - destruct (FIELD_RULES_entries n rules H)
      as [[-> _]|[[-> _]|[[-> _]|[[-> _]|[-> _]]]]]; reflexivity.
  - unfold FIELD_RULES_get. now rewrite H.
Qed.

Lemma FIELD_RULES_get_inherited (n : string) :
  FIELD_RULES !! n = None ->
  FIELD_RULES_get n = None \/ FIELD_RULES_get n = Some inherited_member.
Proof.
  intros H. unfold FIELD_RULES_get. rewrite H.
  destruct (bool_decide (n ∈ Object_prototype_names)); auto.
Qed.

(** A member of [Object.prototype] carries no rule: every value passes. *)
Lemma inherited_member_valid (field : Field) :
  fst (validateField field inherited_member) = valid.
Proof.
  unfold validateField, pattern_fails, too_short, too_long. simpl.
  destruct (is_empty (trim (value field))); reflexivity.
Qed.

(** One call of the callback: the variable is and-ed with the field's
    verdict, and a field with a registered rule set has its verdict
    displayed. *)
Lemma validateForm_callback_spec (i : nat) (field : Field) (b : bool) :
  fst (validateForm_callback i field b) = b && field_passes field /\
  forall rules, FIELD_RULES !! name field = Some rules ->
    display_call i (fst (validateField field rules))
      ∈ snd (validateForm_callback i field b).
Proof.
  unfold validateForm_callback, validateAndDisplayError, field_passes, display_call.
  destruct (FIELD_RULES !! name field) as [rules|] eqn:Hown.
  - destruct (FIELD_RULES_get_own _ _ Hown) as [Hname Hget].
    rewrite Hname, Hget. simpl.
    destruct (isValid (fst (validateField field rules))) eqn:Hok; simpl.
    + split; [now rewrite andb_true_r|].
      intros ? [= <-]. rewrite Hok. constructor.
    + split; [now rewrite andb_false_r|].
      intros ? [= <-]. rewrite Hok. constructor.
  - split; [|discriminate].
    rewrite andb_true_r.
    destruct (negb (String.eqb (name field) "")); [|reflexivity]. simpl.
    destruct (FIELD_RULES_get_inherited _ Hown) as [-> | ->].
    + rewrite bool_decide_eq_false_2 by (intros [? ?]; discriminate). reflexivity.
    + rewrite bool_decide_eq_true_2 by eauto.
      rewrite inherited_member_valid. reflexivity.
Qed.

Lemma forEach_field_result (fields : list Field) :
  forall (i : nat) (b : bool),
    fst (forEach_field i fields b) = b && forallb field_passes fields.
Proof.
  induction fields as [|field fields IH]; intros i b; simpl.
  - now rewrite andb_true_r.
  - pose proof (proj1 (validateForm_callback_spec i field b)) as Hstep.
    destruct (validateForm_callback i field b) as [b' calls].
    specialize (IH (S i) b').
    destruct (forEach_field (S i) fields b') as [result calls'].
    simpl in *. subst. now rewrite andb_assoc.
Qed.

Lemma forEach_field_displays (fields : list Field) :
  forall (i : nat) (b : bool) (j : nat) (field : Field) (rules : FieldRuleSet),
    fields !! j = Some field ->
    FIELD_RULES !! name field = Some rules ->
    display_call (i + j) (fst (validateField field rules))
      ∈ snd (forEach_field i fields b).
Proof.
  induction fields as [|field0 fields IH]; intros i b j field rules Hj Hown.
  - discriminate Hj.
  - simpl.
    pose proof (proj2 (validateForm_callback_spec i field0 b)) as Hstep.
    destruct (validateForm_callback i field0 b) as [b' calls].
    specialize (IH (S i) b').
    destruct (forEach_field (S i) fields b') as [result calls'].
    simpl in *. apply elem_of_app.
    destruct j as [|j]; simpl in Hj.
    + injection Hj as ->. left. rewrite Nat.add_0_r. now apply Hstep.
    + right. replace (i + S j)%nat with (S i + j)%nat by lia.
      now apply (IH j field rules).
Qed.

(** C5: validateForm returns true exactly when every field of the form whose
    name has a rule set in FIELD_RULES passes validateField, and it
    evaluates every such field, whatever the verdicts on the fields before
    it: each one has its verdict displayed, showError with the error for an
    invalid field and clearError for a valid one. *)
Theorem validateForm_aggregates_without_short_circuit (fields : list Field) :
  (fst (validateForm fields) = true <->
   forall (field : Field) (rules : FieldRuleSet),
     field ∈ fields ->
     FIELD_RULES !! name field = Some rules ->
     isValid (fst (validateField field rules)) = true) /\
  (forall (i : nat) (field : Field) (rules : FieldRuleSet),
     fields !! i = Some field ->
     FIELD_RULES !! name field = Some rules ->
     (isValid (fst (validateField field rules)) = false ->
      ShowError i (error (fst (validateField field rules)))
        ∈ snd (validateForm fields)) /\
     (isValid (fst (validateField field rules)) = true ->
      ClearError i ∈ snd (validateForm fields))).
Proof.
  unfold validateForm. split.
  - rewrite forEach_field_result. simpl. rewrite forallb_forall. split.
    + intros Hall field rules Hin Hown.
      specialize (Hall field (proj1 (list_elem_of_In _ _) Hin)).
      unfold field_passes in Hall. now rewrite Hown in Hall.
    + intros Hall field Hin. unfold field_passes.
      destruct (FIELD_RULES !! name field) as [rules|] eqn:Hown; [|reflexivity].
      apply (Hall field rules); [now apply list_elem_of_In | exact Hown].
  - intros i field rules Hi Hown.
    pose proof (forEach_field_displays fields 0 true i field rules Hi Hown) as Hcall.
    unfold display_call in Hcall. simpl in Hcall.
    split; intros Hverdict; rewrite Hverdict in Hcall; exact Hcall.
Qed.

(** ** Scenarios *)

Example scenario_name_too_short :
  fst (validateField (field_of "name" "text" "J") name_rules)
    = {| isValid := false;
         error := Message "Name must be at least 2 characters long" |}.
Proof. vm_compute. reflexivity. Qed.

Example scenario_phone_too_short :
  fst (validateField (field_of "phone" "tel" "123-456") phone_rules)
    = {| isValid := false;
         error := Message "Phone number must be at least 10 digits" |}.
Proof. vm_compute. reflexivity. Qed.

Example scenario_message_too_long :
  fst (validateField
         {| name := "message"; type := "textarea"; value := repeat 97%N 1001 |}
         message_rules)
    = {| isValid := false;
         error := Message "Message must not exceed 1000 characters" |}.
Proof. vm_compute. reflexivity. Qed.

Example scenario_all_fields_valid :
  validateForm
    [ field_of "name" "text" "John Doe";
      field_of "email" "email" "test@example.com";
      field_of "phone" "tel" "123-456-7890";
      field_of "service" "select-one" "web";
      field_of "message" "textarea" "This is a test message" ]
  = (true, [ClearError 0; ClearError 1; ClearError 2; ClearError 3; ClearError 4]).
Proof. vm_compute. reflexivity. Qed.

(** Two invalid fields: both are reported, and the field after them is still
    evaluated. A field whose name is a member of [Object.prototype] has its
    error cleared and one with an unknown name is left alone. *)
Example scenario_two_invalid_fields :
  validateForm
    [ field_of "name" "text" "J";
      field_of "email" "email" "invalid-email";
      field_of "phone" "tel" "123-456-7890";
      field_of "constructor" "text" "x";
      field_of "newsletter" "checkbox" "on" ]
  = (false,
     [ ShowError 0 (Message "Name must be at least 2 characters long");
       Focus 0;
       ShowError 1 (Message "Please enter a valid email address");
       ClearError 2;
       ClearError 3 ]).
Proof. vm_compute. reflexivity. Qed.

(** * Beyond the claims *)

(** ** The matcher and what a pattern matches *)

(** One step of RepeatMatcher, with the rest of the quantifier as a
    quantifier again. *)
Lemma matcher_Quantified (r : regex) (min : nat) (max : option nat)
    (x : nat) (rest : list N) (c : RegExp.Continuation) :
  RegExp.matcher (RegExp.Quantified r min max) x rest c =
    if decide (max = Some 0%nat) then c x rest
    else
      let d : RegExp.Continuation := fun y rest' =>
        if (min =? 0)%nat && (y =? x)%nat then None
        else RegExp.matcher (RegExp.Quantified r (pred min) (pred <$> max)) y rest' c in
      if (min =? 0)%nat then
        match RegExp.matcher r x rest d with
        | Some e => Some e
        | None => c x rest
        end
      else RegExp.matcher r x rest d.
Proof.
  destruct max as [[|n]|].
  - reflexivity.
  - reflexivity.
  - rewrite decide_False by discriminate. cbv zeta.
    change (RegExp.matcher (RegExp.Quantified r min None) x rest c)
      with (RegExp.RepeatMatcher (RegExp.matcher r) c (min + length rest) min x rest).
    destruct (min + length rest)%nat as [|fuel] eqn:Hfuel.
    + assert (min = 0%nat) as -> by lia.
      destruct rest as [|ch rest]; [|simpl in Hfuel; lia].
      simpl.
      match goal with
      | |- context [RegExp.matcher r x [] ?d] =>
          assert (Hd : RegExp.matcher r x [] d = None)
      end.
      { transitivity (RegExp.matcher r x [] (fun _ _ => None));
          [|apply matcher_strict].
        apply matcher_positional. intros pre rest' Hpre.
        destruct pre; [|discriminate Hpre].
        simpl. now rewrite Nat.add_0_r, Nat.eqb_refl. }
      now rewrite Hd.
    + simpl RegExp.RepeatMatcher. cbv zeta.
      match goal with
      | |- ?lhs = ?rhs =>
          match lhs with
          | context [RegExp.matcher r x rest ?d] =>
              match rhs with
              | context [RegExp.matcher r x rest ?d'] =>
                  assert (Hd : RegExp.matcher r x rest d = RegExp.matcher r x rest d')
              end
          end
      end.
      { apply matcher_positional. intros pre rest' Hpre.
        destruct ((min =? 0)%nat && (x + length pre =? x)%nat) eqn:Hcond;
          [reflexivity|].
        assert (Hextra : exists extra, fuel = (pred min + length rest' + extra)%nat).
        { subst rest. rewrite length_app in Hfuel.
          destruct min as [|min'].
          - simpl in Hcond. apply Nat.eqb_neq in Hcond.
            exists (length pre - 1)%nat. simpl in *. lia.
          - exists (length pre). simpl in *. lia. }
        destruct Hextra as [extra ->].
        apply RepeatMatcher_unbounded. }
      rewrite Hd. reflexivity.
Qed.

Lemma matcher_sound (r : regex) :
  forall (x : nat) (rest : list N) (c : RegExp.Continuation) (e : nat),
    RegExp.matcher r x rest c = Some e ->
    exists s post,
      rest = s ++ post /\ matches r x s post /\ c (x + length s)%nat post = Some e.
Proof.
  induction r as [|negated ranges|r1 IH1 r2 IH2|r1 IH1 r2 IH2|r IH min max| |];
    intros x rest c e Hrun.
  - exists [], rest. simpl in *. rewrite Nat.add_0_r.
    repeat split; [constructor | exact Hrun].
  - simpl in Hrun. destruct rest as [|ch rest']; [discriminate|].
    destruct (RegExp.class_matches negated ranges ch) eqn:Hch; [|discriminate].
    exists [ch], rest'. simpl. rewrite Nat.add_1_r.
    repeat split; [now constructor | exact Hrun].
  - simpl in Hrun.
    destruct (IH1 _ _ _ _ Hrun) as (s1 & post1 & -> & Hm1 & Hrun2).
    destruct (IH2 _ _ _ _ Hrun2) as (s2 & post & -> & Hm2 & Hc).
    exists (s1 ++ s2), post. rewrite length_app, Nat.add_assoc, <- app_assoc.
    repeat split; [now constructor | exact Hc].
  - simpl in Hrun. destruct (RegExp.matcher r1 x rest c) as [e1|] eqn:H1.
    + injection Hrun as ->.
      destruct (IH1 _ _ _ _ H1) as (s & post & -> & Hm & Hc).
      exists s, post. repeat split; [now apply matches_Disjunction_l | exact Hc].
    + destruct (IH2 _ _ _ _ Hrun) as (s & post & -> & Hm & Hc).
      exists s, post. repeat split; [now apply matches_Disjunction_r | exact Hc].
  - assert (Hloop : forall (n min : nat) (max : option nat) (x : nat) (rest : list N),
              (match max with Some k => k | None => min + length rest end < n)%nat ->
              RegExp.matcher (RegExp.Quantified r min max) x rest c = Some e ->
              exists s post,
                rest = s ++ post /\
                matches (RegExp.Quantified r min max) x s post /\
                c (x + length s)%nat post = Some e).
    { clear x rest min max Hrun.
      induction n as [|n IHn]; intros min max x rest Hlt Hrun; [lia|].
      rewrite matcher_Quantified in Hrun.
      assert (Hdone : c x rest = Some e -> min = 0%nat \/ max = Some 0%nat ->
                exists s post,
                  rest = s ++ post /\
                  matches (RegExp.Quantified r min max) x s post /\
                  c (x + length s)%nat post = Some e).
      { intros Hc Hstop. exists [], rest. simpl. rewrite Nat.add_0_r.
        repeat split; [now constructor | exact Hc]. }
      destruct (decide (max = Some 0%nat)) as [Hmax|Hmax]; [now apply Hdone; auto|].
      cbv zeta in Hrun.
      assert (Hmore : forall e',
                RegExp.matcher r x rest
                  (fun y rest' =>
                     if (min =? 0)%nat && (y =? x)%nat then None
                     else RegExp.matcher
                            (RegExp.Quantified r (pred min) (pred <$> max)) y rest' c)
                  = Some e' ->
                e' = e ->
                exists s post,
                  rest = s ++ post /\
                  matches (RegExp.Quantified r min max) x s post /\
                  c (x + length s)%nat post = Some e).
      { intros e' Hiter ->.
        destruct (IH _ _ _ _ Hiter) as (s1 & post1 & -> & Hm1 & Hd).
        destruct ((min =? 0)%nat && (x + length s1 =? x)%nat) eqn:Hcond;
          [discriminate|].
        assert (Hstep : min <> 0%nat \/ s1 <> []).
        { destruct min; [right | left; discriminate].
          simpl in Hcond. apply Nat.eqb_neq in Hcond.
          intros ->. simpl in Hcond. lia. }
        destruct (IHn (pred min) (pred <$> max) (x + length s1)%nat post1)
          as (s2 & post & -> & Hm2 & Hc); [|exact Hd|].
        { destruct max as [[|k]|]; simpl in *; [congruence | lia |].
          rewrite length_app in Hlt.
          destruct Hstep as [Hmin|Hs1].
          - destruct min; [congruence | simpl; lia].
          - destruct s1; [congruence | simpl in *; destruct min; simpl; lia]. }
        exists (s1 ++ s2), post. rewrite length_app, Nat.add_assoc, <- app_assoc.
        repeat split; [now constructor | exact Hc]. }
      destruct (min =? 0)%nat eqn:Hmin.
      - match type of Hrun with
        | match ?m with _ => _ end = _ => destruct m as [e'|] eqn:Hiter
        end.
        + injection Hrun as ->. now apply (Hmore e).
        + apply Nat.eqb_eq in Hmin. now apply Hdone; auto.
      - now apply (Hmore e). }
    apply (Hloop (S (match max with Some k => k | None => min + length rest end)));
      [lia | exact Hrun].
  - simpl in Hrun. destruct (x =? 0)%nat eqn:Hx; [|discriminate].
    apply Nat.eqb_eq in Hx. subst x.
    exists [], rest. repeat split; [constructor | exact Hrun].
  - simpl in Hrun. destruct rest; [|discriminate].
    exists [], []. simpl. rewrite Nat.add_0_r.
    repeat split; [constructor | exact Hrun].
Qed.

Lemma matcher_complete (r : regex) (x : nat) (s post : list N) :
  matches r x s post ->
  forall c : RegExp.Continuation,
    is_Some (c (x + length s)%nat post) ->
    is_Some (RegExp.matcher r x (s ++ post) c).
Proof.
  induction 1 as [x post|negated ranges ch x post Hch
                 |r1 r2 x s1 s2 post _ IH1 _ IH2
                 |r1 r2 x s post _ IH|r1 r2 x s post _ IH
                 |r min max x post Hstop
                 |r min max x s1 s2 post Hmax Hstep _ IH1 _ IH2
                 |post|x];
    intros c Hc; simpl.
  - simpl in Hc. now rewrite Nat.add_0_r in Hc.
  - rewrite Hch. simpl in Hc. now rewrite Nat.add_1_r in Hc.
  - rewrite <- app_assoc. apply IH1. apply IH2.
    now rewrite length_app, Nat.add_assoc in Hc.
  - destruct (IH c Hc) as [e He]. rewrite He. eauto.
  - destruct (RegExp.matcher r1 x (s ++ post) c); [eauto | now apply IH].
  - simpl in Hc. rewrite Nat.add_0_r in Hc.
    change (is_Some (RegExp.matcher (RegExp.Quantified r min max) x post c)).
    rewrite matcher_Quantified.
    destruct (decide (max = Some 0%nat)) as [Hmax|Hmax]; [exact Hc|].
    destruct Hstop as [-> | ->]; [|congruence]. simpl.
    match goal with
    | |- is_Some (match ?m with _ => _ end) => destruct m; [eauto | exact Hc]
    end.
  - change (is_Some (RegExp.matcher (RegExp.Quantified r min max) x
                       ((s1 ++ s2) ++ post) c)).
    rewrite matcher_Quantified, decide_False by exact Hmax. cbv zeta.
    rewrite <- app_assoc.
    match goal with
    | |- context [RegExp.matcher r x (s1 ++ s2 ++ post) ?d] =>
        assert (Hiter : is_Some (RegExp.matcher r x (s1 ++ s2 ++ post) d))
    end.
    { apply IH1.
      assert (Hcond : (min =? 0)%nat && (x + length s1 =? x)%nat = false).
      { destruct Hstep as [Hmin|Hs1].
        - apply Nat.eqb_neq in Hmin. now rewrite Hmin.
        - apply andb_false_iff. right. apply Nat.eqb_neq.
          destruct s1; [congruence | simpl; lia]. }
      rewrite Hcond. apply IH2.
      now rewrite length_app, Nat.add_assoc in Hc. }
    destruct Hiter as [e He]. rewrite He.
    destruct (min =? 0)%nat; eauto.
  - exact Hc.
  - simpl in Hc. now rewrite Nat.add_0_r in Hc.
Qed.

(** [test] on a pattern without flags: some index starts a match. *)
Lemma search_is_Some (r : regex) (s : list N) :
  forall n i : nat,
    is_Some (RegExp.search r false s n i) <->
    exists j, (i <= j < i + n)%nat /\ is_Some (RegExp.match_at r s j).
Proof.
  induction n as [|n IH]; intros i; simpl.
  - split; [intros [? ?]; discriminate | intros (j & ? & _); lia].
  - destruct (RegExp.match_at r s i) as [e|] eqn:Hi.
    + split; [|eauto]. intros _. exists i. rewrite Hi. split; [lia | eauto].
    + rewrite IH. split; intros (j & Hj & Hm).
      * exists j. split; [lia | exact Hm].
      * exists j. split; [|exact Hm].
        destruct (decide (j = i)) as [->|]; [|lia].
        rewrite Hi in Hm. destruct Hm; discriminate.
Qed.

Lemma match_at_is_Some (r : regex) (s : list N) (i : nat) :
  is_Some (RegExp.match_at r s i) <->
  exists pre post, drop i s = pre ++ post /\ matches r i pre post.
Proof.
  unfold RegExp.match_at. split.
  - intros [e He].
    destruct (matcher_sound r _ _ _ _ He) as (pre & post & Hsplit & Hm & _).
    eauto.
  - intros (pre & post & -> & Hm).
    apply (matcher_complete r i pre post Hm). eauto.
Qed.

Lemma test_literal (r : regex) (s : list N) :
  fst (RegExp.test (RegExp.literal r) s) = true <->
  exists i pre post,
    (i <= length s)%nat /\ drop i s = pre ++ post /\ matches r i pre post.
Proof.
  unfold RegExp.test, RegExp.literal.
  cbn [RegExp.global RegExp.sticky RegExp.source RegExp.lastIndex orb].
  rewrite Nat.sub_0_r.
  pose proof (search_is_Some r s (S (length s)) 0) as Hsearch.
  destruct (RegExp.search r false s (S (length s)) 0) as [e|]; simpl.
  - split; [intros _ | reflexivity].
    destruct (proj1 Hsearch) as (j & Hj & Hm); [eauto|].
    apply match_at_is_Some in Hm. destruct Hm as (pre & post & Hd & Hm).
    exists j, pre, post. split; [lia | auto].
  - split; [discriminate|]. intros (i & pre & post & Hi & Hd & Hm).
    destruct (proj2 Hsearch) as [? ?]; [|discriminate].
    exists i. split; [lia|]. apply match_at_is_Some. eauto.
Qed.

(** *** Inversion of [matches] *)

Lemma matches_Seq_inv (r1 r2 : regex) (x : nat) (s post : list N) :
  matches (RegExp.Seq r1 r2) x s post ->
  exists s1 s2,
    s = s1 ++ s2 /\ matches r1 x s1 (s2 ++ post) /\
    matches r2 (x + length s1) s2 post.
Proof. inversion 1; subst; eauto. Qed.

Lemma matches_CharClass_inv (negated : bool) (ranges : list (N * N))
    (x : nat) (s post : list N) :
  matches (RegExp.CharClass negated ranges) x s post ->
  exists ch, s = [ch] /\ RegExp.class_matches negated ranges ch = true.
Proof. inversion 1; subst; eauto. Qed.

Lemma matches_AssertStart_inv (x : nat) (s post : list N) :
  matches RegExp.AssertStart x s post -> x = 0%nat /\ s = [].
Proof. inversion 1; subst; auto. Qed.

Lemma matches_AssertEnd_inv (x : nat) (s post : list N) :
  matches RegExp.AssertEnd x s post -> s = [] /\ post = [].
Proof. inversion 1; subst; auto. Qed.

Lemma matches_Quantified_inv (r : regex) (min : nat) (max : option nat)
    (x : nat) (s post : list N) :
  matches (RegExp.Quantified r min max) x s post ->
  (s = [] /\ (min = 0%nat \/ max = Some 0%nat)) \/
  (max <> Some 0%nat /\
   exists s1 s2,
     s = s1 ++ s2 /\ (min <> 0%nat \/ s1 <> []) /\
     matches r x s1 (s2 ++ post) /\
     matches (RegExp.Quantified r (pred min) (pred <$> max)) (x + length s1) s2 post).
Proof. inversion 1; subst; [left; auto | right; eauto 10]. Qed.

(** A quantified character class matches the runs of the class whose length
    is within the bounds. *)
Lemma matches_class_run (negated : bool) (ranges : list (N * N)) (s : list N) :
  forall (min : nat) (max : option nat) (x : nat) (post : list N),
    match max with Some k => (min <= k)%nat | None => True end ->
    matches (RegExp.Quantified (RegExp.CharClass negated ranges) min max) x s post <->
    (min <= length s)%nat /\
    match max with Some k => (length s <= k)%nat | None => True end /\
    Forall (fun ch => RegExp.class_matches negated ranges ch = true) s.
Proof.
  induction s as [|ch s IH]; intros min max x post Hwf.
  - split.
    + intros H. apply matches_Quantified_inv in H.
      destruct H as [[_ Hstop]|(_ & s1 & s2 & Hs & _ & H1 & _)].
      * simpl. destruct Hstop as [-> | ->]; [|assert (min = 0%nat) as -> by lia];
          repeat split; try lia; destruct max; auto; lia.
      * apply matches_CharClass_inv in H1. destruct H1 as (c & -> & _).
        discriminate Hs.
    + intros (Hmin & _ & _). simpl in Hmin. constructor. left. lia.
  - split.
    + intros H. apply matches_Quantified_inv in H.
      destruct H as [[Hs _]|(Hmax & s1 & s2 & Hs & _ & H1 & H2)]; [discriminate|].
      apply matches_CharClass_inv in H1. destruct H1 as (c & -> & Hc).
      injection Hs as <- <-.
      apply IH in H2.
      * destruct H2 as (Hmin & Hk & Hall). simpl.
        repeat split; [lia | | now constructor].
        destruct max as [[|k]|]; simpl in *; auto; [congruence | lia].
      * destruct max as [[|k]|]; simpl in *; auto; [congruence | lia].
    + intros (Hmin & Hk & Hall). inversion Hall as [|c l Hc Hall' E]; subst.
      change (ch :: s) with ([ch] ++ s).
      apply matches_Quantified_more.
      * destruct max as [[|k]|]; [simpl in Hk; lia | discriminate | discriminate].
      * right. discriminate.
      * now constructor.
      * apply IH.
        -- destruct max as [[|k]|]; simpl in *; auto; lia.
        -- simpl in *. repeat split; [lia | | exact Hall'].
           destruct max as [[|k]|]; simpl in *; auto; lia.
Qed.

(** *** The character classes of the patterns *)

Lemma in_ranges_app (a b : list (N * N)) (c : N) :
  in_ranges (a ++ b) c = in_ranges a c || in_ranges b c.
Proof. unfold in_ranges. now rewrite existsb_app. Qed.

Lemma in_ranges_chars (s : string) (c : N) :
  in_ranges (RegExp.chars s) c = one_of s c.
Proof.
  unfold RegExp.chars, one_of, in_ranges.
  induction (str s) as [|c0 l IH]; [reflexivity|].
  simpl. rewrite IH.
  destruct (decide (c = c0)) as [->|Hne].
  - rewrite N.leb_refl. simpl.
    symmetry. apply bool_decide_eq_true. constructor.
  - assert (Hout : (c0 <=? c)%N && (c <=? c0)%N = false).
    { apply andb_false_iff.
      destruct (N.leb_spec c0 c); [right | now left].
      apply N.leb_gt. lia. }
    rewrite Hout. simpl.
    apply eq_true_iff_eq. rewrite !bool_decide_eq_true.
    split; [now constructor|]. inversion 1; subst; [congruence | assumption].
Qed.

Lemma phone_class (c : N) :
  RegExp.class_matches false
    (digit_ranges ++ whitespace_ranges ++ RegExp.chars "-()+.") c = phone_char c.
Proof.
  unfold RegExp.class_matches, phone_char, is_digit, is_whitespace.
  now rewrite !in_ranges_app, in_ranges_chars, orb_assoc.
Qed.

Lemma letter_ranges (c : N) :
  in_ranges (RegExp.range "a" "z" ++ RegExp.range "A" "Z") c = is_letter c.
Proof. unfold in_ranges, is_letter. simpl. now rewrite orb_false_r. Qed.

Lemma name_class (c : N) :
  RegExp.class_matches false
    (RegExp.range "a" "z" ++ RegExp.range "A" "Z" ++ whitespace_ranges
     ++ RegExp.chars "-'.") c = name_char c.
Proof.
  unfold RegExp.class_matches, name_char, is_whitespace.
  rewrite app_assoc, in_ranges_app, letter_ranges, in_ranges_app, in_ranges_chars.
  now rewrite orb_assoc.
Qed.

Lemma alnum_class (c : N) :
  RegExp.class_matches false VALIDATION_PATTERNS.alnum c = alnum_char c.
Proof.
  unfold RegExp.class_matches, VALIDATION_PATTERNS.alnum, alnum_char.
  rewrite app_assoc, in_ranges_app, letter_ranges. reflexivity.
Qed.

Lemma local_class (c : N) :
  RegExp.class_matches false
    (VALIDATION_PATTERNS.alnum ++ RegExp.chars ".!#$%&'*+/=?^_`{|}~-") c
  = local_char c.
Proof.
  pose proof (alnum_class c) as Ha.
  change (in_ranges VALIDATION_PATTERNS.alnum c = alnum_char c) in Ha.
  change (in_ranges
            (VALIDATION_PATTERNS.alnum ++ RegExp.chars ".!#$%&'*+/=?^_`{|}~-") c
          = local_char c).
  unfold local_char. now rewrite in_ranges_app, in_ranges_chars, Ha.
Qed.

Lemma label_class (c : N) :
  RegExp.class_matches false (VALIDATION_PATTERNS.alnum ++ RegExp.chars "-") c
  = label_char c.
Proof.
  pose proof (alnum_class c) as Ha.
  change (in_ranges VALIDATION_PATTERNS.alnum c = alnum_char c) in Ha.
  change (in_ranges (VALIDATION_PATTERNS.alnum ++ RegExp.chars "-") c
          = label_char c).
  unfold label_char. now rewrite in_ranges_app, in_ranges_chars, Ha.
Qed.

(** *** Anchored patterns *)

Lemma test_anchored (r : regex) (s : list N) :
  fst (RegExp.test
         (RegExp.literal (RegExp.Seq RegExp.AssertStart (RegExp.Seq r RegExp.AssertEnd)))
         s) = true <->
  matches r 0 s [].
Proof.
  rewrite test_literal. split.
  - intros (i & pre & post & _ & Hd & Hm).
    apply matches_Seq_inv in Hm. destruct Hm as (s1 & s2 & -> & H1 & H2).
    apply matches_AssertStart_inv in H1. destruct H1 as [-> ->].
    apply matches_Seq_inv in H2. destruct H2 as (t1 & t2 & -> & H1 & H2).
    apply matches_AssertEnd_inv in H2. destruct H2 as [-> ->].
    simpl in *. rewrite !app_nil_r in Hd. rewrite drop_0 in Hd. now subst s.
  - intros Hm. exists 0%nat, s, []. split; [lia|].
    split; [now rewrite app_nil_r, drop_0|].
    assert (H2 : matches (RegExp.Seq r RegExp.AssertEnd) 0 (s ++ []) []).
    { apply matches_Seq; [exact Hm | constructor]. }
    rewrite app_nil_r in H2.
    exact (matches_Seq RegExp.AssertStart _ 0 [] s []
             (matches_AssertStart _) H2).
Qed.

Lemma forallb_Forall (f : N -> bool) (l : list N) :
  forallb f l = true <-> Forall (fun c => f c = true) l.
Proof.
  induction l as [|c l IH]; simpl.
  - split; [constructor | reflexivity].
  - rewrite andb_true_iff, IH. split.
    + intros [Hc Hl]. now constructor.
    + inversion 1; subst. auto.
Qed.

Lemma forallb_pointwise (f g : N -> bool) (l : list N) :
  (forall c, f c = g c) -> forallb f l = forallb g l.
Proof. intros H. induction l as [|c l IH]; simpl; [reflexivity | now rewrite H, IH]. Qed.

Lemma test_anchored_class_plus (ranges : list (N * N)) (s : list N) :
  fst (RegExp.test
         (RegExp.literal
            (RegExp.Seq RegExp.AssertStart
               (RegExp.Seq (RegExp.plus (RegExp.class ranges)) RegExp.AssertEnd)))
         s)
  = negb (is_empty s) && forallb (RegExp.class_matches false ranges) s.
Proof.
  apply eq_true_iff_eq. rewrite test_anchored.
  unfold RegExp.plus, RegExp.class.
  rewrite (matches_class_run false ranges s 1 None 0 [] I).
  rewrite andb_true_iff, forallb_Forall.
  destruct s as [|c s]; cbn [is_empty negb length]; split.
  - intros (H & _); lia.
  - intros (H & _); discriminate.
  - intros (_ & _ & H). auto.
  - intros (_ & H). repeat split; [lia | exact H].
Qed.

Lemma PHONE_test (s : list N) :
  fst (RegExp.test VALIDATION_PATTERNS.PHONE s)
  = negb (is_empty s) && forallb phone_char s.
Proof.
  unfold VALIDATION_PATTERNS.PHONE. rewrite test_anchored_class_plus.
  f_equal. apply forallb_pointwise. intros c. apply phone_class.
Qed.

(** X1: the PHONE pattern accepts exactly the non-empty strings made of
    digits, white space and the characters [- ( ) + .] *)
Theorem PHONE_accepts (s : list N) :
  fst (RegExp.test VALIDATION_PATTERNS.PHONE s)
  = negb (is_empty s) && forallb phone_char s.
Proof. intros. eapply PHONE_test; eassumption. Qed.

Lemma NAME_test (s : list N) :
  fst (RegExp.test VALIDATION_PATTERNS.NAME s)
  = negb (is_empty s) && forallb name_char s.
Proof.
  unfold VALIDATION_PATTERNS.NAME. rewrite test_anchored_class_plus.
  f_equal. apply forallb_pointwise. intros c. apply name_class.
Qed.

(** X2: the NAME pattern accepts exactly the non-empty strings made of the
    letters a-z and A-Z, white space and the characters [- ' .] *)
Theorem NAME_accepts (s : list N) :
  fst (RegExp.test VALIDATION_PATTERNS.NAME s)
  = negb (is_empty s) && forallb name_char s.
Proof. intros. eapply NAME_test; eassumption. Qed.

(** *** The phone and name fields *)

Lemma Z_ltb_of_nat (a b : nat) : (Z.of_nat a <? Z.of_nat b)%Z = (a <? b)%nat.
Proof.
  apply eq_true_iff_eq. rewrite Z.ltb_lt, Nat.ltb_lt. lia.
Qed.

Lemma pattern_fails_literal (rules : FieldRuleSet) (r : regex) (v : list N) :
  pattern rules = Some (RegExp.literal r) ->
  fst (pattern_fails rules v) = negb (fst (RegExp.test (RegExp.literal r) v)).
Proof.
  intros Hp. unfold pattern_fails. rewrite Hp.
  now destruct (RegExp.test (RegExp.literal r) v).
Qed.

(** X3: the verdict on a field of type 'tel' under the phone rule set, as a
    function of the trimmed value: required when it is empty, invalid when
    it has a character that is not a digit, white space or one of
    [- ( ) + .], too short below 10 digits, too long above 20 digits, and
    valid otherwise. *)
Theorem phone_field_verdict (field : Field) :
  type field = "tel" ->
  fst (validateField field phone_rules) = phone_verdict (trim (value field)).
Proof.
  intros Htel. unfold phone_verdict.
  destruct (trim (value field)) as [|c v] eqn:Ev.
  - now rewrite validateField_required_empty.
  - rewrite validateField_nonempty by (rewrite Ev; discriminate).
    rewrite Ev, Htel, effective_length_tel. cbn [fst is_empty].
    rewrite (pattern_fails_literal phone_rules _ (c :: v) eq_refl).
    change (RegExp.literal _) with VALIDATION_PATTERNS.PHONE.
    rewrite PHONE_test. cbn [is_empty negb andb].
    destruct (forallb phone_char (c :: v)); cbn [negb]; [|reflexivity].
    unfold verdict_for_length, below_minimum, above_maximum.
    cbn [minLength maxLength phone_rules].
    change 10%Z with (Z.of_nat 10). change 20%Z with (Z.of_nat 20).
    rewrite !Z_ltb_of_nat.
    destruct (digit_count (c :: v) <? 10)%nat; [reflexivity|].
    destruct (20 <? digit_count (c :: v))%nat; reflexivity.
Qed.

Lemma phone_field_verdict_witness :
  type (field_of "phone" "tel" " 555 0100 ") = "tel" /\
  fst (validateField (field_of "phone" "tel" " 555 0100 ") phone_rules)
    = failure "Phone number must be at least 10 digits".
Proof.
  split; [reflexivity|].
  exact (eq_trans (phone_field_verdict (field_of "phone" "tel" " 555 0100 ") eq_refl)
                  eq_refl).
Defined.

(** X4: the verdict on a field that is not of type 'tel' under the name rule
    set, as a function of the trimmed value: required when it is empty,
    invalid when it has a character that is not a letter a-z or A-Z, white
    space or one of [- ' .], too short below 2 characters, too long above
    100, and valid otherwise. *)
Theorem name_field_verdict (field : Field) :
  type field <> "tel" ->
  fst (validateField field name_rules) = name_verdict (trim (value field)).
Proof.
  intros Htel. unfold name_verdict.
  assert (Hlen : forall v, effective_length (type field) v = Z.of_nat (length v)).
  { intros v. unfold effective_length.
    destruct (String.eqb_spec (type field) "tel"); [contradiction | reflexivity]. }
  destruct (trim (value field)) as [|c v] eqn:Ev.
  - now rewrite validateField_required_empty.
  - rewrite validateField_nonempty by (rewrite Ev; discriminate).
    rewrite Ev, Hlen. cbn [fst is_empty].
    rewrite (pattern_fails_literal name_rules _ (c :: v) eq_refl).
    change (RegExp.literal _) with VALIDATION_PATTERNS.NAME.
    rewrite NAME_test. cbn [is_empty negb andb].
    destruct (forallb name_char (c :: v)); cbn [negb]; [|reflexivity].
    unfold verdict_for_length, below_minimum, above_maximum.
    cbn [minLength maxLength name_rules].
    change 2%Z with (Z.of_nat 2). change 100%Z with (Z.of_nat 100).
    rewrite !Z_ltb_of_nat.
    destruct (length (c :: v) <? 2)%nat; [reflexivity|].
    destruct (100 <? length (c :: v))%nat; reflexivity.
Qed.

Lemma name_field_verdict_witness :
  type (field_of "name" "text" "R2-D2") <> "tel" /\
  fst (validateField (field_of "name" "text" "R2-D2") name_rules)
    = failure "Please enter a valid name (letters, spaces, hyphens, and apostrophes only)".
Proof.
  assert (H : type (field_of "name" "text" "R2-D2") <> "tel") by discriminate.
  split; [exact H|].
  exact (eq_trans (name_field_verdict (field_of "name" "text" "R2-D2") H) eq_refl).
Defined.

(** *** The EMAIL pattern *)

Lemma alnum_label_char (c : N) : alnum_char c = true -> label_char c = true.
Proof. unfold label_char. now intros ->. Qed.

Lemma matches_alnum (x : nat) (s post : list N) :
  matches (RegExp.class VALIDATION_PATTERNS.alnum) x s post <->
  exists a, s = [a] /\ alnum_char a = true.
Proof.
  unfold RegExp.class. split.
  - intros H. apply matches_CharClass_inv in H. destruct H as (a & -> & Ha).
    rewrite alnum_class in Ha. eauto.
  - intros (a & -> & Ha). constructor. now rewrite alnum_class.
Qed.

Lemma matches_char (ch : string) (x : nat) (s post : list N) :
  matches (RegExp.class (RegExp.chars ch)) x s post <->
  exists a, s = [a] /\ a ∈ str ch.
Proof.
  unfold RegExp.class, RegExp.class_matches. split.
  - intros H. apply matches_CharClass_inv in H. destruct H as (a & -> & Ha).
    change (in_ranges (RegExp.chars ch) a = true) in Ha.
    rewrite in_ranges_chars in Ha. apply bool_decide_eq_true in Ha. eauto.
  - intros (a & -> & Ha). constructor.
    change (in_ranges (RegExp.chars ch) a = true).
    rewrite in_ranges_chars. now apply bool_decide_eq_true.
Qed.

Lemma Forall_pointwise (f g : N -> bool) (l : list N) :
  (forall c, f c = g c) ->
  Forall (fun c => f c = true) l -> Forall (fun c => g c = true) l.
Proof.
  intros Heq H. eapply Forall_impl; [exact H|].
  intros c Hc. cbv beta in *. now rewrite <- Heq.
Qed.

(** The label part of the pattern matches exactly the labels. *)
Lemma matches_label (x : nat) (s post : list N) :
  matches VALIDATION_PATTERNS.label x s post <-> is_label s.
Proof.
  unfold VALIDATION_PATTERNS.label, RegExp.opt. split.
  - intros H. apply matches_Seq_inv in H. destruct H as (s1 & s2 & -> & H1 & H2).
    apply matches_alnum in H1. destruct H1 as (a & -> & Ha).
    apply matches_Quantified_inv in H2.
    destruct H2 as [[-> _]|(_ & t1 & t2 & -> & _ & Hin & Hend)].
    + repeat split; simpl; try lia; eauto.
      constructor; [now apply alnum_label_char | constructor].
    + apply matches_Quantified_inv in Hend.
      destruct Hend as [[-> _]|(Hmax & _)]; [|now contradiction Hmax].
      rewrite app_nil_r.
      apply matches_Seq_inv in Hin. destruct Hin as (mid & e & -> & Hmid & Hb).
      apply matches_alnum in Hb. destruct Hb as (b & -> & Hb).
      apply matches_class_run in Hmid; [|simpl; lia].
      destruct Hmid as (_ & Hlen & Hall).
      repeat split.
      * simpl. lia.
      * simpl. rewrite length_app. simpl. lia.
      * constructor; [now apply alnum_label_char|].
        apply Forall_app. split.
        -- exact (Forall_pointwise _ _ _ label_class Hall).
        -- constructor; [now apply alnum_label_char | constructor].
      * simpl. eauto.
      * exists b. split; [|exact Hb].
        change ([a] ++ mid ++ [b]) with ((a :: mid) ++ [b]). apply last_snoc.
  - intros ((Hlo & Hhi) & Hall & (a & Hhead & Ha) & (b & Hlast & Hb)).
    destruct s as [|a' t]; [discriminate Hhead|]. injection Hhead as ->.
    change (a :: t) with ([a] ++ t).
    apply matches_Seq; [now apply matches_alnum; eauto|].
    destruct t as [|c t'].
    + constructor. now left.
    + apply last_Some in Hlast. destruct Hlast as (l' & Hl').
      destruct l' as [|a'' mid]; [discriminate Hl'|].
      injection Hl' as <- Ht. rewrite Ht.
      rewrite <- (app_nil_r (mid ++ [b])).
      apply matches_Quantified_more; [discriminate | right | | ].
      * destruct mid; discriminate.
      * apply matches_Seq.
        -- apply matches_class_run; [simpl; lia|].
           assert (Hlen : length (c :: t') = S (length mid)).
           { rewrite Ht, length_app. simpl. lia. }
           simpl in Hhi. simpl in Hlen.
           repeat split; [lia | lia |].
           inversion Hall as [|? ? _ Hall']; subst.
           rewrite Ht in Hall'. apply Forall_app in Hall'.
           destruct Hall' as [Hmid _].
           apply (Forall_pointwise label_char); [|exact Hmid].
           intros c0. symmetry. apply label_class.
        -- apply matches_alnum. eauto.
      * constructor. now right.
Qed.

Lemma join_dots_cons (lab : list N) (labels : list (list N)) :
  join_dots (lab :: labels) = lab ++ concat (map (cons 46%N) labels).
Proof.
  revert lab. induction labels as [|l ls IH]; intros lab.
  - simpl. now rewrite app_nil_r.
  - change (join_dots (lab :: l :: ls)) with (lab ++ str "." ++ join_dots (l :: ls)).
    rewrite IH. reflexivity.
Qed.

(** The repeated group [(?:\.label)*] matches the runs of dotted labels. *)
Lemma matches_dotted_labels (n : nat) :
  forall (t : list N) (x : nat) (post : list N),
    (length t < n)%nat ->
    matches (RegExp.star (RegExp.Seq (RegExp.class (RegExp.chars "."))
                                     VALIDATION_PATTERNS.label)) x t post ->
    exists labels,
      t = concat (map (cons 46%N) labels) /\ Forall is_label labels.
Proof.
  unfold RegExp.star.
  induction n as [|n IH]; intros t x post Hlt H; [lia|].
  apply matches_Quantified_inv in H.
  destruct H as [[-> _]|(_ & s1 & s2 & -> & _ & Hone & Hmore)].
  - exists []. split; [reflexivity | constructor].
  - apply matches_Seq_inv in Hone. destruct Hone as (d & lab & -> & Hd & Hlab).
    apply matches_char in Hd. destruct Hd as (a & -> & Ha).
    apply list_elem_of_singleton in Ha. subst a.
    apply matches_label in Hlab.
    apply IH in Hmore; [|rewrite !length_app in Hlt; simpl in Hlt; lia].
    destruct Hmore as (labels & -> & Hall).
    exists (lab :: labels). split; [reflexivity | now constructor].
Qed.

Lemma dotted_labels_match (labels : list (list N)) :
  Forall is_label labels ->
  forall (x : nat) (post : list N),
    matches (RegExp.star (RegExp.Seq (RegExp.class (RegExp.chars "."))
                                     VALIDATION_PATTERNS.label))
      x (concat (map (cons 46%N) labels)) post.
Proof.
  unfold RegExp.star.
  induction 1 as [|lab labels Hlab _ IH]; intros x post.
  - constructor. now left.
  - simpl concat. change (46%N :: lab ++ concat (map (cons 46%N) labels))
      with ((46%N :: lab) ++ concat (map (cons 46%N) labels)).
    apply matches_Quantified_more; [discriminate | right; discriminate | | apply IH].
    change (46%N :: lab) with ([46%N] ++ lab).
    apply matches_Seq.
    + apply matches_char. exists 46%N. split; [reflexivity | constructor].
    + now apply matches_label.
Qed.

Lemma EMAIL_test (s : list N) :
  fst (RegExp.test VALIDATION_PATTERNS.EMAIL s) = true <-> email_shape s.
Proof.
  unfold VALIDATION_PATTERNS.EMAIL. rewrite test_literal. unfold email_shape.
  split.
  - intros (i & pre & post & _ & Hd & Hm).
    apply matches_Seq_inv in Hm. destruct Hm as (s0 & s1 & -> & H0 & Hm).
    apply matches_AssertStart_inv in H0. destruct H0 as [-> ->].
    rewrite drop_0 in Hd. subst s.
    apply matches_Seq_inv in Hm. destruct Hm as (loc & s2 & -> & Hloc & Hm).
    apply matches_Seq_inv in Hm. destruct Hm as (at_ & s3 & -> & Hat & Hm).
    apply matches_Seq_inv in Hm. destruct Hm as (lab & s4 & -> & Hlab & Hm).
    apply matches_Seq_inv in Hm. destruct Hm as (dots & s5 & -> & Hdots & Hend).
    apply matches_AssertEnd_inv in Hend. destruct Hend as [-> ->].
    apply (matches_class_run _ _ _ 1 None _ _ I) in Hloc.
    destruct Hloc as (Hlen & _ & Hall).
    apply matches_char in Hat. destruct Hat as (a & -> & Ha).
    apply list_elem_of_singleton in Ha. subst a.
    apply matches_label in Hlab.
    apply (matches_dotted_labels (S (length dots))) in Hdots; [|lia].
    destruct Hdots as (labels & -> & Hlabels).
    exists loc, (lab :: labels). rewrite join_dots_cons, !app_nil_r. simpl.
    repeat split.
    + destruct loc; [simpl in Hlen; lia | discriminate].
    + exact (Forall_pointwise _ _ _ local_class Hall).
    + discriminate.
    + now constructor.
  - intros (loc & labels & -> & Hne & Hall & Hlabels & Hlab).
    destruct Hlab as [|lab labels' Hlab Hrest]; [congruence|].
    rewrite join_dots_cons.
    exists 0%nat, (loc ++ str "@" ++ lab ++ concat (map (cons 46%N) labels')), [].
    split; [lia|]. split; [now rewrite drop_0, app_nil_r|].
    apply (matches_Seq _ _ 0 [] _ []); [constructor|].
    apply matches_Seq.
    { apply (matches_class_run _ _ _ 1 None _ _ I).
      repeat split.
      - destruct loc; [congruence | simpl; lia].
      - apply (Forall_pointwise local_char); [|exact Hall].
        intros c. symmetry. apply local_class. }
    apply matches_Seq.
    { apply matches_char. exists 64%N. split; [reflexivity | constructor]. }
    apply matches_Seq; [now apply matches_label|].
    rewrite <- (app_nil_r (concat _)).
    apply matches_Seq; [now apply dotted_labels_match | constructor].
Qed.

(** X5: the EMAIL pattern accepts exactly the strings made of a non-empty
    local part of letters, digits and the listed punctuation, an [@], and
    one or more labels joined by dots, each of 1 to 63 letters, digits and
    hyphens with no hyphen first or last. A single label is enough: no dot
    is needed after the [@]. *)
Theorem EMAIL_accepts (s : list N) :
  fst (RegExp.test VALIDATION_PATTERNS.EMAIL s) = true <-> email_shape s.
Proof. intros. eapply EMAIL_test; eassumption. Qed.

Lemma email_shape_nonempty (s : list N) : email_shape s -> s <> [].
Proof.
  intros (loc & labels & -> & Hne & _). destruct loc; [congruence | discriminate].
Qed.

(** X6: the verdict on a field that is not of type 'tel' under the email
    rule set: required when the trimmed value is empty, invalid when it is
    not of the shape the EMAIL pattern accepts, too long when it has the
    shape and more than 254 characters, and valid otherwise. *)
Theorem email_field_verdict (field : Field) :
  type field <> "tel" ->
  (trim (value field) = [] ->
   fst (validateField field email_rules) = failure "This field is required") /\
  (trim (value field) <> [] -> ~ email_shape (trim (value field)) ->
   fst (validateField field email_rules)
     = failure "Please enter a valid email address") /\
  (email_shape (trim (value field)) -> (254 < length (trim (value field)))%nat ->
   fst (validateField field email_rules)
     = failure "Email must not exceed 254 characters") /\
  (email_shape (trim (value field)) -> (length (trim (value field)) <= 254)%nat ->
   fst (validateField field email_rules) = valid).
Proof.
  intros Htel.
  assert (Hlen : forall v, effective_length (type field) v = Z.of_nat (length v)).
  { intros v. unfold effective_length.
    destruct (String.eqb_spec (type field) "tel"); [contradiction | reflexivity]. }
  assert (Hrun : trim (value field) <> [] ->
            fst (validateField field email_rules) =
              if negb (fst (RegExp.test VALIDATION_PATTERNS.EMAIL (trim (value field))))
              then failure "Please enter a valid email address"
              else if (254 <? length (trim (value field)))%nat
                   then failure "Email must not exceed 254 characters"
                   else valid).
  { intros Hne. rewrite validateField_nonempty by exact Hne.
    rewrite Hlen. cbn [fst].
    rewrite (pattern_fails_literal email_rules _ _ eq_refl).
    change (RegExp.literal _) with VALIDATION_PATTERNS.EMAIL.
    destruct (fst (RegExp.test VALIDATION_PATTERNS.EMAIL (trim (value field))));
      cbn [negb]; [|reflexivity].
    unfold verdict_for_length, below_minimum, above_maximum.
    cbn [minLength maxLength email_rules].
    change 254%Z with (Z.of_nat 254). rewrite Z_ltb_of_nat.
    now destruct (254 <? length (trim (value field)))%nat. }
  repeat split.
  - intros Hv. now rewrite validateField_required_empty.
  - intros Hne Hshape. rewrite (Hrun Hne).
    destruct (fst (RegExp.test VALIDATION_PATTERNS.EMAIL (trim (value field)))) eqn:Ht;
      [|reflexivity].
    apply EMAIL_test in Ht. contradiction.
  - intros Hshape Hlong. rewrite (Hrun (email_shape_nonempty _ Hshape)).
    apply EMAIL_test in Hshape. rewrite Hshape. cbn [negb].
    apply Nat.ltb_lt in Hlong. now rewrite Hlong.
  - intros Hshape Hshort. rewrite (Hrun (email_shape_nonempty _ Hshape)).
    apply EMAIL_test in Hshape. rewrite Hshape. cbn [negb].
    apply Nat.leb_le in Hshort. rewrite Nat.ltb_antisym, Hshort. reflexivity.
Qed.

Lemma email_field_verdict_witness :
  type (field_of "email" "email" "info@thermocool") <> "tel" /\
  email_shape (trim (value (field_of "email" "email" "info@thermocool"))) /\
  fst (validateField (field_of "email" "email" "info@thermocool") email_rules) = valid.
Proof.
  assert (Htel : type (field_of "email" "email" "info@thermocool") <> "tel")
    by discriminate.
  assert (Hshape : email_shape (trim (value (field_of "email" "email" "info@thermocool")))).
  { exists (str "info"), [str "thermocool"].
    split; [reflexivity|]. split; [vm_compute; discriminate|].
    split; [vm_compute; repeat constructor|]. split; [discriminate|].
    constructor; [|constructor].
    repeat split; try (vm_compute; lia);
      [vm_compute; repeat constructor | vm_compute; eauto | vm_compute; eauto]. }
  split; [exact Htel|]. split; [exact Hshape|].
  apply (proj2 (proj2 (proj2 (email_field_verdict _ Htel))) Hshape).
  vm_compute. lia.
Defined.

(** *** White space around the value *)

Lemma drop_while_app_all (p : N -> bool) (ws s : list N) :
  Forall (fun c => p c = true) ws -> drop_while p (ws ++ s) = drop_while p s.
Proof.
  induction 1 as [|c ws Hc _ IH]; simpl; [reflexivity | now rewrite Hc].
Qed.

Lemma drop_while_app_some (p : N -> bool) (s t : list N) :
  drop_while p s <> [] -> drop_while p (s ++ t) = drop_while p s ++ t.
Proof.
  induction s as [|c s IH]; simpl; [congruence|].
  destruct (p c); [exact IH | reflexivity].
Qed.

Lemma trim_padding (ws1 v ws2 : list N) :
  whitespace_only ws1 -> whitespace_only ws2 ->
  trim (ws1 ++ v ++ ws2) = trim v.
Proof.
  intros H1 H2. unfold trim.
  rewrite (drop_while_app_all _ _ _ H1).
  destruct (drop_while is_whitespace v) as [|c v'] eqn:Ev.
  - assert (Hall : drop_while is_whitespace (v ++ ws2) = []).
    { clear H1. induction v as [|c v IH]; simpl in *.
      - now apply drop_while_all.
      - destruct (is_whitespace c); [auto | discriminate]. }
    now rewrite Hall.
  - rewrite drop_while_app_some by (rewrite Ev; discriminate).
    rewrite Ev, rev_app_distr.
    rewrite drop_while_app_all; [reflexivity|].
    apply Forall_forall. intros c0 Hc0.
    apply list_elem_of_In, in_rev, list_elem_of_In in Hc0.
    exact (proj1 (Forall_forall _ _) H2 c0 Hc0).
Qed.

(** X7: white space before and after the value never changes the outcome:
    for every rule set, a field whose value is padded with white space gets
    the result of the field with the bare value. *)
Theorem validateField_ignores_padding
    (n t : string) (ws1 v ws2 : list N) (rules : FieldRuleSet) :
  whitespace_only ws1 -> whitespace_only ws2 ->
  validateField {| name := n; type := t; value := ws1 ++ v ++ ws2 |} rules
  = validateField {| name := n; type := t; value := v |} rules.
Proof.
  intros H1 H2. unfold validateField. cbn [value type].
  now rewrite (trim_padding ws1 v ws2 H1 H2).
Qed.

Lemma validateField_ignores_padding_witness :
  whitespace_only (str "  ") /\ whitespace_only [9%N; 160%N] /\
  validateField
    {| name := "name"; type := "text"; value := str "  " ++ str "Ada" ++ [9%N; 160%N] |}
    name_rules
  = validateField {| name := "name"; type := "text"; value := str "Ada" |} name_rules.
Proof.
  assert (H1 : whitespace_only (str "  ")) by repeat constructor.
  assert (H2 : whitespace_only [9%N; 160%N]) by repeat constructor.
  split; [exact H1|]. split; [exact H2|].
  exact (validateField_ignores_padding "name" "text" _ (str "Ada") _ name_rules H1 H2).
Defined.

(** ** debounce *)

Section DebounceFacts.
Import Debounce.
Context {A : Type} (wait : nat).

Lemma one_timer_step (st : state A) (e : event A) :
  one_timer A st -> one_timer A (step A wait st e).
Proof.
  unfold one_timer. intros Hinv. destruct e as [a|h|dt]; simpl.
  - unfold executedFunction, clearTimeout, setTimeout. simpl.
    destruct (timeout A st) as [h|]; simpl.
    + destruct Hinv as (due & a0 & ->). rewrite delete_singleton_eq.
      eexists _, _. apply insert_empty.
    + rewrite Hinv. eexists _, _. apply insert_empty.
  - unfold fire.
    destruct (timers A st !! h) as [[due a]|] eqn:Hh; [|exact Hinv].
    destruct (due <=? now A st)%nat; [|exact Hinv]. simpl.
    destruct (timeout A st) as [h'|].
    + destruct Hinv as (due' & a' & Heq). rewrite Heq in Hh |- *.
      apply lookup_singleton_Some in Hh. destruct Hh as [-> _].
      apply delete_singleton_eq.
    + rewrite Hinv in Hh. rewrite lookup_empty in Hh. discriminate.
  - exact Hinv.
Qed.

Lemma reachable_keeps_one_timer (st : state A) :
  reachable A wait st -> one_timer A st /\ (size (timers A st) <= 1)%nat.
Proof.
  intros (t0 & h0 & es & ->).
  assert (Hinv : one_timer A (run A wait (initial A t0 h0) es)).
  { unfold run. generalize (initial A t0 h0) (eq_refl : one_timer A (initial A t0 h0)).
    induction es as [|e es IH]; intros st Hst; simpl; [exact Hst|].
    apply IH. now apply one_timer_step. }
  split; [exact Hinv|].
  unfold one_timer in Hinv.
  destruct (timeout A (run A wait (initial A t0 h0) es)).
  - destruct Hinv as (due & a & ->). now rewrite map_size_singleton.
  - rewrite Hinv, map_size_empty. lia.
Qed.

(** X8: the closure of a debounced function never has more than one timer
    active: after any sequence of calls, timer runs and passages of time,
    the active timers are the one that [timeout] names, or none. *)
Theorem debounce_keeps_one_timer (st : state A) :
  reachable A wait st -> one_timer A st /\ (size (timers A st) <= 1)%nat.
Proof. intros. eapply reachable_keeps_one_timer; eassumption. Qed.


End DebounceFacts.

Lemma debounce_keeps_one_timer_witness :
  Debounce.reachable string 500
    (Debounce.run string 500 (Debounce.initial string 0 1)
       [Debounce.Call string "a"; Debounce.Advance string 100;
        Debounce.Call string "ab"]) /\
  Debounce.timers string
    (Debounce.run string 500 (Debounce.initial string 0 1)
       [Debounce.Call string "a"; Debounce.Advance string 100;
        Debounce.Call string "ab"])
  = {[2%nat := (600%nat, "ab")]}.
Proof.
  split; [eexists _, _, _; reflexivity|].
  destruct (debounce_keeps_one_timer 500
              (Debounce.run string 500 (Debounce.initial string 0 1)
                 [Debounce.Call string "a"; Debounce.Advance string 100;
                  Debounce.Call string "ab"])
              (ex_intro _ 0%nat (ex_intro _ 1%nat
                 (ex_intro _ [Debounce.Call string "a"; Debounce.Advance string 100;
                              Debounce.Call string "ab"] eq_refl))))
    as [(due & a & Heq) _].
  rewrite Heq.
  assert (Hl : Debounce.timers string
                 (Debounce.run string 500 (Debounce.initial string 0 1)
                    [Debounce.Call string "a"; Debounce.Advance string 100;
                     Debounce.Call string "ab"]) !! 2%nat = Some (600%nat, "ab")).
  { vm_compute. reflexivity. }
  rewrite Heq in Hl. simpl in Hl. rewrite lookup_singleton_eq in Hl.
  now injection Hl as -> ->.
Defined.


(** ** The document: showError and clearError *)

Section DomFacts.
Import Dom.

Lemma append_error_nonempty (s : string) : String.append s "-error" <> "".
Proof. destruct s; discriminate. Qed.

Lemma error_id_nonempty (f : FieldElement) (e : ErrorElement) : error_id f e <> "".
Proof.
  unfold error_id. destruct (String.eqb_spec (element_id e) "") as [He|He].
  - apply append_error_nonempty.
  - exact He.
Qed.

Lemma get_container_set (c : nat) (box : Container) (doc : Document) :
  get_container (set_container c box doc) c = box.
Proof. unfold get_container, set_container. simpl. now rewrite lookup_insert_eq. Qed.

Lemma get_container_set_ne (c c' : nat) (box : Container) (doc : Document) :
  c <> c' -> get_container (set_container c box doc) c' = get_container doc c'.
Proof.
  intros Hne. unfold get_container, set_container. simpl.
  now rewrite lookup_insert_ne.
Qed.

Lemma showError_effect
    (i : nat) (errorMessage : ErrorValue) (doc : Document) (f : FieldElement) :
  fields doc !! i = Some f ->
  exists (shown : ErrorElement) (f' : FieldElement),
    get_container (showError i errorMessage doc) (container f)
      = {| has_error := true; error_message := Some shown |} /\
    textContent shown = text_of errorMessage /\
    style_display shown = "block" /\
    element_id shown <> "" /\
    fields (showError i errorMessage doc) !! i = Some f' /\
    aria_describedby f' = Some (element_id shown) /\
    aria_invalid f' = Some "true" /\
    field_error f' = true /\
    field f' = field f /\ container f' = container f.
Proof.
  intros Hi. unfold showError. rewrite Hi. cbv zeta.
  set (e0 := match error_message (get_container doc (container f)) with
             | Some e => e
             | None => created_span
             end).
  exists {| element_id := error_id f e0; textContent := text_of errorMessage;
            style_display := "block"; role := role e0; aria_live := aria_live e0 |},
         {| field := field f; field_id := field_id f; container := container f;
            aria_invalid := Some "true"; aria_describedby := Some (error_id f e0);
            field_error := true; focusable := focusable f;
            listening := listening f; defaultValue := defaultValue f |}.
  rewrite get_container_set. simpl.
  repeat split; try apply error_id_nonempty.
  apply list_lookup_insert_eq. now apply lookup_lt_Some in Hi.
Qed.

(** X10: showError links the field to the element that shows its message:
    after the call the container of the field has an error element with
    the message as text, displayed as a block, with a non-empty id, and the
    field has aria-invalid "true", aria-describedby equal to that id and
    the class field-error; the container has the class has-error. *)
Theorem showError_links_field_to_message
    (i : nat) (errorMessage : ErrorValue) (doc : Document) (f : FieldElement) :
  fields doc !! i = Some f ->
  exists (shown : ErrorElement) (f' : FieldElement),
    get_container (showError i errorMessage doc) (container f)
      = {| has_error := true; error_message := Some shown |} /\
    textContent shown = text_of errorMessage /\
    style_display shown = "block" /\
    element_id shown <> "" /\
    fields (showError i errorMessage doc) !! i = Some f' /\
    aria_describedby f' = Some (element_id shown) /\
    aria_invalid f' = Some "true" /\
    field_error f' = true /\
    field f' = field f /\ container f' = container f.
Proof. intros. eapply showError_effect; eassumption. Qed.

Lemma showError_links_field_to_message_witness :
  exists (shown : ErrorElement),
    get_container
      (showError 0 (Message "This field is required")
         {| fields := [ {| field := field_of "name" "text" "";
                           field_id := "name"; container := 0;
                           aria_invalid := None; aria_describedby := None;
                           field_error := false; focusable := true;
                           listening := true; defaultValue := [] |} ];
            containers := ∅; activeElement := None;
            success_message := None; reset_timers := 0 |}) 0
      = {| has_error := true; error_message := Some shown |} /\
    element_id shown = "name-error" /\
    textContent shown = "This field is required".
Proof.
  destruct (showError_links_field_to_message 0 (Message "This field is required")
              {| fields := [ {| field := field_of "name" "text" "";
                                field_id := "name"; container := 0;
                                aria_invalid := None; aria_describedby := None;
                                field_error := false; focusable := true;
                                listening := true; defaultValue := [] |} ];
                 containers := ∅; activeElement := None;
                 success_message := None; reset_timers := 0 |}
              _ eq_refl) as (shown & f' & Hbox & Htext & _).
  exists shown. split; [exact Hbox|].
  split; [|exact Htext].
  vm_compute in Hbox. now injection Hbox as <-.
Defined.

(** *** What the functions leave alone *)

Lemma static_set_field (i : nat) (f f' : FieldElement) (doc : Document) :
  fields doc !! i = Some f -> static f' = static f ->
  map static (fields (set_field i f' doc)) = map static (fields doc).
Proof.
  intros Hi Hs. simpl. rewrite list_fmap_insert, Hs.
  apply list_insert_id. now rewrite list_lookup_fmap, Hi.
Qed.

Lemma static_showError (i : nat) (e : ErrorValue) (doc : Document) :
  map static (fields (showError i e doc)) = map static (fields doc).
Proof.
  unfold showError. destruct (fields doc !! i) as [f|] eqn:Hi; [|reflexivity].
  cbv zeta. now apply (static_set_field i f).
Qed.

Lemma static_clearError (i : nat) (doc : Document) :
  map static (fields (clearError i doc)) = map static (fields doc).
Proof.
  unfold clearError. destruct (fields doc !! i) as [f|] eqn:Hi; [|reflexivity].
  cbv zeta. now apply (static_set_field i f).
Qed.

Lemma static_validateAndDisplayError (i : nat) (doc : Document) :
  map static (fields (snd (Dom.validateAndDisplayError i doc)))
  = map static (fields doc).
Proof.
  unfold Dom.validateAndDisplayError.
  destruct (fields doc !! i) as [f|]; [|reflexivity].
  destruct (FIELD_RULES_get (name (field f))) as [rules|]; [|reflexivity].
  destruct (negb (isValid (fst (validateField (field f) rules)))); simpl.
  - apply static_showError.
  - apply static_clearError.
Qed.

Lemma static_focus (i : nat) (doc : Document) :
  map static (fields (focus i doc)) = map static (fields doc).
Proof.
  unfold focus. destruct (fields doc !! i) as [f|]; [|reflexivity].
  destruct (negb (focusable f)); [reflexivity|].
  destruct (bool_decide (activeElement doc = Some i)); [reflexivity|].
  assert (Hblur : map static
            (fields match activeElement doc with
                    | Some j => on_blur j doc
                    | None => doc
                    end) = map static (fields doc)).
  { destruct (activeElement doc) as [j|]; [|reflexivity].
    unfold on_blur. destruct (fields doc !! j) as [g|]; [|reflexivity].
    destruct (listening g); [apply static_validateAndDisplayError | reflexivity]. }
  unfold on_focus.
  match goal with
  | |- context [fields (set_activeElement ?a ?d) !! i] =>
      change (fields (set_activeElement a d)) with (fields d)
  end.
  match goal with
  | |- context [match ?x with Some _ => _ | None => _ end] =>
      destruct x as [g|]
  end; [|exact Hblur].
  destruct (listening g && is_empty (value (field g))); [|exact Hblur].
  rewrite static_clearError. exact Hblur.
Qed.

Lemma static_lookup (doc doc' : Document) (i : nat) (f : FieldElement) :
  map static (fields doc') = map static (fields doc) ->
  fields doc !! i = Some f ->
  exists f', fields doc' !! i = Some f' /\ static f' = static f.
Proof.
  intros Hs Hi.
  assert (H : map static (fields doc') !! i = Some (static f)).
  { rewrite Hs, list_lookup_fmap, Hi. reflexivity. }
  rewrite list_lookup_fmap in H.
  destruct (fields doc' !! i) as [f'|]; [|discriminate].
  exists f'. split; [reflexivity | simpl in H; congruence].
Qed.

(** *** The verdict of validateForm on the document *)

Lemma field_passes_get (fld : Field) :
  match FIELD_RULES_get (name fld) with
  | Some rules => isValid (fst (validateField fld rules))
  | None => true
  end = field_passes fld.
Proof.
  unfold field_passes, FIELD_RULES_get.
  destruct (FIELD_RULES !! name fld) as [rules|]; [reflexivity|].
  destruct (bool_decide (name fld ∈ Object_prototype_names)); [|reflexivity].
  now rewrite inherited_member_valid.
Qed.

Lemma validateAndDisplayError_result (i : nat) (doc : Document) (f : FieldElement) :
  fields doc !! i = Some f ->
  fst (Dom.validateAndDisplayError i doc) = field_passes (field f).
Proof.
  intros Hi. unfold Dom.validateAndDisplayError. rewrite Hi.
  rewrite <- field_passes_get.
  destruct (FIELD_RULES_get (name (field f))) as [rules|]; [|reflexivity].
  now destruct (isValid (fst (validateField (field f) rules))).
Qed.

Lemma callback_result (i : nat) (b : bool) (doc : Document) :
  fst (Dom.validateForm_callback i (b, doc))
  = b && match fields doc !! i with
         | Some f => field_passes (field f)
         | None => true
         end.
Proof.
  unfold Dom.validateForm_callback.
  destruct (fields doc !! i) as [f|] eqn:Hi; [|now rewrite andb_true_r].
  pose proof (validateAndDisplayError_result i doc f Hi) as Hres.
  destruct (negb (String.eqb (name (field f)) "")
            && bool_decide (is_Some (FIELD_RULES_get (name (field f))))) eqn:Hreg.
  - destruct (Dom.validateAndDisplayError i doc) as [ok doc']. simpl in Hres.
    subst ok. destruct (field_passes (field f)); simpl;
      [now rewrite andb_true_r | now rewrite andb_false_r].
  - simpl. rewrite <- field_passes_get.
    apply andb_false_iff in Hreg. destruct Hreg as [Hname|Hnone].
    + apply negb_false_iff, String.eqb_eq in Hname. rewrite Hname.
      now rewrite andb_true_r.
    + apply bool_decide_eq_false in Hnone.
      destruct (FIELD_RULES_get (name (field f))); [|now rewrite andb_true_r].
      exfalso. apply Hnone. eauto.
Qed.

Lemma callback_static (i : nat) (b : bool) (doc : Document) :
  map static (fields (snd (Dom.validateForm_callback i (b, doc))))
  = map static (fields doc).
Proof.
  unfold Dom.validateForm_callback.
  destruct (fields doc !! i) as [f|]; [|reflexivity].
  destruct (negb (String.eqb (name (field f)) "")
            && bool_decide (is_Some (FIELD_RULES_get (name (field f)))));
    [|reflexivity].
  pose proof (static_validateAndDisplayError i doc) as Hs.
  destruct (Dom.validateAndDisplayError i doc) as [ok doc']. simpl in Hs.
  destruct (negb ok); simpl; [|exact Hs].
  destruct (i =? 0)%nat; [|exact Hs]. now rewrite static_focus.
Qed.

Lemma static_passes (doc doc' : Document) (i : nat) :
  map static (fields doc') = map static (fields doc) ->
  match fields doc' !! i with Some f => field_passes (field f) | None => true end
  = match fields doc !! i with Some f => field_passes (field f) | None => true end.
Proof.
  intros Hs.
  assert (H : map static (fields doc') !! i = map static (fields doc) !! i)
    by now rewrite Hs.
  rewrite !list_lookup_fmap in H.
  destruct (fields doc' !! i) as [f'|], (fields doc !! i) as [f|];
    simpl in H; try discriminate; [|reflexivity].
  unfold static in H. now injection H as -> _ _ _ _.
Qed.

Lemma forallb_congr {T : Type} (g h : T -> bool) (l : list T) :
  (forall x, g x = h x) -> forallb g l = forallb h l.
Proof. intros H. induction l as [|x l IH]; simpl; [reflexivity | now rewrite H, IH]. Qed.

Lemma foldl_callback (l : list nat) :
  forall (b : bool) (doc : Document),
    fst (foldl (fun st i => Dom.validateForm_callback i st) (b, doc) l)
    = b && forallb (fun i => match fields doc !! i with
                             | Some f => field_passes (field f)
                             | None => true
                             end) l /\
    map static (fields (snd (foldl (fun st i => Dom.validateForm_callback i st)
                                   (b, doc) l)))
    = map static (fields doc).
Proof.
  induction l as [|i l IH]; intros b doc; cbn [foldl forallb fst snd].
  - now rewrite andb_true_r.
  - pose proof (callback_result i b doc) as Hres.
    pose proof (callback_static i b doc) as Hs.
    destruct (Dom.validateForm_callback i (b, doc)) as [b' doc'].
    simpl in Hres, Hs. destruct (IH b' doc') as [IH1 IH2].
    split; [|now rewrite IH2].
    rewrite IH1, Hres, <- andb_assoc. f_equal. f_equal.
    apply forallb_congr. intros j. now apply static_passes.
Qed.

Lemma forallb_seq_lookup (g : FieldElement -> bool) (fs : list FieldElement) :
  forall k : nat,
    forallb (fun i => match fs !! (i - k)%nat with
                      | Some f => g f
                      | None => true
                      end) (seq k (length fs))
    = forallb g fs.
Proof.
  induction fs as [|f fs IH]; intros k; [reflexivity|].
  simpl. rewrite Nat.sub_diag. simpl. f_equal.
  rewrite <- (IH (S k)).
  apply eq_true_iff_eq. rewrite !forallb_forall.
  split; intros H i Hi; specialize (H i Hi); apply in_seq in Hi;
    replace (i - k)%nat with (S (i - S k)) in * by lia; exact H.
Qed.

Lemma validateForm_result (doc : Document) :
  fst (Dom.validateForm doc) = forallb field_passes (map field (fields doc)).
Proof.
  unfold Dom.validateForm.
  rewrite (proj1 (foldl_callback _ true doc)). cbn [andb].
  transitivity (forallb (fun f => field_passes (field f)) (fields doc)).
  - rewrite <- (forallb_seq_lookup (fun f => field_passes (field f)) (fields doc) 0).
    apply forallb_congr. intros i. now rewrite Nat.sub_0_r.
  - induction (fields doc) as [|f fs IH]; simpl; [reflexivity | now rewrite IH].
Qed.

(** X11: the value that validateForm returns depends on the names, types
    and values of the fields alone: it is true exactly when every field
    passes under its registered rule set, whatever the focus, the listeners
    and the state of the error display are. *)
Theorem validateForm_verdict_on_document (doc : Document) :
  fst (Dom.validateForm doc) = forallb field_passes (map field (fields doc)).
Proof. intros. eapply validateForm_result; eassumption. Qed.

(** *** The other fields *)

Lemma showError_other (i j : nat) (e : ErrorValue) (doc : Document) :
  i <> j -> fields (showError j e doc) !! i = fields doc !! i.
Proof.
  intros Hne. unfold showError. destruct (fields doc !! j); [|reflexivity].
  simpl. now apply list_lookup_insert_ne.
Qed.

Lemma clearError_other (i j : nat) (doc : Document) :
  i <> j -> fields (clearError j doc) !! i = fields doc !! i.
Proof.
  intros Hne. unfold clearError. destruct (fields doc !! j); [|reflexivity].
  simpl. now apply list_lookup_insert_ne.
Qed.

Lemma validateAndDisplayError_other (i j : nat) (doc : Document) :
  i <> j ->
  fields (snd (Dom.validateAndDisplayError j doc)) !! i = fields doc !! i.
Proof.
  intros Hne. unfold Dom.validateAndDisplayError.
  destruct (fields doc !! j) as [f|]; [|reflexivity].
  destruct (FIELD_RULES_get (name (field f))) as [rules|]; [|reflexivity].
  destruct (negb (isValid (fst (validateField (field f) rules)))); simpl.
  - now apply showError_other.
  - now apply clearError_other.
Qed.

Lemma callback_other (i j : nat) (b : bool) (doc : Document) :
  i <> j -> j <> 0%nat ->
  fields (snd (Dom.validateForm_callback j (b, doc))) !! i = fields doc !! i.
Proof.
  intros Hne Hj. unfold Dom.validateForm_callback.
  destruct (fields doc !! j) as [f|]; [|reflexivity].
  destruct (negb (String.eqb (name (field f)) "")
            && bool_decide (is_Some (FIELD_RULES_get (name (field f)))));
    [|reflexivity].
  pose proof (validateAndDisplayError_other i j doc Hne) as Hs.
  destruct (Dom.validateAndDisplayError j doc) as [ok doc']. simpl in Hs.
  apply Nat.eqb_neq in Hj. rewrite Hj.
  now destruct (negb ok).
Qed.

Lemma foldl_callback_other (i : nat) (l : list nat) :
  Forall (fun j => i <> j /\ j <> 0%nat) l ->
  forall (b : bool) (doc : Document),
    fields (snd (foldl (fun st j => Dom.validateForm_callback j st) (b, doc) l)) !! i
    = fields doc !! i.
Proof.
  induction 1 as [|j l [Hne Hj] _ IH]; intros b doc; cbn [foldl]; [reflexivity|].
  pose proof (callback_other i j b doc Hne Hj) as Hs.
  destruct (Dom.validateForm_callback j (b, doc)) as [b' doc']. simpl in Hs.
  now rewrite IH.
Qed.

Lemma FIELD_RULES_required (n : string) (rules : FieldRuleSet) :
  FIELD_RULES !! n = Some rules -> required rules = true.
Proof.
  intros H.
  destruct (FIELD_RULES_entries n rules H)
    as [[_ ->]|[[_ ->]|[[_ ->]|[[_ ->]|[_ ->]]]]]; reflexivity.
Qed.

Lemma empty_registered_field_fails (fld : Field) (rules : FieldRuleSet) :
  FIELD_RULES !! name fld = Some rules -> value fld = [] ->
  field_passes fld = false.
Proof.
  intros Hown Hv. unfold field_passes. rewrite Hown.
  rewrite validateField_required_empty;
    [reflexivity | now apply (FIELD_RULES_required (name fld)) | now rewrite Hv].
Qed.

(** What the focus event does to an empty field that listens. *)
Lemma focus_clears_empty_field (i : nat) (doc : Document) (f : FieldElement) :
  fields doc !! i = Some f ->
  focusable f = true -> listening f = true -> value (field f) = [] ->
  activeElement doc <> Some i ->
  activeElement (focus i doc) = Some i /\
  exists f',
    fields (focus i doc) !! i = Some f' /\
    field_error f' = false /\ aria_invalid f' = Some "false" /\
    aria_describedby f' = None.
Proof.
  intros Hi Hfoc Hlis Hval Hact. unfold focus. rewrite Hi, Hfoc. simpl negb.
  rewrite bool_decide_eq_false_2 by exact Hact. cbv iota.
  set (doc1 := match activeElement doc with
               | Some j => on_blur j doc
               | None => doc
               end).
  assert (Hs : map static (fields doc1) = map static (fields doc)).
  { unfold doc1. destruct (activeElement doc) as [j|]; [|reflexivity].
    unfold on_blur. destruct (fields doc !! j) as [g|]; [|reflexivity].
    destruct (listening g); [apply static_validateAndDisplayError | reflexivity]. }
  destruct (static_lookup doc doc1 i f Hs Hi) as (g & Hg & Hsg).
  unfold static in Hsg. injection Hsg as Hfld _ _ _ Hl.
  unfold on_focus.
  change (fields (set_activeElement (Some i) doc1)) with (fields doc1).
  rewrite Hg, Hl, Hlis, Hfld, Hval. simpl.
  unfold clearError.
  change (fields (set_activeElement (Some i) doc1)) with (fields doc1).
  rewrite Hg. simpl. split; [reflexivity|].
  eexists. split; [apply list_lookup_insert_eq; now apply lookup_lt_Some in Hg|].
  simpl. auto.
Qed.

(** X12: when validateForm finds the first field of the form empty and
    moves the focus to it, the focus listener of that field clears the
    error that was just shown: validateForm returns false, and the field is
    left without the class field-error, with aria-invalid "false" and no
    aria-describedby. *)
Theorem validateForm_clears_first_empty_field
    (doc : Document) (f0 : FieldElement) (rules : FieldRuleSet) :
  fields doc !! 0%nat = Some f0 ->
  FIELD_RULES !! name (field f0) = Some rules ->
  value (field f0) = [] ->
  focusable f0 = true -> listening f0 = true ->
  activeElement doc <> Some 0%nat ->
  fst (Dom.validateForm doc) = false /\
  exists f0',
    fields (snd (Dom.validateForm doc)) !! 0%nat = Some f0' /\
    field_error f0' = false /\ aria_invalid f0' = Some "false" /\
    aria_describedby f0' = None.
Proof.
  intros H0 Hown Hval Hfoc Hlis Hact. split.
  - rewrite validateForm_result.
    destruct (fields doc) as [|g fs]; [discriminate|].
    injection H0 as ->. simpl.
    now rewrite (empty_registered_field_fails _ rules Hown Hval).
  - unfold Dom.validateForm.
    destruct (fields doc) as [|g fs] eqn:Hfs; [discriminate|].
    simpl in H0. injection H0 as ->.
    cbn [length seq foldl].
    assert (H0 : fields doc !! 0%nat = Some f0) by now rewrite Hfs.
    assert (Hstep : exists f0',
              fields (snd (Dom.validateForm_callback 0 (true, doc))) !! 0%nat
                = Some f0' /\
              field_error f0' = false /\ aria_invalid f0' = Some "false" /\
              aria_describedby f0' = None).
    { unfold Dom.validateForm_callback. rewrite H0.
      destruct (FIELD_RULES_get_own _ _ Hown) as [Hname Hget].
      rewrite Hname, Hget. cbn [negb andb].
      rewrite bool_decide_eq_true_2 by eauto.
      unfold Dom.validateAndDisplayError. rewrite H0, Hget.
      assert (Hfail : isValid (fst (validateField (field f0) rules)) = false).
      { pose proof (empty_registered_field_fails _ rules Hown Hval) as Hp.
        unfold field_passes in Hp. now rewrite Hown in Hp. }
      rewrite Hfail. simpl.
      set (doc' := showError 0 _ doc).
      destruct (static_lookup doc doc' 0 f0 (static_showError _ _ _) H0)
        as (g & Hg & Hsg).
      unfold static in Hsg. injection Hsg as Hfld _ _ Hf Hl.
      assert (Hact' : activeElement doc' <> Some 0%nat).
      { unfold doc', showError. now rewrite H0. }
      assert (Hgv : value (field g) = []) by congruence.
      assert (Hgf : focusable g = true) by congruence.
      assert (Hgl : listening g = true) by congruence.
      exact (proj2 (focus_clears_empty_field 0 doc' g Hg Hgf Hgl Hgv Hact')). }
    destruct Hstep as (f0' & Hlook & Hrest).
    exists f0'. split; [|exact Hrest].
    destruct (Dom.validateForm_callback 0 (true, doc)) as [b1 doc1].
    rewrite foldl_callback_other; [exact Hlook|].
    apply Forall_forall. intros j Hj. apply list_elem_of_In, in_seq in Hj. lia.
Qed.

Lemma validateForm_clears_first_empty_field_witness :
  fst (Dom.validateForm (contact_form "" "a@b.c" "555 010 0199" "web" "Please call me back"))
    = false /\
  exists f0',
    fields (snd (Dom.validateForm
                   (contact_form "" "a@b.c" "555 010 0199" "web" "Please call me back")))
      !! 0%nat = Some f0' /\
    field_error f0' = false /\ aria_invalid f0' = Some "false" /\
    aria_describedby f0' = None.
Proof.
  apply (validateForm_clears_first_empty_field
           (contact_form "" "a@b.c" "555 010 0199" "web" "Please call me back")
           (form_field 0 "name" "text" "") name_rules);
    try reflexivity.
  discriminate.
Defined.

(** *** The focus after a failed submission *)

Lemma activeElement_showError (i : nat) (e : ErrorValue) (doc : Document) :
  activeElement (showError i e doc) = activeElement doc.
Proof. unfold showError. now destruct (fields doc !! i). Qed.

Lemma activeElement_clearError (i : nat) (doc : Document) :
  activeElement (clearError i doc) = activeElement doc.
Proof. unfold clearError. now destruct (fields doc !! i). Qed.

Lemma activeElement_validateAndDisplayError (i : nat) (doc : Document) :
  activeElement (snd (Dom.validateAndDisplayError i doc)) = activeElement doc.
Proof.
  unfold Dom.validateAndDisplayError.
  destruct (fields doc !! i) as [f|]; [|reflexivity].
  destruct (FIELD_RULES_get (name (field f))) as [rules|]; [|reflexivity].
  destruct (negb (isValid (fst (validateField (field f) rules)))); simpl.
  - apply activeElement_showError.
  - apply activeElement_clearError.
Qed.

Lemma focus_keeps_clear (i : nat) (doc : Document) :
  focused_empty_field_is_clear doc -> focused_empty_field_is_clear (focus i doc).
Proof.
  intros Hq. unfold focus.
  destruct (fields doc !! i) as [f|] eqn:Hi; [|exact Hq].
  destruct (negb (focusable f)); [exact Hq|].
  destruct (bool_decide (activeElement doc = Some i)); [exact Hq|].
  set (doc1 := match activeElement doc with
               | Some j => on_blur j doc
               | None => doc
               end).
  unfold on_focus.
  change (fields (set_activeElement (Some i) doc1)) with (fields doc1).
  destruct (fields doc1 !! i) as [g|] eqn:Hg.
  - destruct (listening g && is_empty (value (field g))) eqn:Hcond.
    + intros k fk Hk Hfk _ _. rewrite activeElement_clearError in Hk.
      simpl in Hk. injection Hk as <-.
      unfold clearError in Hfk.
      change (fields (set_activeElement (Some i) doc1)) with (fields doc1) in Hfk.
      rewrite Hg in Hfk. simpl in Hfk.
      rewrite list_lookup_insert_eq in Hfk by now apply lookup_lt_Some in Hg.
      now injection Hfk as <-.
    + intros k fk Hk Hfk Hl Hv. simpl in Hk. injection Hk as <-.
      simpl in Hfk. rewrite Hg in Hfk. injection Hfk as <-.
      rewrite Hl, Hv in Hcond. discriminate.
  - intros k fk Hk Hfk _ _. simpl in Hk. injection Hk as <-.
    simpl in Hfk. rewrite Hg in Hfk. discriminate.
Qed.

Lemma callback_keeps_clear (j : nat) (b : bool) (doc : Document) :
  j <> 0%nat ->
  (activeElement doc = None \/ activeElement doc = Some 0%nat) ->
  focused_empty_field_is_clear doc ->
  (activeElement (snd (Dom.validateForm_callback j (b, doc))) = None \/
   activeElement (snd (Dom.validateForm_callback j (b, doc))) = Some 0%nat) /\
  focused_empty_field_is_clear (snd (Dom.validateForm_callback j (b, doc))).
Proof.
  intros Hj Hact Hq.
  assert (Hsame : activeElement (snd (Dom.validateForm_callback j (b, doc)))
                  = activeElement doc).
  { unfold Dom.validateForm_callback.
    destruct (fields doc !! j) as [f|]; [|reflexivity].
    destruct (negb (String.eqb (name (field f)) "")
              && bool_decide (is_Some (FIELD_RULES_get (name (field f)))));
      [|reflexivity].
    pose proof (activeElement_validateAndDisplayError j doc) as Ha.
    destruct (Dom.validateAndDisplayError j doc) as [ok doc']. simpl in Ha.
    apply Nat.eqb_neq in Hj. rewrite Hj. now destruct (negb ok). }
  split; [now rewrite Hsame|].
  intros k fk Hk Hfk Hl Hv. rewrite Hsame in Hk.
  assert (k = 0%nat) as -> by (destruct Hact as [Ha|Ha]; congruence).
  rewrite (callback_other 0 j b doc) in Hfk by auto.
  exact (Hq 0%nat fk Hk Hfk Hl Hv).
Qed.

Lemma validateForm_keeps_clear (doc : Document) :
  activeElement doc = None ->
  focused_empty_field_is_clear (snd (Dom.validateForm doc)).
Proof.
  intros Hact. unfold Dom.validateForm.
  destruct (length (fields doc)) as [|n] eqn:Hn.
  - simpl. intros i f Hi. congruence.
  - cbn [seq foldl].
    assert (Hstep :
      (activeElement (snd (Dom.validateForm_callback 0 (true, doc))) = None \/
       activeElement (snd (Dom.validateForm_callback 0 (true, doc))) = Some 0%nat) /\
      focused_empty_field_is_clear (snd (Dom.validateForm_callback 0 (true, doc)))).
    { assert (Hq0 : focused_empty_field_is_clear doc)
        by (intros i f Hi; congruence).
      unfold Dom.validateForm_callback.
      destruct (fields doc !! 0%nat) as [f|] eqn:H0; [|now split; auto].
      destruct (negb (String.eqb (name (field f)) "")
                && bool_decide (is_Some (FIELD_RULES_get (name (field f)))));
        [|now split; auto].
      pose proof (activeElement_validateAndDisplayError 0 doc) as Ha.
      destruct (Dom.validateAndDisplayError 0 doc) as [ok doc']. simpl in Ha.
      assert (Hq' : focused_empty_field_is_clear doc')
        by (intros i g Hi; congruence).
      destruct (negb ok); simpl; [|split; [left; congruence | exact Hq']].
      split; [|now apply focus_keeps_clear].
      unfold focus. destruct (fields doc' !! 0%nat) as [g|]; [|left; congruence].
      destruct (negb (focusable g)); [left; congruence|].
      destruct (bool_decide (activeElement doc' = Some 0%nat)); [left; congruence|].
      right. unfold on_focus.
      match goal with
      | |- activeElement match ?x with Some _ => _ | None => _ end = _ =>
          destruct x as [h|]; [|reflexivity]
      end.
      destruct (listening h && is_empty (value (field h))); [|reflexivity].
      now rewrite activeElement_clearError. }
    destruct (Dom.validateForm_callback 0 (true, doc)) as [b1 doc1].
    simpl in Hstep. revert b1 doc1 Hstep.
    assert (Hall : Forall (fun j => j <> 0%nat) (seq 1 n)).
    { apply Forall_forall. intros j Hj. apply list_elem_of_In, in_seq in Hj. lia. }
    induction Hall as [|j l Hj _ IH]; intros b1 doc1 [Ha Hq]; cbn [foldl];
      [exact Hq|].
    pose proof (callback_keeps_clear j b1 doc1 Hj Ha Hq) as Hnext.
    destruct (Dom.validateForm_callback j (b1, doc1)) as [b2 doc2].
    now apply IH.
Qed.

(** X13: after handleFormSubmit, on a form that had the focus outside its
    fields, the field that has the focus never shows an error when it is
    empty and has the listeners of initFormValidation: the focus listener
    has cleared it, although a registered field that is empty is invalid. *)
Theorem submit_leaves_focused_empty_field_clear
    (doc : Document) (i : nat) (f : FieldElement) :
  activeElement doc = None ->
  activeElement (snd (Dom.handleFormSubmit doc)) = Some i ->
  fields (snd (Dom.handleFormSubmit doc)) !! i = Some f ->
  listening f = true -> value (field f) = [] ->
  field_error f = false.
Proof.
  intros Hact. revert i f.
  change (focused_empty_field_is_clear (snd (Dom.handleFormSubmit doc))).
  pose proof (validateForm_keeps_clear doc Hact) as Hq.
  unfold Dom.handleFormSubmit.
  destruct (Dom.validateForm doc) as [ok doc1]. simpl in Hq.
  destruct (negb ok); simpl.
  - destruct (first_field_error 0 (fields doc1)); simpl;
      [now apply focus_keeps_clear | exact Hq].
  - exact Hq.
Qed.

Lemma submit_leaves_focused_empty_field_clear_witness :
  activeElement (contact_form "" "" "" "" "") = None /\
  activeElement (snd (Dom.handleFormSubmit (contact_form "" "" "" "" ""))) = Some 1%nat /\
  exists f,
    fields (snd (Dom.handleFormSubmit (contact_form "" "" "" "" ""))) !! 1%nat = Some f /\
    name (field f) = "email" /\ field_error f = false.
Proof.
  split; [reflexivity|]. split; [vm_compute; reflexivity|].
  eexists. split; [vm_compute; reflexivity|]. split; [reflexivity|].
  apply (submit_leaves_focused_empty_field_clear
           (contact_form "" "" "" "" "") 1); vm_compute; reflexivity.
Defined.

(** *** One error element per container *)

Lemma error_id_shown (f f' : FieldElement) (e : ErrorElement) (t d : string)
    (r a : option string) :
  field_id f' = field_id f ->
  error_id f' {| element_id := error_id f e; textContent := t; style_display := d;
                 role := r; aria_live := a |}
  = error_id f e.
Proof.
  intros _. unfold error_id at 1. simpl.
  destruct (String.eqb_spec (error_id f e) "") as [He|He]; [|reflexivity].
  now destruct (error_id_nonempty f e).
Qed.

(** X14: showError keeps one error element per container and the last
    message wins: showing a second message on a field gives the document
    that showing it alone gives, with the same element, id and link. *)
Theorem showError_last_message_wins
    (i : nat) (e1 e2 : ErrorValue) (doc : Document) :
  showError i e2 (showError i e1 doc) = showError i e2 doc.
Proof.
  destruct (fields doc !! i) as [f|] eqn:Hi.
  - unfold showError. rewrite Hi. cbv zeta.
    set (e0 := match error_message (get_container doc (container f)) with
               | Some e => e
               | None => created_span
               end).
    assert (Hlt : (i < length (fields doc))%nat) by now apply lookup_lt_Some in Hi.
    cbn [fields set_container set_field].
    rewrite list_lookup_insert_eq by exact Hlt. cbn [container].
    rewrite get_container_set. cbn [error_message role aria_live field field_id
      focusable listening defaultValue].
    rewrite (error_id_shown f _ e0) by reflexivity.
    unfold set_container, set_field. cbn [fields containers activeElement
      success_message reset_timers].
    f_equal; [apply list_insert_insert_eq | apply insert_insert_eq].
  - assert (H1 : showError i e1 doc = doc) by (unfold showError; now rewrite Hi).
    now rewrite H1.
Qed.

(** X15: two fields in one container share its error element: when the
    error of one is shown and the error of the other is cleared, the first
    field keeps aria-invalid "true", its class and its aria-describedby,
    while the element that it names is emptied and hidden and the container
    loses the class has-error. *)
Theorem clearError_hides_message_of_sibling
    (i j : nat) (e : ErrorValue) (doc : Document) (fi fj : FieldElement) :
  i <> j ->
  fields doc !! i = Some fi -> fields doc !! j = Some fj ->
  container fi = container fj ->
  exists (fi' : FieldElement) (hidden : ErrorElement),
    fields (clearError j (showError i e doc)) !! i = Some fi' /\
    aria_invalid fi' = Some "true" /\ field_error fi' = true /\
    aria_describedby fi' = Some (element_id hidden) /\
    get_container (clearError j (showError i e doc)) (container fi)
      = {| has_error := false; error_message := Some hidden |} /\
    textContent hidden = "" /\ style_display hidden = "none".
Proof.
  intros Hne Hi Hj Hc.
  assert (Hi' : exists fi', fields (showError i e doc) !! i = Some fi' /\
                 aria_invalid fi' = Some "true" /\ field_error fi' = true /\
                 exists shown,
                   aria_describedby fi' = Some (element_id shown) /\
                   get_container (showError i e doc) (container fi)
                     = {| has_error := true; error_message := Some shown |}).
  { destruct (showError_effect i e doc fi Hi)
      as (shown & fi' & Hbox & _ & _ & _ & Hl & Hd & Ha & Hf & _).
    exists fi'. repeat split; auto. eauto. }
  destruct Hi' as (fi' & Hl & Ha & Hf & shown & Hd & Hbox).
  assert (Hj' : fields (showError i e doc) !! j = Some fj)
    by now rewrite showError_other.
  exists fi',
    {| element_id := element_id shown; textContent := ""; style_display := "none";
       role := role shown; aria_live := aria_live shown |}.
  rewrite clearError_other by exact Hne.
  repeat split; auto.
  unfold clearError. rewrite Hj'. cbv zeta.
  rewrite Hc, get_container_set.
  change (get_container
            (set_field j _ (showError i e doc)) (container fj))
    with (get_container (showError i e doc) (container fj)).
  rewrite <- Hc, Hbox. reflexivity.
Qed.

Lemma clearError_hides_message_of_sibling_witness :
  exists (fi' : FieldElement) (hidden : ErrorElement),
    fields
      (clearError 1 (showError 0 (Message "This field is required")
         {| fields := [ form_field 0 "first" "text" ""; form_field 0 "last" "text" "Doe" ];
            containers := ∅; activeElement := None;
            success_message := None; reset_timers := 0 |})) !! 0%nat = Some fi' /\
    field_error fi' = true /\
    aria_describedby fi' = Some (element_id hidden) /\
    textContent hidden = "" /\ style_display hidden = "none".
Proof.
  destruct (clearError_hides_message_of_sibling 0 1 (Message "This field is required")
              {| fields := [ form_field 0 "first" "text" "";
                             form_field 0 "last" "text" "Doe" ];
                 containers := ∅; activeElement := None;
                 success_message := None; reset_timers := 0 |}
              (form_field 0 "first" "text" "") (form_field 0 "last" "text" "Doe"))
    as (fi' & hidden & H1 & _ & H2 & H3 & _ & H4 & H5);
    [discriminate | reflexivity | reflexivity | reflexivity |].
  exists fi', hidden. auto.
Defined.

(** *** The outcome of a submission *)

Lemma acknowledgement_showError (i : nat) (e : ErrorValue) (doc : Document) :
  acknowledgement (showError i e doc) = acknowledgement doc.
Proof. unfold showError. now destruct (fields doc !! i). Qed.

Lemma acknowledgement_clearError (i : nat) (doc : Document) :
  acknowledgement (clearError i doc) = acknowledgement doc.
Proof. unfold clearError. now destruct (fields doc !! i). Qed.

Lemma acknowledgement_validateAndDisplayError (i : nat) (doc : Document) :
  acknowledgement (snd (Dom.validateAndDisplayError i doc)) = acknowledgement doc.
Proof.
  unfold Dom.validateAndDisplayError.
  destruct (fields doc !! i) as [f|]; [|reflexivity].
  destruct (FIELD_RULES_get (name (field f))) as [rules|]; [|reflexivity].
  destruct (negb (isValid (fst (validateField (field f) rules)))); simpl.
  - apply acknowledgement_showError.
  - apply acknowledgement_clearError.
Qed.

Lemma acknowledgement_focus (i : nat) (doc : Document) :
  acknowledgement (focus i doc) = acknowledgement doc.
Proof.
  unfold focus. destruct (fields doc !! i) as [f|]; [|reflexivity].
  destruct (negb (focusable f)); [reflexivity|].
  destruct (bool_decide (activeElement doc = Some i)); [reflexivity|].
  assert (Hblur : acknowledgement match activeElement doc with
                                  | Some j => on_blur j doc
                                  | None => doc
                                  end = acknowledgement doc).
  { destruct (activeElement doc) as [j|]; [|reflexivity].
    unfold on_blur. destruct (fields doc !! j) as [g|]; [|reflexivity].
    destruct (listening g); [apply acknowledgement_validateAndDisplayError | reflexivity]. }
  unfold on_focus.
  match goal with
  | |- context [fields (set_activeElement ?a ?d) !! i] =>
      change (fields (set_activeElement a d)) with (fields d)
  end.
  match goal with
  | |- context [match ?x with Some _ => _ | None => _ end] =>
      destruct x as [g|]
  end; [|exact Hblur].
  destruct (listening g && is_empty (value (field g))); [|exact Hblur].
  rewrite acknowledgement_clearError. exact Hblur.
Qed.

Lemma acknowledgement_validateForm (doc : Document) :
  acknowledgement (snd (Dom.validateForm doc)) = acknowledgement doc.
Proof.
  unfold Dom.validateForm. generalize (seq 0 (length (fields doc))) true.
  intros l. revert doc.
  induction l as [|i l IH]; intros doc b; cbn [foldl]; [reflexivity|].
  assert (Hstep : acknowledgement (snd (Dom.validateForm_callback i (b, doc)))
                  = acknowledgement doc).
  { unfold Dom.validateForm_callback.
    destruct (fields doc !! i) as [f|]; [|reflexivity].
    destruct (negb (String.eqb (name (field f)) "")
              && bool_decide (is_Some (FIELD_RULES_get (name (field f)))));
      [|reflexivity].
    pose proof (acknowledgement_validateAndDisplayError i doc) as Ha.
    destruct (Dom.validateAndDisplayError i doc) as [ok doc']. simpl in Ha.
    destruct (negb ok); simpl; [|exact Ha].
    destruct (i =? 0)%nat; [|exact Ha]. now rewrite acknowledgement_focus. }
  destruct (Dom.validateForm_callback i (b, doc)) as [b' doc'].
  simpl in Hstep. now rewrite IH.
Qed.

(** X16: handleFormSubmit always prevents the default action of the event
    and returns false. It shows the acknowledgement and arms its timer
    exactly when every registered field passes; when one fails, the
    acknowledgement element and the timers are left as they were. *)
Theorem submit_acknowledges_valid_forms_only (doc : Document) :
  fst (fst (Dom.handleFormSubmit doc)) = true /\
  snd (fst (Dom.handleFormSubmit doc)) = false /\
  acknowledgement (snd (Dom.handleFormSubmit doc))
  = if forallb field_passes (map field (fields doc))
    then (Some {| success_text := "Thank you for your message! We will contact you soon.";
                  success_display := "block" |},
          S (reset_timers doc))
    else acknowledgement doc.
Proof.
  pose proof (validateForm_result doc) as Hv.
  pose proof (acknowledgement_validateForm doc) as Ha.
  unfold Dom.handleFormSubmit.
  destruct (Dom.validateForm doc) as [ok doc1]. simpl in Hv, Ha.
  rewrite <- Hv. destruct ok; simpl.
  - repeat split. unfold acknowledgement in *. simpl. now injection Ha as _ ->.
  - destruct (first_field_error 0 (fields doc1)); simpl; repeat split;
      [now rewrite acknowledgement_focus | exact Ha].
Qed.

(** *** The reset timer *)

Lemma clearError_clears (i : nat) (doc : Document) (f : FieldElement) :
  fields doc !! i = Some f ->
  exists f',
    fields (clearError i doc) !! i = Some f' /\
    field f' = field f /\ shows_no_error (clearError i doc) f'.
Proof.
  intros Hi. unfold clearError. rewrite Hi. cbv zeta.
  eexists. split.
  { simpl. apply list_lookup_insert_eq. now apply lookup_lt_Some in Hi. }
  split; [reflexivity|].
  unfold shows_no_error. cbn [field_error aria_invalid aria_describedby container].
  rewrite get_container_set. cbn [has_error error_message].
  repeat split; destruct (error_message (get_container doc (container f)));
    try discriminate; now injection H as <-.
Qed.

Lemma clearError_keeps_clear (i j : nat) (doc : Document) (f : FieldElement) :
  fields doc !! i = Some f -> shows_no_error doc f ->
  exists f',
    fields (clearError j doc) !! i = Some f' /\
    field f' = field f /\ shows_no_error (clearError j doc) f'.
Proof.
  intros Hi Hclear. destruct (decide (i = j)) as [->|Hne].
  - now apply clearError_clears.
  - exists f. rewrite clearError_other by exact Hne.
    split; [exact Hi|]. split; [reflexivity|].
    destruct Hclear as (H1 & H2 & H3 & H4 & H5).
    unfold shows_no_error. repeat split; auto.
    + unfold clearError. destruct (fields doc !! j) as [g|]; [|exact H4].
      cbv zeta. destruct (decide (container g = container f)) as [->|Hc].
      * now rewrite get_container_set.
      * now rewrite get_container_set_ne.
    + unfold clearError in H. destruct (fields doc !! j) as [g|]; [|now apply H5].
      cbv zeta in H. destruct (decide (container g = container f)) as [Hc|Hc].
      * rewrite Hc, get_container_set in H. simpl in H.
        destruct (error_message (get_container _ (container f)));
          [now injection H as <- | discriminate].
      * rewrite get_container_set_ne in H by exact Hc. now apply H5.
    + unfold clearError in H. destruct (fields doc !! j) as [g|]; [|now apply H5].
      cbv zeta in H. destruct (decide (container g = container f)) as [Hc|Hc].
      * rewrite Hc, get_container_set in H. simpl in H.
        destruct (error_message (get_container _ (container f)));
          [now injection H as <- | discriminate].
      * rewrite get_container_set_ne in H by exact Hc. now apply H5.
Qed.

Lemma clearError_keeps_field (i j : nat) (doc : Document) (f : FieldElement) :
  fields doc !! i = Some f ->
  exists f', fields (clearError j doc) !! i = Some f' /\ field f' = field f.
Proof.
  intros Hi.
  destruct (static_lookup doc (clearError j doc) i f (static_clearError j doc) Hi)
    as (f' & Hf' & Hs).
  exists f'. split; [exact Hf'|]. unfold static in Hs. congruence.
Qed.

Lemma foldl_clearError (l : list nat) :
  forall (doc : Document) (i : nat) (f : FieldElement),
    fields doc !! i = Some f ->
    (shows_no_error doc f \/ i ∈ l) ->
    exists f',
      fields (foldl (fun d j => clearError j d) doc l) !! i = Some f' /\
      field f' = field f /\
      shows_no_error (foldl (fun d j => clearError j d) doc l) f'.
Proof.
  induction l as [|j l IH]; intros doc i f Hi Hor; cbn [foldl].
  - destruct Hor as [Hc|Hin]; [eauto | now apply not_elem_of_nil in Hin].
  - assert (Hstep : exists f',
              fields (clearError j doc) !! i = Some f' /\ field f' = field f /\
              (shows_no_error (clearError j doc) f' \/ i ∈ l)).
    { destruct Hor as [Hc|Hin].
      - destruct (clearError_keeps_clear i j doc f Hi Hc) as (f' & H1 & H2 & H3).
        eauto.
      - apply elem_of_cons in Hin. destruct Hin as [->|Hin].
        + destruct (clearError_clears j doc f Hi) as (f' & H1 & H2 & H3). eauto.
        + destruct (clearError_keeps_field i j doc f Hi) as (f' & H1 & H2). eauto. }
    destruct Hstep as (f' & H1 & H2 & H3).
    destruct (IH (clearError j doc) i f' H1 H3) as (f'' & H4 & H5 & H6).
    exists f''. split; [exact H4|]. split; [congruence | exact H6].
Qed.

(** X17: when the timer of the acknowledgement runs, every field of the
    form has its default value back and shows no error (no field-error
    class, aria-invalid "false", no aria-describedby, no has-error on its
    container, its error element emptied and hidden), whether or not the
    default value passes validation; the acknowledgement is hidden. *)
Theorem reset_timer_clears_the_form (doc : Document) (i : nat) (f : FieldElement) :
  reset_timers doc <> 0%nat ->
  fields doc !! i = Some f ->
  exists f',
    fields (reset_timer_fires doc) !! i = Some f' /\
    value (field f') = defaultValue f /\
    shows_no_error (reset_timer_fires doc) f' /\
    reset_timers (reset_timer_fires doc) = pred (reset_timers doc) /\
    (forall m, success_message (reset_timer_fires doc) = Some m ->
       success_display m = "none").
Proof.
  intros Hn Hi. unfold reset_timer_fires.
  destruct (reset_timers doc) as [|n] eqn:Hr; [congruence|]. cbv zeta.
  set (doc1 := {| fields := map reset_field (fields doc);
                  containers := containers doc;
                  activeElement := activeElement doc;
                  success_message := _; reset_timers := n |}).
  assert (Hi1 : fields doc1 !! i = Some (reset_field f)).
  { unfold doc1. simpl. now rewrite list_lookup_fmap, Hi. }
  destruct (foldl_clearError (seq 0 (length (fields doc1))) doc1 i (reset_field f) Hi1)
    as (f' & H1 & H2 & H3).
  { right. apply list_elem_of_In, in_seq. apply lookup_lt_Some in Hi1. lia. }
  exists f'. split; [exact H1|]. split; [now rewrite H2|]. split; [exact H3|].
  assert (Hack : acknowledgement
                   (foldl (fun d j => clearError j d) doc1
                          (seq 0 (length (fields doc1))))
                 = acknowledgement doc1).
  { generalize (seq 0 (length (fields doc1))). intros l. generalize doc1.
    induction l as [|j l IH]; intros d; cbn [foldl]; [reflexivity|].
    now rewrite IH, acknowledgement_clearError. }
  unfold acknowledgement in Hack. injection Hack as Hs Ht.
  split; [exact Ht|].
  intros m Hm.
  assert (Hm' : success_message doc1 = Some m) by exact (eq_trans (eq_sym Hs) Hm).
  unfold doc1 in Hm'. simpl in Hm'.
  destruct (success_message doc); [now injection Hm' as <- | discriminate].
Qed.

Lemma reset_timer_clears_the_form_witness :
  exists f',
    fields (reset_timer_fires
              (snd (Dom.handleFormSubmit
                      (contact_form "John" "a@b.c" "555 010 0199" "web"
                                    "Please call me back")))) !! 0%nat = Some f' /\
    value (field f') = [] /\ field_error f' = false.
Proof.
  edestruct (reset_timer_clears_the_form
               (snd (Dom.handleFormSubmit
                       (contact_form "John" "a@b.c" "555 010 0199" "web"
                                     "Please call me back")))
               0)
    as (f' & H1 & H2 & (H3 & _) & _).
  - vm_compute. discriminate.
  - vm_compute. reflexivity.
  - exists f'. auto.
Defined.

End DomFacts.

(** ** throttle *)

Section ThrottleFacts.
Import Throttle.
Context {A : Type} (delay : Z).









End ThrottleFacts.

(** A late timer breaks both: the call 100 ms after the first goes through
    while the timer set at 50 ms is overdue, and [func] then runs twice at
    the same time, the second time with the older arguments. *)
Example throttle_with_late_timer :
  Throttle.invoked string
    (Throttle.run string 100 (Throttle.initial string 1000 0 1)
       [Throttle.Call string "first"; Throttle.Advance string 50;
        Throttle.Call string "second"; Throttle.Advance string 50;
        Throttle.Call string "third"; Throttle.Fire string 1])
  = [(0%Z, "first"); (100%Z, "third"); (100%Z, "second")].
Proof. vm_compute. reflexivity. Qed.

(** So does a time of day that is set forward, with every timer on time:
    the call at 60 ms goes through at once, and the timer of the call at
    50 ms runs 40 ms after it, with the older arguments. *)
Example throttle_with_clock_set_forward :
  Throttle.punctual string 100 (Throttle.initial string 1000 0 1)
    [Throttle.Call string "first"; Throttle.Advance string 50;
     Throttle.Call string "second"; Throttle.Advance string 10;
     Throttle.Adjust string 5000;
     Throttle.Call string "third"; Throttle.Advance string 40;
     Throttle.Fire string 1] /\
  Throttle.invoked string
    (Throttle.run string 100 (Throttle.initial string 1000 0 1)
       [Throttle.Call string "first"; Throttle.Advance string 50;
        Throttle.Call string "second"; Throttle.Advance string 10;
        Throttle.Adjust string 5000;
        Throttle.Call string "third"; Throttle.Advance string 40;
        Throttle.Fire string 1])
  = [(0%Z, "first"); (60%Z, "third"); (100%Z, "second")].
Proof.
  split; [|vm_compute; reflexivity].
  repeat split; intros h due a Hh; vm_compute in Hh; try discriminate.
  destruct (decide (h = 1%nat)) as [->|Hne].
  - vm_compute in Hh. injection Hh as <- _. reflexivity.
  - exfalso. revert Hh.
    change (({[1%nat := (100%Z, "second")]} : gmap nat (Z * string)) !! h
            = Some (due, a) -> False).
    rewrite lookup_singleton_ne by congruence. discriminate.
Qed.



(** ** The mobile menu *)

Section NavigationFacts.
Import Navigation.

Lemma classList_add_elem (c : string) (l : list string) :
  c ∈ classList_add c l.
Proof.
  unfold classList_add. case_bool_decide as H; [exact H|].
  apply elem_of_app. right. apply list_elem_of_singleton. reflexivity.
Qed.

Lemma classList_remove_not_elem (c : string) (l : list string) :
  c ∉ classList_remove c l.
Proof.
  unfold classList_remove. intros H. apply list_elem_of_filter in H.
  now destruct H as [H _].
Qed.

Lemma classList_add_other (c : string) (l : list string) :
  classList_remove c (classList_add c l) = classList_remove c l.
Proof.
  unfold classList_add, classList_remove. case_bool_decide as H; [reflexivity|].
  rewrite filter_app. cbn [filter list_filter].
  rewrite decide_False by (intros Hn; now apply Hn).
  apply app_nil_r.
Qed.

Lemma classList_remove_twice (c : string) (l : list string) :
  classList_remove c (classList_remove c l) = classList_remove c l.
Proof.
  unfold classList_remove. induction l as [|x l IH]; [reflexivity|].
  rewrite !filter_cons. destruct (decide (x <> c)) as [Hx|Hx].
  - rewrite filter_cons, decide_True by exact Hx. now rewrite IH.
  - exact IH.
Qed.

Lemma closeMobileMenu_agrees (st : state) :
  displays_agree st -> displays_agree (closeMobileMenu st).
Proof.
  intros H. unfold closeMobileMenu.
  destruct (isMenuOpen st) eqn:Ho; cbn [negb]; [|exact H].
  unfold displays_agree. simpl. split; [reflexivity|]. split; [|reflexivity].
  split; [intros Hin; now apply classList_remove_not_elem in Hin | discriminate].
Qed.

Lemma trapFocus_frame (n : nat) (ev : option (bool * Element)) (st : state) :
  isMenuOpen (trapFocus n ev st) = isMenuOpen st /\
  aria_expanded (trapFocus n ev st) = aria_expanded st /\
  classList (trapFocus n ev st) = classList st /\
  overflow (trapFocus n ev st) = overflow st.
Proof.
  unfold trapFocus. destruct (n =? 0)%nat; [easy|].
  destruct ev as [[shift active]|]; [|easy].
  destruct (shift && _); [easy|]. destruct (negb shift && _); easy.
Qed.

Lemma trapFocus_agrees (n : nat) (ev : option (bool * Element)) (st : state) :
  displays_agree st -> displays_agree (trapFocus n ev st).
Proof.
  intros H. unfold displays_agree.
  destruct (trapFocus_frame n ev st) as (-> & -> & -> & ->). exact H.
Qed.

Lemma handleNavLinkClick_agrees (link : nat) (found : bool) (st : state) :
  displays_agree st -> displays_agree (handleNavLinkClick link found st).
Proof.
  intros H. unfold handleNavLinkClick.
  destruct (ActiveLink.navLinks (links st) !! link) as [l|]; [|exact H].
  destruct (negb (startsWith_hash _)); [exact H|].
  destruct (negb found); [exact H|].
  exact (closeMobileMenu_agrees st H).
Qed.

Lemma step_agrees (st : state) (e : event) :
  displays_agree st -> displays_agree (step st e).
Proof.
  intros H.
  destruct e as [n|link found inside|inside on_button|w|n key shift active|k];
    cbn [step].
  - unfold handleMobileMenuToggle, displays_agree.
    destruct (isMenuOpen st) eqn:Ho; cbn [negb].
    + simpl. split; [reflexivity|]. split; [|reflexivity].
      split; [intros Hin; now apply classList_remove_not_elem in Hin
             | discriminate].
    + cbn [set_overflow isMenuOpen aria_expanded classList overflow].
      match goal with |- context [trapFocus n None ?s] =>
        destruct (trapFocus_frame n None s) as (E1 & E2 & E3 & E4) end.
      rewrite E1, E2, E3. simpl. split; [reflexivity|]. split; [|reflexivity].
      split; [reflexivity | intros _; apply classList_add_elem].
  - unfold handleOutsideClick.
    pose proof (handleNavLinkClick_agrees link found st H) as H1.
    destruct (negb (isMenuOpen _)); [exact H1|].
    destruct (negb inside && negb false);
      [now apply closeMobileMenu_agrees | exact H1].
  - unfold handleOutsideClick.
    destruct (negb (isMenuOpen st)); [exact H|].
    destruct (negb inside && negb on_button);
      [now apply closeMobileMenu_agrees | exact H].
  - unfold handleResize.
    destruct ((mobileBreakpoint <? w)%Z && isMenuOpen st);
      [now apply closeMobileMenu_agrees | exact H].
  - unfold handleKeyboardNavigation.
    assert (H1 : displays_agree
                   (if bool_decide (key = "Escape") && isMenuOpen st
                    then focus mobileMenuButton (closeMobileMenu st) else st)).
    { destruct (_ && _); [|exact H].
      exact (closeMobileMenu_agrees st H). }
    destruct (bool_decide (key = "Tab") && _);
      [now apply trapFocus_agrees | exact H1].
  - unfold link_timer_callback.
    destruct (link_timers st !! k); exact H.
Qed.

(** X20: the handlers of the mobile menu keep its displays in step with
    [state.isMenuOpen]: from a state where [aria-expanded] of the button,
    the class [menu-open] of the list and the overflow of the body say what
    [isMenuOpen] says, they still do after any sequence of clicks, resizes
    and key presses. *)
Theorem menu_displays_follow_isMenuOpen (st : state) (es : list event) :
  displays_agree st -> displays_agree (run st es).
Proof.
  revert st. induction es as [|e es IH]; intros st H; [exact H|].
  cbn [run foldl]. apply IH. now apply step_agrees.
Qed.

Lemma closeMobileMenu_closed (st : state) :
  isMenuOpen st = false -> closeMobileMenu st = st.
Proof. intros H. unfold closeMobileMenu. now rewrite H. Qed.

(** X21: a closed menu is opened by a click on its button and by nothing
    else: any other event leaves [isMenuOpen] false and the attribute, the
    classes and the overflow of the body as they are. No handler moves the
    focus then; the one call of [focus()] that can follow is that of the
    timer of an earlier click on a link, on the target of that link. *)
Theorem closed_menu_is_inert (st : state) (e : event) :
  isMenuOpen st = false ->
  is_click_button e = false ->
  isMenuOpen (step st e) = false /\
  aria_expanded (step st e) = aria_expanded st /\
  classList (step st e) = classList st /\
  overflow (step st e) = overflow st /\
  (focus_calls (step st e) = focus_calls st \/
   exists k link,
     e = link_timer k /\ link_timers st !! k = Some link /\
     focus_calls (step st e) = focus_calls st ++ [target_of link]).
Proof.
  intros Hc He.
  destruct e as [n|link found inside|inside on_button|w|n key shift active|k];
    [discriminate He| | | | |]; cbn [step].
  - assert (H1 : handleNavLinkClick link found st = st \/
                 handleNavLinkClick link found st = setTimeout_link link st).
    { unfold handleNavLinkClick.
      destruct (ActiveLink.navLinks (links st) !! link) as [l|]; [|now left].
      destruct (negb (startsWith_hash _)); [now left|].
      destruct (negb found); [now left|].
      right. now rewrite closeMobileMenu_closed. }
    unfold handleOutsideClick.
    destruct H1 as [->| ->]; cbn [setTimeout_link isMenuOpen]; rewrite Hc;
      cbn [negb]; auto 10.
  - unfold handleOutsideClick. rewrite Hc. cbn [negb]. auto 10.
  - unfold handleResize. rewrite Hc, andb_false_r. auto 10.
  - unfold handleKeyboardNavigation. rewrite Hc.
    rewrite !andb_false_r. rewrite Hc, andb_false_r. auto 10.
  - unfold link_timer_callback.
    destruct (link_timers st !! k) as [link|] eqn:Hk; [|auto 10].
    cbn [focus isMenuOpen aria_expanded classList overflow focus_calls].
    repeat split; try assumption. right. now exists k, link.
Qed.

Lemma step_other_classes (st : state) (e : event) :
  classList_remove "menu-open" (classList (step st e))
  = classList_remove "menu-open" (classList st).
Proof.
  assert (Hclose : forall s,
    classList_remove "menu-open" (classList (closeMobileMenu s))
    = classList_remove "menu-open" (classList s)).
  { intros s. unfold closeMobileMenu. destruct (negb (isMenuOpen s));
      [reflexivity|]. simpl. apply classList_remove_twice. }
  assert (Htrap : forall n ev s,
    classList (trapFocus n ev s) = classList s).
  { intros n ev s. exact (proj1 (proj2 (proj2 (trapFocus_frame n ev s)))). }
  assert (Hlink : forall link found s,
    classList_remove "menu-open" (classList (handleNavLinkClick link found s))
    = classList_remove "menu-open" (classList s)).
  { intros link found s. unfold handleNavLinkClick.
    destruct (ActiveLink.navLinks (links s) !! link) as [l|]; [|reflexivity].
    destruct (negb (startsWith_hash _)); [reflexivity|].
    destruct (negb found); [reflexivity|].
    cbn [setTimeout_link classList]. apply Hclose. }
  destruct e as [n|link found inside|inside on_button|w|n key shift active|k];
    cbn [step].
  - unfold handleMobileMenuToggle. destruct (isMenuOpen st); cbn [negb].
    + simpl. apply classList_remove_twice.
    + cbn [set_overflow classList]. rewrite Htrap. simpl.
      apply classList_add_other.
  - unfold handleOutsideClick.
    destruct (negb (isMenuOpen _)); [apply Hlink|].
    destruct (negb inside && negb false); rewrite ?Hclose; apply Hlink.
  - unfold handleOutsideClick.
    destruct (negb (isMenuOpen st)); [reflexivity|].
    destruct (negb inside && negb on_button); [apply Hclose | reflexivity].
  - unfold handleResize.
    destruct ((mobileBreakpoint <? w)%Z && isMenuOpen st);
      [apply Hclose | reflexivity].
  - unfold handleKeyboardNavigation.
    destruct (bool_decide (key = "Tab") && _); rewrite ?Htrap;
      (destruct (bool_decide (key = "Escape") && isMenuOpen st);
         [cbn [focus classList]; apply Hclose | reflexivity]).
  - unfold link_timer_callback.
    destruct (link_timers st !! k); reflexivity.
Qed.

(** X22: the handlers add and remove the class [menu-open] and no other:
    the other classes of the list of the navigation stay as they are, in
    their order, whatever happens. *)
Theorem menu_keeps_other_classes (st : state) (es : list event) :
  classList_remove "menu-open" (classList (run st es))
  = classList_remove "menu-open" (classList st).
Proof.
  revert st. induction es as [|e es IH]; intros st; [reflexivity|].
  cbn [run foldl]. fold (run (step st e) es).
  rewrite IH. apply step_other_classes.
Qed.

End NavigationFacts.

Lemma menu_displays_follow_isMenuOpen_witness :
  Navigation.displays_agree
    {| Navigation.isMenuOpen := false;
       Navigation.aria_expanded := "false";
       Navigation.classList := ["nav-list"];
       Navigation.overflow := "";
       Navigation.focus_calls := [];
       Navigation.links :=
         {| ActiveLink.activeSection := "home";
            ActiveLink.navLinks :=
              [{| ActiveLink.href := "#contact";
                  ActiveLink.aria_current := None |}] |};
       Navigation.link_timers := [] |} /\
  Navigation.displays_agree
    (Navigation.run
       {| Navigation.isMenuOpen := false;
          Navigation.aria_expanded := "false";
          Navigation.classList := ["nav-list"];
          Navigation.overflow := "";
          Navigation.focus_calls := [];
          Navigation.links :=
            {| ActiveLink.activeSection := "home";
               ActiveLink.navLinks :=
                 [{| ActiveLink.href := "#contact";
                     ActiveLink.aria_current := None |}] |};
          Navigation.link_timers := [] |}
       [Navigation.click_button 4;
        Navigation.keydown 4 "Tab" false (Navigation.menu_item 3);
        Navigation.click_link 0 true true;
        Navigation.link_timer 0;
        Navigation.resize 1024]).
Proof.
  assert (H : Navigation.displays_agree
    {| Navigation.isMenuOpen := false;
       Navigation.aria_expanded := "false";
       Navigation.classList := ["nav-list"];
       Navigation.overflow := "";
       Navigation.focus_calls := [];
       Navigation.links :=
         {| ActiveLink.activeSection := "home";
            ActiveLink.navLinks :=
              [{| ActiveLink.href := "#contact";
                  ActiveLink.aria_current := None |}] |};
       Navigation.link_timers := [] |}).
  { split; [reflexivity|]. split; [|reflexivity]. simpl. split; [|discriminate].
    intros Hin. apply list_elem_of_singleton in Hin. discriminate Hin. }
  split; [exact H|].
  exact (menu_displays_follow_isMenuOpen _ _ H).
Defined.

(** A click on a link of a closed menu moves no focus by itself; its timer
    then gives the focus to the target of the link and marks the link. *)
Example link_click_focuses_its_target :
  let st :=
    Navigation.run
      {| Navigation.isMenuOpen := false;
         Navigation.aria_expanded := "false";
         Navigation.classList := ["nav-list"];
         Navigation.overflow := "";
         Navigation.focus_calls := [];
         Navigation.links :=
           {| ActiveLink.activeSection := "home";
              ActiveLink.navLinks :=
                [{| ActiveLink.href := "#contact";
                    ActiveLink.aria_current := None |}] |};
         Navigation.link_timers := [] |}
      [Navigation.click_link 0 true true; Navigation.link_timer 0] in
  Navigation.focus_calls st = [Navigation.target_of 0] /\
  Navigation.links st =
    {| ActiveLink.activeSection := "contact";
       ActiveLink.navLinks :=
         [{| ActiveLink.href := "#contact";
             ActiveLink.aria_current := Some "page" |}] |} /\
  Navigation.link_timers st = [].
Proof. vm_compute. repeat split. Qed.

Lemma closed_menu_is_inert_witness :
  Navigation.isMenuOpen
    (Navigation.step
       {| Navigation.isMenuOpen := false;
          Navigation.aria_expanded := "false";
          Navigation.classList := ["nav-list"];
          Navigation.overflow := "";
          Navigation.focus_calls := [];
          Navigation.links :=
            {| ActiveLink.activeSection := "home";
               ActiveLink.navLinks :=
                 [{| ActiveLink.href := "#contact";
                     ActiveLink.aria_current := None |}] |};
          Navigation.link_timers := [0%nat] |}
       (Navigation.link_timer 0)) = false /\
  Navigation.focus_calls
    (Navigation.step
       {| Navigation.isMenuOpen := false;
          Navigation.aria_expanded := "false";
          Navigation.classList := ["nav-list"];
          Navigation.overflow := "";
          Navigation.focus_calls := [];
          Navigation.links :=
            {| ActiveLink.activeSection := "home";
               ActiveLink.navLinks :=
                 [{| ActiveLink.href := "#contact";
                     ActiveLink.aria_current := None |}] |};
          Navigation.link_timers := [0%nat] |}
       (Navigation.link_timer 0)) = [Navigation.target_of 0].
Proof.
  destruct (closed_menu_is_inert
              {| Navigation.isMenuOpen := false;
                 Navigation.aria_expanded := "false";
                 Navigation.classList := ["nav-list"];
                 Navigation.overflow := "";
                 Navigation.focus_calls := [];
                 Navigation.links :=
                   {| ActiveLink.activeSection := "home";
                      ActiveLink.navLinks :=
                        [{| ActiveLink.href := "#contact";
                            ActiveLink.aria_current := None |}] |};
                 Navigation.link_timers := [0%nat] |}
              (Navigation.link_timer 0) eq_refl eq_refl)
    as (Hopen & _).
  split; [exact Hopen | reflexivity].
Defined.

(** ** The active link *)

Section ActiveLinkFacts.
Import ActiveLink.
Context {number : Type} (add : number -> number -> number)
  (ge lt : number -> number -> bool) (of_int : Z -> number).

Lemma updateActiveNavigation_hrefs
    (sections : list (PageSection number)) (y : number) (st : state) :
  map href (navLinks (updateActiveNavigation number add ge lt of_int
                        sections y st))
  = map href (navLinks st).
Proof.
  unfold updateActiveNavigation. destruct sections as [|s0 ss]; [reflexivity|].
  destruct (currentSection_of _ _ _ _ _ _) as [c|]; [|reflexivity].
  destruct (_ && _); [|reflexivity]. cbn [navLinks].
  rewrite map_map. apply map_ext. intros l. now destruct (bool_decide _).
Qed.

Lemma updateActiveLink_hrefs (i : nat) (st : state) :
  map href (navLinks (updateActiveLink i st)) = map href (navLinks st).
Proof.
  unfold updateActiveLink. destruct (navLinks st !! i) as [l|] eqn:Hi;
    [|reflexivity]. cbn [navLinks].
  rewrite list_fmap_insert. cbn [setAttribute_aria_current href].
  change (fmap href (map removeAttribute_aria_current (navLinks st)))
    with (map href (map removeAttribute_aria_current (navLinks st))).
  rewrite map_map. cbn [removeAttribute_aria_current href].
  change (map (fun x => href x) (navLinks st)) with (href <$> navLinks st).
  apply list_insert_id. rewrite list_lookup_fmap, Hi. reflexivity.
Qed.

Lemma links_have_fragments_hrefs (st st' : state) :
  map href (navLinks st') = map href (navLinks st) ->
  links_have_fragments st -> links_have_fragments st'.
Proof.
  intros Heq H l Hl.
  assert (Hin : href l ∈ map href (navLinks st)).
  { rewrite <- Heq. apply list_elem_of_fmap. now exists l. }
  apply list_elem_of_fmap in Hin. destruct Hin as (l0 & -> & Hl0).
  exact (H l0 Hl0).
Qed.

Lemma step_hrefs (st : state) (e : event number) :
  map href (navLinks (step number add ge lt of_int st e))
  = map href (navLinks st).
Proof.
  destruct e; [apply updateActiveNavigation_hrefs | apply updateActiveLink_hrefs].
Qed.

Lemma step_marked (st : state) (e : event number) :
  links_have_fragments st ->
  marked_links_are_active st ->
  marked_links_are_active (step number add ge lt of_int st e).
Proof.
  intros Hfr Hm. destruct e as [sections y|i]; cbn [step].
  - unfold updateActiveNavigation. destruct sections as [|s0 ss]; [exact Hm|].
    destruct (currentSection_of _ _ _ _ _ _) as [c|]; [|exact Hm].
    destruct (_ && _); [|exact Hm].
    intros l Hl Hcur. cbn [navLinks activeSection] in *.
    apply list_elem_of_fmap in Hl. destruct Hl as (l0 & -> & Hl0).
    case_bool_decide as Hh; [exact Hh|]. now contradiction Hcur.
  - unfold updateActiveLink. destruct (navLinks st !! i) as [l0|] eqn:Hi;
      [|exact Hm].
    intros l Hl Hcur. cbn [navLinks activeSection] in *.
    apply list_elem_of_lookup in Hl. destruct Hl as [j Hj].
    destruct (decide (i = j)) as [<-|Hne].
    + rewrite list_lookup_insert_eq in Hj.
      2:{ rewrite length_map. now apply lookup_lt_Some in Hi. }
      injection Hj as <-. cbn [setAttribute_aria_current href].
      destruct (Hfr l0) as (fragment & Hhref & Hne).
      { apply list_elem_of_lookup. now exists i. }
      rewrite Hhref. cbn [substring_1].
      rewrite bool_decide_eq_false_2 by exact Hne. reflexivity.
    + rewrite list_lookup_insert_ne in Hj by exact Hne.
      change (map removeAttribute_aria_current (navLinks st))
        with (removeAttribute_aria_current <$> navLinks st) in Hj.
      rewrite list_lookup_fmap in Hj.
      destruct (navLinks st !! j) as [l1|]; [|discriminate Hj].
      injection Hj as <-. now contradiction Hcur.
Qed.

(** X23: every link marked [aria-current] points at the active section,
    and stays so: from a state where each marked link has the href
    [#] + [state.activeSection], and every link has a fragment after its
    [#], this still holds after any sequence of scroll updates and link
    clicks, for any layout and any arithmetic of the host. *)
Theorem marked_links_stay_active (st : state) (es : list (event number)) :
  links_have_fragments st ->
  marked_links_are_active st ->
  marked_links_are_active (run number add ge lt of_int st es).
Proof.
  revert st. induction es as [|e es IH]; intros st Hfr Hm; [exact Hm|].
  cbn [run foldl]. apply IH.
  - eapply links_have_fragments_hrefs; [apply step_hrefs | exact Hfr].
  - now apply step_marked.
Qed.

End ActiveLinkFacts.

(** The other direction does not hold: the module starts with
    [activeSection = 'home'], so that the first update in the section
    [home] marks no link at all. *)
Example active_section_without_marked_link :
  ActiveLink.updateActiveNavigation Z Z.add Z.geb Z.ltb (fun z => z)
    [{| ActiveLink.id := "home"; ActiveLink.offsetTop := 0%Z;
        ActiveLink.offsetHeight := 600%Z |};
     {| ActiveLink.id := "contact"; ActiveLink.offsetTop := 600%Z;
        ActiveLink.offsetHeight := 600%Z |}]
    0%Z
    {| ActiveLink.activeSection := "home";
       ActiveLink.navLinks :=
         [{| ActiveLink.href := "#home"; ActiveLink.aria_current := None |};
          {| ActiveLink.href := "#contact"; ActiveLink.aria_current := None |}] |}
  = {| ActiveLink.activeSection := "home";
       ActiveLink.navLinks :=
         [{| ActiveLink.href := "#home"; ActiveLink.aria_current := None |};
          {| ActiveLink.href := "#contact"; ActiveLink.aria_current := None |}] |}.
Proof. vm_compute. reflexivity. Qed.

Lemma marked_links_stay_active_witness :
  ActiveLink.links_have_fragments
    {| ActiveLink.activeSection := "home";
       ActiveLink.navLinks :=
         [{| ActiveLink.href := "#home"; ActiveLink.aria_current := None |};
          {| ActiveLink.href := "#contact"; ActiveLink.aria_current := None |}] |} /\
  ActiveLink.marked_links_are_active
    {| ActiveLink.activeSection := "home";
       ActiveLink.navLinks :=
         [{| ActiveLink.href := "#home"; ActiveLink.aria_current := None |};
          {| ActiveLink.href := "#contact"; ActiveLink.aria_current := None |}] |} /\
  ActiveLink.marked_links_are_active
    (ActiveLink.run Z Z.add Z.geb Z.ltb (fun z => z)
       {| ActiveLink.activeSection := "home";
          ActiveLink.navLinks :=
            [{| ActiveLink.href := "#home"; ActiveLink.aria_current := None |};
             {| ActiveLink.href := "#contact";
                ActiveLink.aria_current := None |}] |}
       [ActiveLink.link_timer Z 1;
        ActiveLink.scrolled Z
          [{| ActiveLink.id := "home"; ActiveLink.offsetTop := 0%Z;
              ActiveLink.offsetHeight := 600%Z |};
           {| ActiveLink.id := "contact"; ActiveLink.offsetTop := 600%Z;
              ActiveLink.offsetHeight := 600%Z |}]
          0%Z]).
Proof.
  assert (Hfr : ActiveLink.links_have_fragments
    {| ActiveLink.activeSection := "home";
       ActiveLink.navLinks :=
         [{| ActiveLink.href := "#home"; ActiveLink.aria_current := None |};
          {| ActiveLink.href := "#contact"; ActiveLink.aria_current := None |}] |}).
  { intros l Hl. cbn [ActiveLink.navLinks] in Hl.
    apply elem_of_cons in Hl. destruct Hl as [->|Hl].
    - exists "home". split; [reflexivity | discriminate].
    - apply list_elem_of_singleton in Hl. subst l.
      exists "contact". split; [reflexivity | discriminate]. }
  assert (Hm : ActiveLink.marked_links_are_active
    {| ActiveLink.activeSection := "home";
       ActiveLink.navLinks :=
         [{| ActiveLink.href := "#home"; ActiveLink.aria_current := None |};
          {| ActiveLink.href := "#contact"; ActiveLink.aria_current := None |}] |}).
  { intros l Hl Hcur. cbn [ActiveLink.navLinks] in Hl.
    apply elem_of_cons in Hl. destruct Hl as [->|Hl]; [now contradiction Hcur|].
    apply list_elem_of_singleton in Hl. subst l. now contradiction Hcur. }
  split; [exact Hfr|]. split; [exact Hm|].
  exact (marked_links_stay_active Z.add Z.geb Z.ltb (fun z => z) _ _ Hfr Hm).
Defined.

(** ** Lazy loading and [optimizeImages] *)

Section PerformanceFacts.
Import Performance.

Lemma select_from_elem (p : Image -> bool) (imgs : list Image) :
  forall k j img,
    imgs !! j = Some img -> p img = true -> (k + j)%nat ∈ select_from p k imgs.
Proof.
  induction imgs as [|x rest IH]; intros k j img Hj Hp; [discriminate Hj|].
  destruct j as [|j]; cbn [select_from].
  - injection Hj as ->. rewrite Hp, Nat.add_0_r. apply list_elem_of_here.
  - replace (k + S j)%nat with (S k + j)%nat by lia.
    destruct (p x); [apply list_elem_of_further|]; now apply (IH (S k) j img).
Qed.

Lemma assign_if_lookup_ne (key k : string) (v : option string)
    (attrs : gmap string string) :
  key <> k -> assign_if key v attrs !! k = attrs !! k.
Proof.
  intros Hne. unfold assign_if. destruct v as [s|]; [|reflexivity].
  destruct (falsy (Some s)); [reflexivity|]. now apply lookup_insert_ne.
Qed.

Lemma assign_if_lookup (key : string) (v : option string)
    (attrs : gmap string string) :
  falsy v = false -> assign_if key v attrs !! key = v.
Proof.
  intros Hv. unfold assign_if. destruct v as [s|]; [|discriminate Hv].
  rewrite Hv. apply lookup_insert_eq.
Qed.

Lemma loadImage_frame (j : nat) (st : state) :
  loadedImages (loadImage j st) = loadedImages st /\
  pendingImages (loadImage j st) = pendingImages st /\
  observed (loadImage j st) = observed st /\
  length (images (loadImage j st)) = length (images st).
Proof.
  unfold loadImage. case_bool_decide; [easy|].
  destruct (images st !! j) as [img|]; [|easy].
  destruct (_ && _); [easy|]. cbn. now rewrite length_insert.
Qed.

Lemma loadImage_tracked (i j : nat) (d1 d2 : option string) (st : state) :
  tracked i d1 d2 st -> tracked i d1 d2 (loadImage j st).
Proof.
  intros (img & Hi & H1 & H2 & Hreq & Hld). unfold loadImage.
  case_bool_decide as Hl; [now exists img|].
  destruct (images st !! j) as [imgj|] eqn:Hj; [|now exists img].
  destruct (_ && _) eqn:Hf; [now exists img|].
  destruct (decide (j = i)) as [->|Hne].
  - rewrite Hi in Hj. injection Hj as <-.
    eexists. cbn [images set_images loadedImages].
    split; [apply list_lookup_insert_eq; now apply lookup_lt_Some in Hi|].
    cbn [attributes onload]. rewrite !assign_if_lookup_ne by discriminate.
    split; [exact H1|]. split; [exact H2|]. split; [|reflexivity].
    intros _. rewrite H1, H2. split; intros Hv.
    + now apply assign_if_lookup.
    + rewrite assign_if_lookup_ne by discriminate. now apply assign_if_lookup.
  - exists img. cbn [images set_images loadedImages].
    split; [now rewrite list_lookup_insert_ne|]. easy.
Qed.

Lemma loadImage_has_handlers (i j : nat) (st : state) :
  has_handlers i st -> has_handlers i (loadImage j st).
Proof.
  intros (img & Hi & Ho). unfold loadImage.
  case_bool_decide as Hl; [now exists img|].
  destruct (images st !! j) as [imgj|] eqn:Hj; [|now exists img].
  destruct (_ && _); [now exists img|].
  destruct (decide (j = i)) as [->|Hne].
  - eexists. cbn [images set_images].
    split; [apply list_lookup_insert_eq; now apply lookup_lt_Some in Hi|].
    reflexivity.
  - exists img. cbn [images set_images].
    split; [now rewrite list_lookup_insert_ne | exact Ho].
Qed.

Lemma loadImage_settles (i : nat) (d1 d2 : option string) (st : state) :
  tracked i d1 d2 st ->
  has_handlers i (loadImage i st) \/ (falsy d1 = true /\ falsy d2 = true).
Proof.
  intros (img & Hi & H1 & H2 & Hreq & Hld). unfold loadImage.
  case_bool_decide as Hl; [left; exists img; auto|].
  rewrite Hi, H1, H2.
  destruct (falsy d1) eqn:Hf1, (falsy d2) eqn:Hf2; cbn [andb];
    [now right| | |];
    (left; eexists; cbn [images set_images];
     split; [apply list_lookup_insert_eq; now apply lookup_lt_Some in Hi
            | reflexivity]).
Qed.

Lemma settled_loadImage (i j : nat) (d1 d2 : option string) (st : state) :
  settled i d1 d2 st -> settled i d1 d2 (loadImage j st).
Proof.
  intros [Hp|[Hh|Hf]].
  - left. now rewrite (proj1 (proj2 (loadImage_frame j st))).
  - right. left. now apply loadImage_has_handlers.
  - right. now right.
Qed.

Lemma default_lookup (key d k v : string) (m : gmap string string) :
  m !! k = Some v ->
  (if bool_decide (is_Some (m !! key)) then m else <[key := d]> m) !! k
  = Some v.
Proof.
  intros Hk. case_bool_decide as Hs; [exact Hk|].
  rewrite lookup_insert_ne; [exact Hk|].
  intros <-. apply Hs. now exists v.
Qed.

Lemma default_lookup_ne (key d k : string) (m : gmap string string) :
  key <> k ->
  (if bool_decide (is_Some (m !! key)) then m else <[key := d]> m) !! k
  = m !! k.
Proof.
  intros Hne. case_bool_decide; [reflexivity|]. now apply lookup_insert_ne.
Qed.

Lemma optimize_lookup (img : Image) (k : string) (v : string) :
  attributes img !! k = Some v ->
  not_optimized img = true ->
  attributes (optimize img) !! k = Some v.
Proof.
  intros Hk Hn. unfold optimize. cbn [attributes].
  assert (Hne : "data-optimized" <> k).
  { intros <-. unfold not_optimized in Hn.
    rewrite bool_decide_eq_true_2 in Hn by (now exists v). discriminate Hn. }
  rewrite lookup_insert_ne by exact Hne.
  now apply default_lookup, default_lookup.
Qed.

Lemma optimize_lookup_other (img : Image) (k : string) :
  k <> "loading" -> k <> "decoding" -> k <> "data-optimized" ->
  attributes (optimize img) !! k = attributes img !! k.
Proof.
  intros H1 H2 H3. unfold optimize. cbn [attributes].
  rewrite lookup_insert_ne by (now apply not_eq_sym).
  rewrite default_lookup_ne by (now apply not_eq_sym).
  now apply default_lookup_ne, not_eq_sym.
Qed.

Lemma optimizeImages_lookup (st : state) (i : nat) (img : Image) :
  images st !! i = Some img ->
  images (optimizeImages st) !! i
  = Some (if not_optimized img then optimize img else img).
Proof.
  intros Hi. unfold optimizeImages. cbn [images set_images].
  change (map ?f ?l) with (f <$> l). now rewrite list_lookup_fmap, Hi.
Qed.

Lemma step_tracked (i : nat) (d1 d2 : option string) (st : state) (e : event) :
  tracked i d1 d2 st -> tracked i d1 d2 (step st e).
Proof.
  intros Ht. destruct e as [entries|j|j|]; cbn [step].
  - unfold handleIntersection. revert st Ht.
    induction entries as [|[j b] entries IH]; intros st Ht; [exact Ht|].
    cbn [foldl fst snd]. apply IH. destruct b; [|exact Ht].
    destruct (loadImage_tracked i j d1 d2 st Ht)
      as (img & Hi & H1 & H2 & Hreq & Hld).
    exists img. cbn [images loadedImages]. easy.
  - destruct Ht as (img & Hi & H1 & H2 & Hreq & Hld). unfold img_onload.
    destruct (images st !! j) as [imgj|] eqn:Hj; [|now exists img].
    destruct (onload imgj) eqn:Ho; [|now exists img].
    destruct (decide (j = i)) as [->|Hne].
    + rewrite Hi in Hj. injection Hj as <-.
      eexists. cbn [images loadedImages].
      split; [apply list_lookup_insert_eq; now apply lookup_lt_Some in Hi|].
      cbn [attributes onload].
      split; [exact H1|]. split; [exact H2|].
      split; [intros _; exact (Hreq Ho) | intros _; reflexivity].
    + exists img. cbn [images loadedImages].
      split; [now rewrite list_lookup_insert_ne|].
      split; [exact H1|]. split; [exact H2|]. split; [exact Hreq|].
      intros Hin. apply Hld. apply elem_of_union in Hin.
      destruct Hin as [Hin|Hin]; [|exact Hin].
      apply elem_of_singleton in Hin. congruence.
  - destruct Ht as (img & Hi & H1 & H2 & Hreq & Hld). unfold img_onerror.
    destruct (images st !! j) as [imgj|] eqn:Hj; [|now exists img].
    destruct (onload imgj) eqn:Ho; [|now exists img].
    destruct (decide (j = i)) as [->|Hne].
    + rewrite Hi in Hj. injection Hj as <-.
      eexists. cbn [images set_images loadedImages].
      split; [apply list_lookup_insert_eq; now apply lookup_lt_Some in Hi|].
      cbn [attributes onload].
      split; [exact H1|]. split; [exact H2|].
      split; [intros _; exact (Hreq Ho) | intros _; reflexivity].
    + exists img. cbn [images set_images loadedImages].
      split; [now rewrite list_lookup_insert_ne|].
      split; [exact H1|]. split; [exact H2|]. split; [exact Hreq | exact Hld].
  - destruct Ht as (img & Hi & H1 & H2 & Hreq & Hld).
    eexists. split; [apply optimizeImages_lookup; exact Hi|].
    cbn [optimizeImages set_images loadedImages].
    destruct (not_optimized img); [|easy].
    rewrite !optimize_lookup_other by discriminate. easy.
Qed.

Lemma step_has_handlers (i : nat) (st : state) (e : event) :
  has_handlers i st -> has_handlers i (step st e).
Proof.
  intros Hh. destruct e as [entries|j|j|]; cbn [step].
  - unfold handleIntersection. revert st Hh.
    induction entries as [|[j b] entries IH]; intros st Hh; [exact Hh|].
    cbn [foldl fst snd]. apply IH. destruct b; [|exact Hh].
    destruct (loadImage_has_handlers i j st Hh) as (img & Hi & Ho).
    now exists img.
  - destruct Hh as (img & Hi & Ho). unfold img_onload.
    destruct (images st !! j) as [imgj|] eqn:Hj; [|now exists img].
    destruct (onload imgj) eqn:Hoj; [|now exists img].
    destruct (decide (j = i)) as [->|Hne].
    + eexists. cbn [images].
      split; [apply list_lookup_insert_eq; now apply lookup_lt_Some in Hi|].
      reflexivity.
    + exists img. cbn [images]. now rewrite list_lookup_insert_ne.
  - destruct Hh as (img & Hi & Ho). unfold img_onerror.
    destruct (images st !! j) as [imgj|] eqn:Hj; [|now exists img].
    destruct (onload imgj) eqn:Hoj; [|now exists img].
    destruct (decide (j = i)) as [->|Hne].
    + eexists. cbn [images set_images].
      split; [apply list_lookup_insert_eq; now apply lookup_lt_Some in Hi|].
      reflexivity.
    + exists img. cbn [images set_images]. now rewrite list_lookup_insert_ne.
  - destruct Hh as (img & Hi & Ho).
    eexists. split; [apply optimizeImages_lookup; exact Hi|].
    now destruct (not_optimized img).
Qed.

Lemma handleIntersection_settled (i : nat) (d1 d2 : option string)
    (entries : list (nat * bool)) :
  forall st,
    tracked i d1 d2 st -> settled i d1 d2 st ->
    settled i d1 d2 (handleIntersection entries st).
Proof.
  unfold handleIntersection.
  induction entries as [|[j b] entries IH]; intros st Ht Hs; [exact Hs|].
  cbn [foldl fst snd]. destruct b; [|now apply IH].
  apply IH.
  - destruct (loadImage_tracked i j d1 d2 st Ht)
      as (img & Hi & H1 & H2 & Hreq & Hld).
    exists img. cbn [images loadedImages]. easy.
  - destruct (decide (j = i)) as [->|Hne].
    + destruct (loadImage_settles i d1 d2 st Ht) as [(img & Hi & Ho)|Hf].
      * right. left. now exists img.
      * right. now right.
    + destruct (settled_loadImage i j d1 d2 st Hs) as [Hp|[(img & Hi & Ho)|Hf]].
      * left. cbn [pendingImages]. apply elem_of_difference.
        split; [exact Hp|]. intros Hj. apply elem_of_singleton in Hj.
        congruence.
      * right. left. now exists img.
      * right. now right.
Qed.

Lemma step_settled (i : nat) (d1 d2 : option string) (st : state) (e : event) :
  tracked i d1 d2 st -> settled i d1 d2 st -> settled i d1 d2 (step st e).
Proof.
  intros Ht Hs. destruct e as [entries|j|j|].
  - now apply handleIntersection_settled.
  - destruct Hs as [Hp|[Hh|Hf]].
    + left. cbn [step]. unfold img_onload.
      destruct (images st !! j); [|exact Hp]. now destruct (onload _).
    + right. left. now apply step_has_handlers.
    + right. now right.
  - destruct Hs as [Hp|[Hh|Hf]].
    + left. cbn [step]. unfold img_onerror.
      destruct (images st !! j); [|exact Hp]. now destruct (onload _).
    + right. left. now apply step_has_handlers.
    + right. now right.
  - destruct Hs as [Hp|[Hh|Hf]].
    + now left.
    + right. left. now apply (step_has_handlers i st optimized).
    + right. now right.
Qed.

Lemma run_settled (i : nat) (d1 d2 : option string) (es : list event) :
  forall st,
    tracked i d1 d2 st -> settled i d1 d2 st ->
    tracked i d1 d2 (run st es) /\ settled i d1 d2 (run st es).
Proof.
  induction es as [|e es IH]; intros st Ht Hs; [now split|].
  cbn [run foldl]. apply IH; [now apply step_tracked | now apply step_settled].
Qed.

Lemma observe_all (l : list nat) :
  forall st,
    let st' := foldl (fun st img =>
                        {| images := images st;
                           loadedImages := loadedImages st;
                           pendingImages := {[img]} ∪ pendingImages st;
                           observed := {[img]} ∪ observed st |}) st l in
    images st' = images st /\ loadedImages st' = loadedImages st /\
    (forall i, i ∈ l -> i ∈ pendingImages st') /\
    (forall i, i ∈ pendingImages st -> i ∈ pendingImages st') /\
    (pendingImages st = observed st -> pendingImages st' = observed st').
Proof.
  induction l as [|x l IH]; intros st; cbn [foldl].
  - repeat split; [intros i Hi; now apply elem_of_nil in Hi | auto | auto].
  - match goal with |- context [foldl ?f ?s l] =>
      destruct (IH s) as (E1 & E2 & E3 & E4 & E5) end.
    cbn [images loadedImages pendingImages observed] in *.
    split; [exact E1|]. split; [exact E2|]. split; [|split].
    + intros i Hi. apply elem_of_cons in Hi. destruct Hi as [->|Hi].
      * apply E4. apply elem_of_union. left. now apply elem_of_singleton.
      * now apply E3.
    + intros i Hi. apply E4. apply elem_of_union. now right.
    + intros Heq. apply E5. now rewrite Heq.
Qed.

Lemma load_all (i : nat) (d1 d2 : option string) (l : list nat) :
  forall st,
    tracked i d1 d2 st ->
    tracked i d1 d2 (foldl (fun st img => loadImage img st) st l) /\
    (settled i d1 d2 st \/ i ∈ l ->
     settled i d1 d2 (foldl (fun st img => loadImage img st) st l)) /\
    (pendingImages st = observed st ->
     pendingImages (foldl (fun st img => loadImage img st) st l)
     = observed (foldl (fun st img => loadImage img st) st l)).
Proof.
  induction l as [|x l IH]; intros st Ht; cbn [foldl].
  - split; [exact Ht|]. split; [|auto].
    intros [Hs|Hi]; [exact Hs | now apply elem_of_nil in Hi].
  - destruct (IH (loadImage x st) (loadImage_tracked i x d1 d2 st Ht))
      as (HT & HS & HP).
    split; [exact HT|]. split.
    + intros [Hs|Hi].
      * apply HS. left. now apply settled_loadImage.
      * apply elem_of_cons in Hi. destruct Hi as [<-|Hi].
        -- apply HS. left. right.
           destruct (loadImage_settles i d1 d2 st Ht) as [Hh|Hf];
             [now left | now right].
        -- apply HS. now right.
    + intros Heq. apply HP.
      destruct (loadImage_frame x st) as (_ & -> & -> & _). exact Heq.
Qed.

Lemma step_pending_observed (st : state) (e : event) :
  pendingImages st = observed st ->
  pendingImages (step st e) = observed (step st e).
Proof.
  intros Heq. destruct e as [entries|j|j|]; cbn [step].
  - unfold handleIntersection. revert st Heq.
    induction entries as [|[j b] entries IH]; intros st Heq; [exact Heq|].
    cbn [foldl fst snd]. apply IH. destruct b; [|exact Heq].
    cbn [pendingImages observed].
    destruct (loadImage_frame j st) as (_ & -> & -> & _). now rewrite Heq.
  - unfold img_onload. destruct (images st !! j); [|exact Heq].
    now destruct (onload _).
  - unfold img_onerror. destruct (images st !! j); [|exact Heq].
    now destruct (onload _).
  - exact Heq.
Qed.

(** X24: the set [lazyLoadState.pendingImages] and the targets of the
    observer are the same set, from [initializeLazyLoading] on and after
    any sequence of intersections, loads, failures and calls of
    [optimizeImages]. *)
Theorem pending_images_are_the_observed_ones
    (imgs : list Image) (supported : bool) (es : list event) :
  pendingImages (run (initializeLazyLoading supported (page imgs)) es)
  = observed (run (initializeLazyLoading supported (page imgs)) es).
Proof.
  assert (Hinit : pendingImages (initializeLazyLoading supported (page imgs))
                  = observed (initializeLazyLoading supported (page imgs))).
  { unfold initializeLazyLoading.
    destruct (select lazy_image (images (page imgs))) as [|x l] eqn:Hsel;
      [reflexivity|].
    destruct supported; cbn [negb].
    - now apply (observe_all (x :: l) (page imgs)).
    - generalize (x :: l). intros l'. generalize (eq_refl : pendingImages (page imgs) = observed (page imgs)).
      generalize (page imgs). induction l' as [|y l' IH]; intros st Heq;
        [exact Heq|].
      cbn [foldl]. apply IH.
      destruct (loadImage_frame y st) as (_ & -> & -> & _). exact Heq. }
  revert Hinit. generalize (initializeLazyLoading supported (page imgs)).
  induction es as [|e es IH]; intros st Heq; [exact Heq|].
  cbn [run foldl]. apply IH. now apply step_pending_observed.
Qed.

(** X25: lazy loading forgets no image: an image of the page that has
    [data-src] or [data-srcset] is, at any later time, still pending, or
    [loadImage] has asked for it ([src] and [srcset] have the values of the
    data attributes that are not empty), or both of its data attributes are
    empty, the one case in which the image is dropped without a request. *)
Theorem lazy_image_is_never_forgotten
    (imgs : list Image) (supported : bool) (es : list event)
    (i : nat) (img : Image) :
  imgs !! i = Some img ->
  lazy_image img = true ->
  onload img = false ->
  i ∈ pendingImages (run (initializeLazyLoading supported (page imgs)) es) \/
  requested i (run (initializeLazyLoading supported (page imgs)) es) \/
  (falsy (attributes img !! "data-src") = true /\
   falsy (attributes img !! "data-srcset") = true).
Proof.
  intros Hi Hlazy Ho.
  set (d1 := attributes img !! "data-src").
  set (d2 := attributes img !! "data-srcset").
  assert (Ht0 : tracked i d1 d2 (page imgs)).
  { exists img. cbn [images page loadedImages].
    split; [exact Hi|]. split; [reflexivity|]. split; [reflexivity|].
    split; [rewrite Ho; discriminate | intros Hin; now apply elem_of_empty in Hin]. }
  assert (Hsel : i ∈ select lazy_image imgs).
  { exact (select_from_elem lazy_image imgs 0 i img Hi Hlazy). }
  assert (Hinit : tracked i d1 d2 (initializeLazyLoading supported (page imgs)) /\
                  settled i d1 d2 (initializeLazyLoading supported (page imgs))).
  { unfold initializeLazyLoading. cbn [images page].
    fold (page imgs).
    destruct (select lazy_image imgs) as [|x l] eqn:Hs;
      [now apply elem_of_nil in Hsel|].
    destruct supported; cbn [negb].
    - destruct (observe_all (x :: l) (page imgs)) as (E1 & E2 & E3 & _).
      split.
      + destruct Ht0 as (img0 & H0 & H1 & H2 & H3 & H4).
        exists img0. rewrite E1, E2. easy.
      + left. now apply E3.
    - destruct (load_all i d1 d2 (x :: l) (page imgs) Ht0) as (HT & HS & _).
      split; [exact HT | apply HS; now right]. }
  destruct Hinit as [Ht Hs].
  destruct (run_settled i d1 d2 es _ Ht Hs) as [Ht' Hs'].
  destruct Hs' as [Hp|[(img' & Hi' & Ho')|Hf]]; [now left| |now right; right].
  right. left.
  destruct Ht' as (img'' & Hi'' & H1 & H2 & Hreq & _).
  rewrite Hi' in Hi''. injection Hi'' as <-.
  exists img'. split; [exact Hi'|]. split; [exact Ho'|].
  rewrite H1, H2. exact (Hreq Ho').
Qed.

Lemma not_optimized_optimize (img : Image) :
  not_optimized (optimize img) = false.
Proof.
  unfold not_optimized, optimize. cbn [attributes].
  rewrite bool_decide_eq_true_2; [reflexivity|].
  eexists. apply lookup_insert_eq.
Qed.

(** X26: [optimizeImages] is idempotent: a second call changes nothing. *)
Theorem optimizeImages_idempotent (st : state) :
  optimizeImages (optimizeImages st) = optimizeImages st.
Proof.
  assert (H : forall imgs : list Image,
    map (fun img => if not_optimized img then optimize img else img)
        (map (fun img => if not_optimized img then optimize img else img) imgs)
    = map (fun img => if not_optimized img then optimize img else img) imgs).
  { intros imgs. rewrite map_map. apply map_ext. intros img.
    destruct (not_optimized img) eqn:Hn; [|now rewrite Hn].
    now rewrite not_optimized_optimize. }
  unfold optimizeImages, set_images.
  cbn [images loadedImages pendingImages observed]. now rewrite H.
Qed.

(** X27: [optimizeImages] overrides nothing: every attribute an image has
    keeps its value, so that [loading] and [decoding] get their defaults
    only where the page gave none; the classes stay as they are. *)
Theorem optimizeImages_keeps_attributes
    (st : state) (i : nat) (img : Image) (k v : string) :
  images st !! i = Some img ->
  attributes img !! k = Some v ->
  exists img',
    images (optimizeImages st) !! i = Some img' /\
    attributes img' !! k = Some v /\
    classList img' = classList img.
Proof.
  intros Hi Hk. eexists. split; [apply optimizeImages_lookup; exact Hi|].
  destruct (not_optimized img) eqn:Hn; [|now split].
  split; [now apply optimize_lookup | reflexivity].
Qed.

End PerformanceFacts.

Lemma lazy_image_is_never_forgotten_witness :
  [{| Performance.attributes := {["data-src" := "hero.jpg"]};
      Performance.classList := [];
      Performance.onload := false |}] !! 0%nat
  = Some {| Performance.attributes := {["data-src" := "hero.jpg"]};
            Performance.classList := [];
            Performance.onload := false |} /\
  (0%nat ∈ Performance.pendingImages
     (Performance.run
        (Performance.initializeLazyLoading true
           (Performance.page
              [{| Performance.attributes := {["data-src" := "hero.jpg"]};
                  Performance.classList := [];
                  Performance.onload := false |}]))
        [Performance.optimized; Performance.intersection [(0%nat, true)]]) \/
   Performance.requested 0
     (Performance.run
        (Performance.initializeLazyLoading true
           (Performance.page
              [{| Performance.attributes := {["data-src" := "hero.jpg"]};
                  Performance.classList := [];
                  Performance.onload := false |}]))
        [Performance.optimized; Performance.intersection [(0%nat, true)]]) \/
   (Performance.falsy
      (Performance.attributes
         {| Performance.attributes := {["data-src" := "hero.jpg"]};
           Performance.classList := [];
           Performance.onload := false |} !! "data-src")
    = true /\
    Performance.falsy
      (Performance.attributes
         {| Performance.attributes := {["data-src" := "hero.jpg"]};
           Performance.classList := [];
           Performance.onload := false |} !! "data-srcset")
    = true)).
Proof.
  split; [reflexivity|].
  apply (lazy_image_is_never_forgotten
           [{| Performance.attributes := {["data-src" := "hero.jpg"]};
               Performance.classList := [];
               Performance.onload := false |}]
           true
           [Performance.optimized; Performance.intersection [(0%nat, true)]]
           0
           {| Performance.attributes := {["data-src" := "hero.jpg"]};
              Performance.classList := [];
              Performance.onload := false |});
    reflexivity.
Defined.

Lemma optimizeImages_keeps_attributes_witness :
  exists img',
    Performance.images
      (Performance.optimizeImages
         (Performance.page
            [{| Performance.attributes := {["loading" := "eager"]};
                Performance.classList := ["hero"];
                Performance.onload := false |}])) !! 0%nat = Some img' /\
    Performance.attributes img' !! "loading" = Some "eager" /\
    Performance.classList img' = ["hero"].
Proof.
  apply (optimizeImages_keeps_attributes
           (Performance.page
              [{| Performance.attributes := {["loading" := "eager"]};
                  Performance.classList := ["hero"];
                  Performance.onload := false |}])
           0
           {| Performance.attributes := {["loading" := "eager"]};
              Performance.classList := ["hero"];
              Performance.onload := false |}
           "loading" "eager");
    reflexivity.
Defined.

(** ** [getRating] *)

Section RatingFacts.
Import Rating.

Lemma number_le_trans (a b c : number) :
  le a b = true -> le b c = true -> le a c = true.
Proof.
  destruct a as [| |x|], b as [| |y|], c as [| |z|]; cbn [le];
    try discriminate; try reflexivity.
  intros H1 H2. apply QArith_base.Qle_bool_iff.
  apply QArith_base.Qle_bool_iff in H1. apply QArith_base.Qle_bool_iff in H2.
  exact (QArith_base.Qle_trans _ _ _ H1 H2).
Qed.

(** X28: [getRating] is monotone, whatever the thresholds: a value that is
    [<=] another never gets the worse rating of the two. *)
Theorem getRating_is_monotone (v1 v2 : number) (thresholds : Thresholds) :
  le v1 v2 = true ->
  (severity (getRating v1 thresholds) <= severity (getRating v2 thresholds))%nat.
Proof.
  intros H. unfold getRating.
  destruct (le v2 (good thresholds)) eqn:Hg.
  - now rewrite (number_le_trans _ _ _ H Hg).
  - destruct (le v2 (needsImprovement thresholds)) eqn:Hn.
    + destruct (le v1 (good thresholds)); [cbv; lia|].
      now rewrite (number_le_trans _ _ _ H Hn).
    + destruct (le v1 (good thresholds)); [cbv; lia|].
      destruct (le v1 (needsImprovement thresholds)); cbv; lia.
Qed.

End RatingFacts.

(** A value that is not a number is rated [poor]. *)
Example getRating_of_NaN :
  Rating.getRating Rating.NaN Rating.WEB_VITALS_THRESHOLDS.CLS = "poor".
Proof. reflexivity. Qed.

Lemma getRating_is_monotone_witness :
  Rating.le (Rating.of_Z 2000) (Rating.of_Z 3000) = true /\
  (Rating.severity
     (Rating.getRating (Rating.of_Z 2000) Rating.WEB_VITALS_THRESHOLDS.LCP)
   <= Rating.severity
        (Rating.getRating (Rating.of_Z 3000) Rating.WEB_VITALS_THRESHOLDS.LCP))%nat.
Proof.
  split; [reflexivity|].
  apply getRating_is_monotone. reflexivity.
Defined.
